(** * Orchestration engine of shhh: module registry, runner and bridge

    Shallow embedding of
    - [internal/module/setup/python.go]: [Registry], [Register], [Get],
      [ResolveDeps] (Kahn's algorithm with insertion-order seeding);
    - [internal/exec/exec.go]: [Runner.RunModule], [Runner.RunModules];
    - [internal/tui/wizard/bridge.go]: [Bridge.Start], [Bridge.run],
      [Bridge.send], [Bridge.NextMsg], [Bridge.Cancel], and the
      [ProgressModel] it holds;
    - further: [Registry.All], [Registry.ByCategory], [Category.String],
      [scoopInstallStep], [MockRunner.Run], the [state] package's [Add]
      functions, [saveState] of the setup command, and the wizard's
      [updatePicker], [updateProgress] and [SummaryModel].

    Go maps are stdpp [gmap]s, the [needed] set is a [gset]. The closures of a
    step (Check, Run, DryRun), the runner hooks and the channel sends are
    external calls; the runner and the bridge are programs of a small free
    monad [Prog] whose events are these calls. *)

From Stdlib Require Import ZArith Lia.
From Stdlib Require DecimalString DecimalZ.
From stdpp Require Import base gmap strings list sets relations sorting.


(* ------------------------------------------------------------------ *)
(** ** Data model *)

(** Go [error] values produced by the engine. [ErrMsg] stands for any error
    returned by a step's [Run]. *)
Inductive error : Type :=
  | ErrMsg (msg : string)
  (** ["module %q not found in registry"] *)
  | ErrNotFound (id : string)
  (** ["dependency cycle detected among modules"] *)
  | ErrCycle
  (** ["step %q in module %q failed: %w"] *)
  | ErrStepFailed (step modid : string) (inner : error)
  (** ["resolving dependencies: %w"] *)
  | ErrResolving (inner : error)
  (** Bridge.run: ["module %q not found"] *)
  | ErrBridgeNotFound (id : string)
  (** Not produced by the Go code: the depth bound of [collect] below was
      exhausted. [ResolveDeps_with_err] shows it never happens. *)
  | ErrFuel.

(** [Category] is a Go [int]; the engine never reads it. *)
Definition Category := Z.

(** [Step]: the closures [Check], [Run], [DryRun] are external calls of the
    runner (events of [Prog]); the record keeps whether the nil-able ones are
    set. [Run] is always called when reached (a nil [Run] would panic). *)
Record Step := {
  Name : string;
  Description : string;
  Explain : string;
  HasCheck : bool;   (** [Check != nil] *)
  HasDryRun : bool   (** [DryRun != nil] *)
}.

(** Go's [Module] ([Module] is a Rocq keyword). *)
Record Mod := {
  ID : string;
  MName : string;
  MDescription : string;
  MCategory : Category;
  Dependencies : list string;
  Steps : list Step
}.

Record Registry := {
  modules : gmap string Mod;
  order : list string  (** insertion order for stable iteration *)
}.

Definition NewRegistry : Registry := {| modules := ∅; order := [] |}.

(** If a module with the same ID already exists, it is replaced (but
    insertion order is preserved). *)
Definition Register (r : Registry) (m : Mod) : Registry :=
  {| modules := <[ID m := m]> (modules r);
     order := match modules r !! ID m with
              | None => order r ++ [ID m]
              | Some _ => order r
              end |}.

Definition Get (r : Registry) (id : string) : option Mod := modules r !! id.

(** A registry as the program builds it: [NewRegistry] then [Register]s. *)
Definition build (ms : list Mod) : Registry := foldl Register NewRegistry ms.

(** Go's [(T, error)] results. *)
Inductive result (A : Type) : Type :=
  | Ok (a : A)
  | Error (e : error).
Arguments Ok {A} a.
Arguments Error {A} e.

(* ------------------------------------------------------------------ *)
(** ** ResolveDeps *)

Section Resolve.
Variable r : Registry.

(** The dependency list of a registered module ([[]] for an unknown ID). *)
Definition deps (id : string) : list string :=
  match modules r !! id with Some m => Dependencies m | None => [] end.

(** [for _, x := range xs { if err := coll(x); err != nil { return err } }],
    threading the [needed] set that [collect] mutates. *)
Fixpoint collect_each (coll : string -> gset string -> result (gset string))
    (xs : list string) (needed : gset string) : result (gset string) :=
  match xs with
  | [] => Ok needed
  | x :: xs' =>
      match coll x needed with
      | Ok needed' => collect_each coll xs' needed'
      | Error e => Error e
      end
  end.

(** The recursive closure [collect]; [fuel] bounds the recursion depth
    (every level marks a new registered ID, so [length (order r) + 1] is
    enough: [collect_fuel_enough]). *)
Fixpoint collect (fuel : nat) (id : string) (needed : gset string)
    : result (gset string) :=
  match fuel with
  | O => Error ErrFuel
  | S fuel' =>
      if bool_decide (id ∈ needed) then Ok needed else
      match modules r !! id with
      | None => Error (ErrNotFound id)
      | Some m => collect_each (collect fuel') (Dependencies m) ({[id]} ∪ needed)
      end
  end.

(** A Go [map[string]int] read: a missing key reads as 0. *)
Definition get (deg : gmap string Z) (k : string) : Z := default 0%Z (deg !! k).

(** [for id := range needed { inDegree[id] = 0 }]; [keys] is the (random)
    iteration order Go picks for the map. *)
Definition init_indegree (keys : list string) : gmap string Z :=
  foldl (fun deg id => <[id := 0%Z]> deg) ∅ keys.

(** Body of [for _, dep := range r.modules[id].Dependencies
    { if needed[dep] { inDegree[id]++ } }]. The [None] case is unreachable:
    every needed ID is registered. *)
Definition count_edges (needed : gset string) (deg : gmap string Z) (id : string)
    : gmap string Z :=
  match modules r !! id with
  | Some m =>
      foldl (fun deg dep =>
               if bool_decide (dep ∈ needed) then <[id := (get deg id + 1)%Z]> deg
               else deg) deg (Dependencies m)
  | None => deg
  end.

Definition build_indegree (needed : gset string) (keys1 keys2 : list string)
    : gmap string Z :=
  foldl (count_edges needed) (init_indegree keys1) keys2.

(** Seed the queue with zero in-degree nodes in insertion order. *)
Definition seed (needed : gset string) (deg : gmap string Z) : list string :=
  filter (fun id => id ∈ needed /\ get deg id = 0%Z) (order r).

(** [for _, dep := range deps { if dep == cur { inDegree[id]--;
    if inDegree[id] == 0 { queue = append(queue, id) }; break } }] *)
Fixpoint decrement (cur id : string) (ds : list string)
    (st : gmap string Z * list string) : gmap string Z * list string :=
  match ds with
  | [] => st
  | dep :: ds' =>
      if bool_decide (dep = cur) then
        let d := (get st.1 id - 1)%Z in
        (<[id := d]> st.1, if bool_decide (d = 0%Z) then st.2 ++ [id] else st.2)
      else decrement cur id ds' st
  end.

(** [for _, id := range r.order { if !needed[id] { continue }; ... }] *)
Definition release (needed : gset string) (cur : string)
    (st : gmap string Z * list string) : gmap string Z * list string :=
  foldl (fun st id =>
           if bool_decide (id ∈ needed) then
             match modules r !! id with
             | Some m => decrement cur id (Dependencies m) st
             | None => st
             end
           else st) st (order r).

(** [for len(queue) > 0 { cur := queue[0]; queue = queue[1:];
    sorted = append(sorted, cur); ... }]; [fuel] bounds the number of
    iterations (every module enters the queue at most once:
    [kahn_queue_empty]). *)
Fixpoint kahn (needed : gset string) (fuel : nat) (deg : gmap string Z)
    (queue sorted : list string) : gmap string Z * list string * list string :=
  match fuel with
  | O => (deg, queue, sorted)
  | S fuel' =>
      match queue with
      | [] => (deg, [], sorted)
      | cur :: queue' =>
          let st := release needed cur (deg, queue') in
          kahn needed fuel' st.1 st.2 (sorted ++ [cur])
      end
  end.

(** [ResolveDeps] where the two [range needed] loops visit the keys in the
    orders [keys1 needed] and [keys2 needed]. *)
Definition ResolveDeps_with (keys1 keys2 : gset string -> list string)
    (ids : list string) : result (list string) :=
  let fuel := S (length (order r)) in
  match collect_each (collect fuel) ids ∅ with
  | Error e => Error e
  | Ok needed =>
      let deg := build_indegree needed (keys1 needed) (keys2 needed) in
      let sorted := (kahn needed fuel deg (seed needed deg) []).2 in
      if bool_decide (length sorted = size needed) then Ok sorted
      else Error ErrCycle
  end.

(** One iteration order of the Go map (any other gives the same result:
    [ResolveDeps_with_eq]). *)
Definition ResolveDeps (ids : list string) : result (list string) :=
  ResolveDeps_with elements elements ids.

End Resolve.

(* ------------------------------------------------------------------ *)
(** Concrete registries of the Go tests. *)

Definition mk (id : string) (ds : list string) (steps : list Step) : Mod :=
  {| ID := id; MName := id; MDescription := ""; MCategory := 0%Z;
     Dependencies := ds; Steps := steps |}.

Definition diamond : Registry :=
  build [mk "base" [] []; mk "python" ["base"] []; mk "golang" ["base"] [];
         mk "tools" ["python"; "golang"] []].

Example resolve_simple :
  ResolveDeps (build [mk "base" [] []; mk "python" ["base"] []]) ["python"]
  = Ok ["base"; "python"].
Proof. vm_compute. reflexivity. Qed.

Example resolve_diamond :
  ResolveDeps diamond ["tools"] = Ok ["base"; "python"; "golang"; "tools"].
Proof. vm_compute. reflexivity. Qed.

Example resolve_cycle :
  ResolveDeps (build [mk "a" ["b"] []; mk "b" ["a"] []]) ["a"] = Error ErrCycle.
Proof. vm_compute. reflexivity. Qed.

Example resolve_missing :
  ResolveDeps (build [mk "python" ["base"] []]) ["python"]
  = Error (ErrNotFound "base").
Proof. vm_compute. reflexivity. Qed.

(* ------------------------------------------------------------------ *)
(** ** Registry facts *)

(** What [NewRegistry] and [Register] maintain: the insertion order has no
    duplicates, lists exactly the registered IDs, and each module is stored
    under its own ID. *)
Definition reg_wf (r : Registry) : Prop :=
  NoDup (order r) /\
  (forall x, x ∈ order r <-> is_Some (modules r !! x)) /\
  (forall x m, modules r !! x = Some m -> ID m = x).

(** "[x] depends on [y]". *)
Definition edge (r : Registry) (x y : string) : Prop :=
  exists m, modules r !! x = Some m /\ y ∈ Dependencies m.

(** The needed set of a request: requested IDs and all transitive
    dependencies. *)
Definition reach (r : Registry) (ids : list string) (x : string) : Prop :=
  exists i, i ∈ ids /\ rtc (edge r) i x.

(** Every dependency of a module in [l] appears earlier in [l]. *)
Definition topo (r : Registry) (l : list string) : Prop :=
  forall i x, l !! i = Some x ->
  forall d, d ∈ deps r x -> exists j, (j < i)%nat /\ l !! j = Some d.

(** Position of [x] in [l] ([length l] if absent). *)
Fixpoint index_of (x : string) (l : list string) : nat :=
  match l with
  | [] => 0
  | y :: l' => if decide (x = y) then 0 else S (index_of x l')
  end.

(** The iteration of the queue loop that made [x] ready, counted from 1 (the
    output position of its last dependency, plus one); 0 for a module
    without dependencies, which is seeded. *)
Definition ready_at (r : Registry) (l : list string) (x : string) : nat :=
  foldr (fun d acc => Nat.max (S (index_of d l)) acc) 0 (deps r x).

(** FIFO order of the ready queue: modules made ready earlier come first;
    those made ready at the same time come in registration order. *)
Definition key_lt (r : Registry) (l : list string) (x y : string) : Prop :=
  ready_at r l x < ready_at r l y \/
  (ready_at r l x = ready_at r l y /\ index_of x (order r) < index_of y (order r)).

Lemma Register_wf r m : reg_wf r -> reg_wf (Register r m).
Proof.
  intros (Hnd & Hord & Hkey). unfold Register; cbn.
  destruct (modules r !! ID m) as [m0|] eqn:Hm; split_and!; cbn.
  - done.
  - intros x. destruct (decide (x = ID m)) as [->|Hne].
    + rewrite lookup_insert_eq. split; [done|]. intros _. apply Hord. by eexists.
    + rewrite lookup_insert_ne by congruence. apply Hord.
  - intros x m1. destruct (decide (x = ID m)) as [->|Hne].
    + rewrite lookup_insert_eq. congruence.
    + rewrite lookup_insert_ne by congruence. apply Hkey.
  - apply NoDup_app. split_and!; [done| |apply NoDup_singleton].
    intros x Hx Hx'. apply list_elem_of_singleton in Hx'. subst.
    apply Hord in Hx. rewrite Hm in Hx. by destruct Hx.
  - intros x. rewrite elem_of_app, list_elem_of_singleton.
    destruct (decide (x = ID m)) as [->|Hne].
    + rewrite lookup_insert_eq. split; [done|]. by right.
    + rewrite lookup_insert_ne by congruence. rewrite <- Hord. naive_solver.
  - intros x m1. destruct (decide (x = ID m)) as [->|Hne].
    + rewrite lookup_insert_eq. congruence.
    + rewrite lookup_insert_ne by congruence. apply Hkey.
Qed.

Lemma build_wf ms : reg_wf (build ms).
Proof.
  unfold build. cut (forall r, reg_wf r -> reg_wf (foldl Register r ms)).
  { intros H. apply H. split_and!; [constructor| |].
    - intros x. cbn. rewrite lookup_empty. split; [set_solver|by intros []].
    - intros x m. cbn. by rewrite lookup_empty. }
  induction ms as [|m ms IH]; intros r Hr; cbn; [done|].
  apply IH, Register_wf, Hr.
Qed.

(* ------------------------------------------------------------------ *)
(** ** The [collect] traversal *)

Section CollectFacts.
Variable r : Registry.
Hypothesis Hwf : reg_wf r.

(** DFS invariant: every marked ID is registered, and is either still on the
    recursion stack [P] or has all its dependencies marked. *)
Definition cinv (P S : gset string) : Prop :=
  forall x, x ∈ S -> is_Some (modules r !! x) /\
    (x ∈ P \/ forall d, d ∈ deps r x -> d ∈ S).

Lemma collect_each_ok coll P xs n N' :
  (forall x n n', coll x n = Ok n' -> cinv P n ->
     cinv P n' /\ n ⊆ n' /\ x ∈ n' /\
     forall y, y ∈ n' -> y ∈ n \/ rtc (edge r) x y) ->
  collect_each coll xs n = Ok N' -> cinv P n ->
  cinv P N' /\ n ⊆ N' /\ (forall x, x ∈ xs -> x ∈ N') /\
  forall y, y ∈ N' -> y ∈ n \/ exists x, x ∈ xs /\ rtc (edge r) x y.
Proof.
  intros Hcoll. revert n. induction xs as [|x xs IH]; intros n Hrun Hinv; cbn in Hrun.
  - injection Hrun as <-. split_and!; [done|done| |].
    + intros x Hx. by apply not_elem_of_nil in Hx.
    + intros y Hy. by left.
  - destruct (coll x n) as [n1|e] eqn:Hx; [|discriminate].
    destruct (Hcoll _ _ _ Hx Hinv) as (Hinv1 & Hsub1 & Hin1 & Hr1).
    destruct (IH _ Hrun Hinv1) as (HinvN & HsubN & HinN & HrN).
    split_and!; [done|set_solver| |].
    + intros z Hz. apply elem_of_cons in Hz as [->|Hz]; [set_solver|auto].
    + intros y Hy. destruct (HrN y Hy) as [Hy1|(z & Hz & Hzy)].
      * destruct (Hr1 y Hy1) as [|Hxy]; [by left|]. right. exists x. split; [left|done].
      * right. exists z. split; [by right|done].
Qed.

Lemma collect_ok fuel :
  forall P id n N', collect r fuel id n = Ok N' -> cinv P n ->
  cinv P N' /\ n ⊆ N' /\ id ∈ N' /\
  forall y, y ∈ N' -> y ∈ n \/ rtc (edge r) id y.
Proof.
  induction fuel as [|f IH]; intros P id n N' Hrun Hinv; cbn in Hrun; [discriminate|].
  case_bool_decide as Hid.
  - injection Hrun as <-. split_and!; [done|done|done|]. intros y Hy. by left.
  - destruct (modules r !! id) as [m|] eqn:Hm; [|discriminate].
    assert (Hdeps : deps r id = Dependencies m) by (unfold deps; by rewrite Hm).
    assert (Hinv1 : cinv ({[id]} ∪ P) ({[id]} ∪ n)).
    { intros x Hx. apply elem_of_union in Hx as [Hx|Hx].
      - apply elem_of_singleton in Hx as ->. split; [by eexists|]. left; set_solver.
      - destruct (Hinv x Hx) as [Hreg [HP|Hd]]; split; [done| |done|].
        + left; set_solver.
        + right. intros d Hdd. apply Hd in Hdd. set_solver. }
    destruct (collect_each_ok (collect r f) ({[id]} ∪ P) (Dependencies m)
                ({[id]} ∪ n) N' (IH ({[id]} ∪ P)) Hrun Hinv1)
      as (HinvN & HsubN & HinN & HrN).
    split_and!.
    + intros x Hx. destruct (HinvN x Hx) as [Hreg [HP|Hd]]; split; [done| |done|by right].
      apply elem_of_union in HP as [HP|HP]; [|by left].
      apply elem_of_singleton in HP as ->. right. intros d. rewrite Hdeps. apply HinN.
    + set_solver.
    + set_solver.
    + intros y Hy. destruct (HrN y Hy) as [Hy1|(z & Hz & Hzy)].
      * apply elem_of_union in Hy1 as [Hy1|Hy1]; [|by left].
        apply elem_of_singleton in Hy1 as ->. right. apply rtc_refl.
      * right. eapply rtc_l; [|exact Hzy]. exists m. done.
Qed.

Lemma collect_each_err coll xs n e :
  (forall x n e, coll x n = Error e -> e = ErrFuel \/
     exists z, e = ErrNotFound z /\ modules r !! z = None /\ rtc (edge r) x z) ->
  collect_each coll xs n = Error e -> e = ErrFuel \/
  exists z, e = ErrNotFound z /\ modules r !! z = None /\
            exists x, x ∈ xs /\ rtc (edge r) x z.
Proof.
  intros Hcoll. revert n. induction xs as [|x xs IH]; intros n Hrun; cbn in Hrun;
    [discriminate|].
  destruct (coll x n) as [n1|e1] eqn:Hx.
  - destruct (IH _ Hrun) as [|(z & -> & Hz & y & Hy & Hyz)]; [by left|].
    right. exists z. split_and!; [done|done|]. exists y. split; [by right|done].
  - injection Hrun as <-. destruct (Hcoll _ _ _ Hx) as [|(z & -> & Hz & Hxz)]; [by left|].
    right. exists z. split_and!; [done|done|]. exists x. split; [left|done].
Qed.

Lemma collect_err fuel :
  forall id n e, collect r fuel id n = Error e -> e = ErrFuel \/
  exists z, e = ErrNotFound z /\ modules r !! z = None /\ rtc (edge r) id z.
Proof.
  induction fuel as [|f IH]; intros id n e Hrun; cbn in Hrun.
  - injection Hrun as <-. by left.
  - case_bool_decide; [discriminate|].
    destruct (modules r !! id) as [m|] eqn:Hm.
    + destruct (collect_each_err (collect r f) _ _ _ IH Hrun)
        as [|(z & -> & Hz & y & Hy & Hyz)]; [by left|].
      right. exists z. split_and!; [done|done|]. eapply rtc_l; [|exact Hyz]. by exists m.
    + injection Hrun as <-. right. exists id. split_and!; [done|done|apply rtc_refl].
Qed.

Lemma collect_each_mono coll xs n n' :
  (forall x n n', coll x n = Ok n' -> n ⊆ n') ->
  collect_each coll xs n = Ok n' -> n ⊆ n'.
Proof.
  intros Hcoll. revert n. induction xs as [|x xs IH]; intros n Hrun; cbn in Hrun.
  - by injection Hrun as <-.
  - destruct (coll x n) as [n1|] eqn:Hx; [|discriminate].
    transitivity n1; [by eapply Hcoll|by apply IH].
Qed.

Lemma collect_mono fuel : forall id n n', collect r fuel id n = Ok n' -> n ⊆ n'.
Proof.
  induction fuel as [|f IH]; intros id n n' Hrun; cbn in Hrun; [discriminate|].
  case_bool_decide; [by injection Hrun as <-|].
  destruct (modules r !! id); [|discriminate].
  apply collect_each_mono in Hrun; [set_solver|exact IH].
Qed.

(** Registered IDs not yet marked. *)
Definition unvisited (n : gset string) : nat :=
  length (filter (fun x => x ∉ n) (order r)).

Lemma filter_unmarked_anti (l : list string) (n n' : gset string) :
  n ⊆ n' -> length (filter (fun x => x ∉ n') l) <= length (filter (fun x => x ∉ n) l).
Proof.
  intros Hs. induction l as [|a l IH]; [cbn; lia|].
  rewrite !filter_cons. repeat case_decide; cbn; try lia. set_solver.
Qed.

Lemma filter_unmarked_add (l : list string) (id : string) (n : gset string) :
  id ∈ l -> id ∉ n ->
  length (filter (fun x => x ∉ {[id]} ∪ n) l) < length (filter (fun x => x ∉ n) l).
Proof.
  intros Hin Hn. induction l as [|a l IH]; [by apply not_elem_of_nil in Hin|].
  rewrite !filter_cons.
  pose proof (filter_unmarked_anti l n ({[id]} ∪ n) ltac:(set_solver)).
  apply elem_of_cons in Hin as [->|Hin].
  - repeat case_decide; cbn; try lia; set_solver.
  - specialize (IH Hin). repeat case_decide; cbn; try lia; set_solver.
Qed.

Lemma collect_each_nofuel coll f xs n :
  (forall x n, (unvisited n < f)%nat -> coll x n <> Error ErrFuel) ->
  (forall x n n', coll x n = Ok n' -> n ⊆ n') ->
  (unvisited n < f)%nat -> collect_each coll xs n <> Error ErrFuel.
Proof.
  intros Hcoll Hmono. revert n. induction xs as [|x xs IH]; intros n Hn; cbn; [discriminate|].
  destruct (coll x n) as [n1|e] eqn:Hx.
  - apply IH. pose proof (Hmono _ _ _ Hx). unfold unvisited in *.
    pose proof (filter_unmarked_anti (order r) n n1 ltac:(done)). lia.
  - intros [= ->]. by apply (Hcoll x n).
Qed.

Lemma collect_nofuel fuel :
  forall id n, (unvisited n < fuel)%nat -> collect r fuel id n <> Error ErrFuel.
Proof.
  destruct Hwf as (Hnd & Hord & Hkey).
  induction fuel as [|f IH]; intros id n Hn; cbn; [lia|].
  case_bool_decide as Hid; [discriminate|].
  destruct (modules r !! id) as [m|] eqn:Hm; [|discriminate].
  apply (collect_each_nofuel _ f); [exact IH|apply collect_mono|].
  assert (id ∈ order r) by (apply Hord; by eexists).
  pose proof (filter_unmarked_add (order r) id n ltac:(done) Hid).
  unfold unvisited in *. lia.
Qed.

Definition collect_fuel : nat := S (length (order r)).

(** Outcome of the collection phase of [ResolveDeps]. *)
Lemma collect_ids_ok ids N :
  collect_each (collect r collect_fuel) ids ∅ = Ok N ->
  (forall x, x ∈ N <-> reach r ids x) /\
  (forall x, x ∈ N -> is_Some (modules r !! x)) /\
  (forall x d, x ∈ N -> d ∈ deps r x -> d ∈ N).
Proof.
  intros Hrun.
  destruct (collect_each_ok (collect r collect_fuel) ∅ ids ∅ N
              (collect_ok collect_fuel ∅) Hrun ltac:(intros x Hx; set_solver))
    as (Hinv & _ & Hids & Hreach).
  assert (Hclosed : forall x d, x ∈ N -> d ∈ deps r x -> d ∈ N).
  { intros x d Hx Hd. destruct (Hinv x Hx) as [_ [HP|Hall]]; [set_solver|auto]. }
  split_and!.
  - intros x. split.
    + intros Hx. destruct (Hreach x Hx) as [|(i & Hi & Hix)]; [set_solver|].
      by exists i.
    + intros (i & Hi & Hix). apply Hids in Hi. clear Hids Hreach Hrun.
      induction Hix as [|a b c Hab Hbc IHc]; [done|].
      apply IHc. destruct Hab as (m & Hm & Hb). apply (Hclosed a); [done|].
      unfold deps. by rewrite Hm.
  - intros x Hx. apply (Hinv x Hx).
  - exact Hclosed.
Qed.

Lemma collect_ids_err ids e :
  collect_each (collect r collect_fuel) ids ∅ = Error e ->
  exists z, e = ErrNotFound z /\ modules r !! z = None /\ reach r ids z.
Proof.
  intros Hrun.
  destruct (collect_each_err (collect r collect_fuel) ids ∅ e
              (collect_err collect_fuel) Hrun) as [->|(z & -> & Hz & i & Hi & Hiz)].
  - exfalso. revert Hrun. apply collect_each_nofuel with (f := collect_fuel);
      [apply collect_nofuel|apply collect_mono|].
    unfold unvisited, collect_fuel. apply Nat.lt_succ_r, length_filter.
  - exists z. split_and!; [done|done|]. by exists i.
Qed.

Lemma collect_ids_total ids :
  (forall x, reach r ids x -> is_Some (modules r !! x)) ->
  exists N, collect_each (collect r collect_fuel) ids ∅ = Ok N.
Proof.
  intros Hall. destruct (collect_each (collect r collect_fuel) ids ∅) as [N|e] eqn:Hrun;
    [by exists N|].
  destruct (collect_ids_err ids e Hrun) as (z & -> & Hz & Hreach).
  apply Hall in Hreach. rewrite Hz in Hreach. by destruct Hreach.
Qed.

End CollectFacts.

(* ------------------------------------------------------------------ *)
(** ** The in-degree map and the Kahn loop *)

Section KahnFacts.
Variable r : Registry.
Hypothesis Hwf : reg_wf r.
Variable N : gset string.
Hypothesis HNreg : forall x, x ∈ N -> is_Some (modules r !! x).
Hypothesis HNclosed : forall x d, x ∈ N -> d ∈ deps r x -> d ∈ N.

(** Edges counted into [inDegree[x]]: dependencies of [x] that are needed. *)
Definition cnt (x : string) : nat := length (filter (fun d => d ∈ N) (deps r x)).

(** Decrements [x] has received once [l] has been popped. *)
Definition popped (l : list string) (x : string) : nat :=
  length (filter (fun c => c ∈ deps r x) l).

Lemma filter_ext_in {A} (P1 P2 : A -> Prop)
    `{!forall x, Decision (P1 x), !forall x, Decision (P2 x)} (l : list A) :
  (forall x, x ∈ l -> P1 x <-> P2 x) -> filter P1 l = filter P2 l.
Proof.
  induction l as [|a l IH]; intros Hiff; [done|].
  rewrite !filter_cons. rewrite IH by (intros; apply Hiff; by right).
  pose proof (Hiff a ltac:(left)).
  destruct (decide (P1 a)), (decide (P2 a)); try done; exfalso; naive_solver.
Qed.

Lemma N_in_order x : x ∈ N -> x ∈ order r.
Proof. intros Hx. apply Hwf. by apply HNreg. Qed.

Lemma init_indegree_lookup (keys : list string) (m : gmap string Z) x :
  foldl (fun deg id => <[id := 0%Z]> deg) m keys !! x =
  if decide (x ∈ keys) then Some 0%Z else m !! x.
Proof.
  revert m. induction keys as [|a keys IH]; intros m; cbn.
  - case_decide as Hx; [by apply not_elem_of_nil in Hx|done].
  - rewrite IH. destruct (decide (x = a)) as [->|Hne].
    + rewrite lookup_insert_eq.
      destruct (decide (a ∈ keys)), (decide (a ∈ a :: keys)); try done; set_solver.
    + rewrite lookup_insert_ne by congruence.
      destruct (decide (x ∈ keys)), (decide (x ∈ a :: keys)); try done; set_solver.
Qed.

Lemma count_deps_lookup id (ds : list string) (deg : gmap string Z) v :
  deg !! id = Some v ->
  foldl (fun deg dep => if bool_decide (dep ∈ N) then <[id := (get deg id + 1)%Z]> deg
                        else deg) deg ds !! id
  = Some (v + Z.of_nat (length (filter (fun d => d ∈ N) ds)))%Z /\
  forall x, x <> id ->
  foldl (fun deg dep => if bool_decide (dep ∈ N) then <[id := (get deg id + 1)%Z]> deg
                        else deg) deg ds !! x = deg !! x.
Proof.
  revert deg v. induction ds as [|d ds IH]; intros deg v Hv; cbn [foldl].
  - split; [rewrite Hv; cbn; f_equal; lia|done].
  - rewrite filter_cons. case_bool_decide as Hd; case_decide; try done.
    + assert (Hv1 : <[id := (get deg id + 1)%Z]> deg !! id = Some (v + 1)%Z).
      { rewrite lookup_insert_eq. unfold get. rewrite Hv. done. }
      destruct (IH _ _ Hv1) as [H1 H2]. split.
      * rewrite H1. cbn. f_equal. lia.
      * intros x Hx. rewrite H2 by done. by rewrite lookup_insert_ne by congruence.
    + exact (IH _ _ Hv).
Qed.

Lemma count_edges_lookup (deg : gmap string Z) id v :
  deg !! id = Some v ->
  count_edges r N deg id !! id = Some (v + Z.of_nat (cnt id))%Z /\
  forall x, x <> id -> count_edges r N deg id !! x = deg !! x.
Proof.
  intros Hv. unfold count_edges, cnt, deps.
  destruct (modules r !! id) as [m|].
  - by apply count_deps_lookup.
  - cbn. split; [rewrite Hv; f_equal; lia|done].
Qed.

Lemma foldl_count_edges (keys : list string) (m : gmap string Z) :
  NoDup keys -> (forall x, x ∈ keys -> is_Some (m !! x)) ->
  forall x, foldl (count_edges r N) m keys !! x =
            if decide (x ∈ keys) then (fun v => v + Z.of_nat (cnt x))%Z <$> m !! x
            else m !! x.
Proof.
  revert m. induction keys as [|a keys IH]; intros m Hnd Hsome x; cbn.
  - case_decide as Hx; [by apply not_elem_of_nil in Hx|done].
  - apply NoDup_cons in Hnd as [Ha Hnd].
    destruct (Hsome a ltac:(left)) as [va Hva].
    destruct (count_edges_lookup m a va Hva) as [Ha1 Hother].
    rewrite IH; [|done|].
    + destruct (decide (x = a)) as [->|Hne].
      * rewrite decide_False by done. rewrite decide_True by left.
        by rewrite Ha1, Hva.
      * rewrite Hother by done.
        destruct (decide (x ∈ keys)), (decide (x ∈ a :: keys)); set_solver.
    + intros y Hy. rewrite Hother by set_solver. apply Hsome. by right.
Qed.

(** Whatever order Go iterates the [needed] map in, the in-degree map holds
    exactly [cnt x] for every needed [x]. *)
Lemma build_indegree_lookup (keys1 keys2 : list string) :
  keys1 ≡ₚ elements N -> keys2 ≡ₚ elements N ->
  forall x, build_indegree r N keys1 keys2 !! x =
            if decide (x ∈ N) then Some (Z.of_nat (cnt x)) else None.
Proof.
  intros H1 H2 x. unfold build_indegree, init_indegree.
  assert (Hin1 : forall y, y ∈ keys1 <-> y ∈ N).
  { intros y. rewrite H1. apply elem_of_elements. }
  assert (Hin2 : forall y, y ∈ keys2 <-> y ∈ N).
  { intros y. rewrite H2. apply elem_of_elements. }
  rewrite foldl_count_edges.
  - rewrite init_indegree_lookup, lookup_empty.
    destruct (decide (x ∈ keys2)) as [Hx|Hx], (decide (x ∈ N)) as [HxN|HxN],
      (decide (x ∈ keys1)) as [Hx1|Hx1]; cbn; try done; exfalso; naive_solver.
  - rewrite H2. apply NoDup_elements.
  - intros y Hy. rewrite init_indegree_lookup. rewrite decide_True; [by eexists|].
    by apply Hin1, Hin2.
Qed.

Lemma decrement_spec cur id ds (deg : gmap string Z) q :
  decrement cur id ds (deg, q) =
  if decide (cur ∈ ds) then
    (<[id := (get deg id - 1)%Z]> deg,
     if decide ((get deg id - 1)%Z = 0%Z) then q ++ [id] else q)
  else (deg, q).
Proof.
  induction ds as [|d ds IH]; cbn.
  - rewrite decide_False; [done|apply not_elem_of_nil].
  - case_bool_decide as Hd.
    + subst. destruct (decide (cur ∈ cur :: ds)) as [_|Hn]; [|exfalso; apply Hn; left].
      destruct (decide ((get deg id - 1)%Z = 0%Z)); [rewrite bool_decide_true|rewrite bool_decide_false]; done.
    + rewrite IH. destruct (decide (cur ∈ ds)), (decide (cur ∈ d :: ds)); try done; set_solver.
Qed.

(** One iteration of the release scan, for module [id]. *)
Lemma release_step_spec cur (deg : gmap string Z) q id :
  (if bool_decide (id ∈ N) then
     match modules r !! id with
     | Some m => decrement cur id (Dependencies m) (deg, q)
     | None => (deg, q)
     end
   else (deg, q)) =
  if decide (id ∈ N /\ cur ∈ deps r id) then
    (<[id := (get deg id - 1)%Z]> deg,
     if decide ((get deg id - 1)%Z = 0%Z) then q ++ [id] else q)
  else (deg, q).
Proof.
  unfold deps. case_bool_decide as HN.
  - destruct (modules r !! id) as [m|].
    + rewrite decrement_spec.
      destruct (decide (cur ∈ Dependencies m)), (decide (id ∈ N /\ cur ∈ Dependencies m));
        naive_solver.
    + destruct (decide (id ∈ N /\ cur ∈ [])) as [[_ Hc]|]; [by apply not_elem_of_nil in Hc|done].
  - destruct (decide (id ∈ N /\ cur ∈ _)) as [[Hc _]|]; [done|done].
Qed.

(** The whole scan: every needed dependent of [cur] is decremented once, and
    those reaching zero are appended in insertion order. *)
Lemma release_spec cur (deg : gmap string Z) q :
  exists deg',
    release r N cur (deg, q) =
      (deg', q ++ filter (fun x => x ∈ N /\ cur ∈ deps r x /\
                                   (get deg x - 1)%Z = 0%Z) (order r)) /\
    forall x, deg' !! x =
      if decide (x ∈ order r /\ x ∈ N /\ cur ∈ deps r x) then Some (get deg x - 1)%Z
      else deg !! x.
Proof.
  unfold release. destruct Hwf as (Hnd & _ & _).
  generalize (order r) Hnd. clear Hnd. intros l Hnd. revert deg q.
  induction l as [|a l IH]; intros deg q; cbn [foldl].
  - exists deg. split; [by rewrite filter_nil, app_nil_r|].
    intros x. rewrite decide_False; [done|]. intros [Hx _]. by apply not_elem_of_nil in Hx.
  - apply NoDup_cons in Hnd as [Ha Hnd]. rewrite release_step_spec.
    rewrite filter_cons.
    destruct (decide (a ∈ N /\ cur ∈ deps r a)) as [Hc|Hc].
    + set (deg1 := <[a := (get deg a - 1)%Z]> deg).
      set (q1 := if decide ((get deg a - 1)%Z = 0%Z) then q ++ [a] else q).
      destruct (IH Hnd deg1 q1) as (deg' & Hrun & Hlk). exists deg'. split.
      * rewrite Hrun. unfold q1.
        assert (Hf : filter (fun x => x ∈ N /\ cur ∈ deps r x /\ (get deg1 x - 1)%Z = 0%Z) l
                   = filter (fun x => x ∈ N /\ cur ∈ deps r x /\ (get deg x - 1)%Z = 0%Z) l).
        { apply filter_ext_in. intros x Hx. unfold deg1, get.
          rewrite lookup_insert_ne by congruence. done. }
        rewrite Hf. case_decide; case_decide; try naive_solver.
        by rewrite <- app_assoc.
      * intros x. rewrite Hlk. unfold deg1, get.
        destruct (decide (x = a)) as [->|Hne].
        -- rewrite decide_False by naive_solver. rewrite decide_True by (split; [left|done]).
           by rewrite lookup_insert_eq.
        -- rewrite lookup_insert_ne by congruence.
           destruct (decide (x ∈ l /\ x ∈ N /\ cur ∈ deps r x)),
             (decide (x ∈ a :: l /\ x ∈ N /\ cur ∈ deps r x)); try done; set_solver.
    + destruct (IH Hnd deg q) as (deg' & Hrun & Hlk). exists deg'. split.
      * rewrite Hrun. case_decide; naive_solver.
      * intros x. rewrite Hlk.
        destruct (decide (x ∈ l /\ x ∈ N /\ cur ∈ deps r x)),
          (decide (x ∈ a :: l /\ x ∈ N /\ cur ∈ deps r x)); try done; set_solver.
Qed.

Lemma nodup_sub_le {A} (k m : list A) :
  NoDup k -> (forall y, y ∈ k -> y ∈ m) -> length k <= length m.
Proof. intros Hk Hs. apply submseteq_length, NoDup_submseteq; done. Qed.

Lemma nodup_sub_lt {A} (k m : list A) d :
  NoDup k -> (forall y, y ∈ k -> y ∈ m) -> d ∈ m -> d ∉ k -> length k < length m.
Proof.
  intros Hk Hs Hd Hdk. apply elem_of_Permutation in Hd as [m' Hm'].
  rewrite Hm'. cbn. apply Nat.lt_succ_r, nodup_sub_le; [done|].
  intros y Hy. assert (Hy' : y ∈ d :: m') by (rewrite <- Hm'; by apply Hs).
  apply elem_of_cons in Hy' as [->|]; [done|done].
Qed.

Lemma remove_dups_lt {A} `{EqDecision A} (m : list A) :
  ~ NoDup m -> length (remove_dups m) < length m.
Proof.
  induction m as [|a m IH]; intros Hnd; [by destruct Hnd; constructor|].
  cbn. destruct (decide_rel (∈) a m) as [Ha|Ha].
  - apply Nat.lt_succ_r, nodup_sub_le; [apply NoDup_remove_dups|].
    intros y. by rewrite elem_of_remove_dups.
  - cbn. apply ->Nat.succ_lt_mono. apply IH. intros Hm. apply Hnd. by constructor.
Qed.

Lemma cnt_full x : x ∈ N -> cnt x = length (deps r x).
Proof.
  intros Hx. unfold cnt. assert (Hcl : forall d, d ∈ deps r x -> d ∈ N) by (intros; by apply (HNclosed x)).
  revert Hcl.
  generalize (deps r x). intros ds Hcl. induction ds as [|d ds IH]; [done|].
  rewrite filter_cons_True by (apply Hcl; left). cbn. f_equal.
  apply IH. intros d' Hd'. apply Hcl. by right.
Qed.

Lemma popped_lt l x d :
  NoDup l -> x ∈ N -> d ∈ deps r x -> d ∉ l -> popped l x < cnt x.
Proof.
  intros Hl Hx Hd Hdl. rewrite cnt_full by done. unfold popped.
  apply (nodup_sub_lt _ _ d); [by apply NoDup_filter| |done|].
  - intros y Hy. by apply list_elem_of_filter in Hy as [? _].
  - intros Hy. by apply list_elem_of_filter in Hy as [_ ?].
Qed.

Lemma popped_le_dedup l x :
  NoDup l -> popped l x <= length (remove_dups (deps r x)).
Proof.
  intros Hl. unfold popped. apply nodup_sub_le; [by apply NoDup_filter|].
  intros y Hy. apply list_elem_of_filter in Hy as [? _]. by apply elem_of_remove_dups.
Qed.

Lemma popped_all l x d :
  NoDup l -> x ∈ N -> popped l x = cnt x -> d ∈ deps r x -> d ∈ l.
Proof.
  intros Hl Hx Heq Hd. destruct (decide (d ∈ l)) as [|Hdl]; [done|].
  pose proof (popped_lt l x d Hl Hx Hd Hdl). lia.
Qed.

Lemma popped_snoc l c x :
  popped (l ++ [c]) x = popped l x + (if decide (c ∈ deps r x) then 1 else 0).
Proof.
  unfold popped. rewrite filter_app, length_app, filter_cons.
  by destruct (decide (c ∈ deps r x)).
Qed.

(** The invariant of the [for len(queue) > 0] loop. *)
Record kinv (deg : gmap string Z) (q sorted : list string) : Prop := {
  ki_nodup : NoDup (sorted ++ q);
  ki_sub : forall x, x ∈ sorted ++ q -> x ∈ N;
  ki_deg : forall x, x ∈ N ->
    deg !! x = Some (Z.of_nat (cnt x) - Z.of_nat (popped sorted x))%Z;
  ki_ready : forall x, x ∈ N -> (x ∈ sorted ++ q <-> popped sorted x = cnt x);
  ki_topo : topo r sorted
}.

Lemma kinv_init (deg : gmap string Z) :
  (forall x, x ∈ N -> deg !! x = Some (Z.of_nat (cnt x))) ->
  kinv deg (seed r N deg) [].
Proof.
  intros Hdeg. destruct Hwf as (Hnd & _ & _). split; cbn.
  - by apply NoDup_filter.
  - intros x Hx. by apply list_elem_of_filter in Hx as [[? _] _].
  - intros x Hx. rewrite Hdeg by done. unfold popped. cbn. f_equal. lia.
  - intros x Hx. unfold seed, popped. cbn. rewrite list_elem_of_filter.
    unfold get. rewrite Hdeg by done. cbn. split.
    + intros [[_ H0] _]. lia.
    + intros H0. split; [split; [done|lia]|]. by apply N_in_order.
  - intros i x Hi. by rewrite lookup_nil in Hi.
Qed.

Lemma kinv_get deg q sorted x :
  kinv deg q sorted -> x ∈ N ->
  get deg x = (Z.of_nat (cnt x) - Z.of_nat (popped sorted x))%Z.
Proof. intros Hk Hx. unfold get. by rewrite (ki_deg _ _ _ Hk x Hx). Qed.

(** A module already sorted or queued is not a dependent of the popped one. *)
Lemma kinv_no_back_edge deg cur q sorted x :
  kinv deg (cur :: q) sorted -> x ∈ N -> x ∈ sorted ++ cur :: q -> cur ∉ deps r x.
Proof.
  intros Hk Hx Hin Hc.
  pose proof (ki_nodup _ _ _ Hk) as Hnd. apply NoDup_app in Hnd as (Hs & Hdisj & _).
  assert (Hcur : cur ∉ sorted) by (intros Hc'; apply (Hdisj cur Hc'); left).
  apply (ki_ready _ _ _ Hk x Hx) in Hin.
  pose proof (popped_lt sorted x cur Hs Hx Hc Hcur). lia.
Qed.

(** One iteration of the loop: pop [cur], append it, release its dependents. *)
Lemma kinv_step deg cur q sorted :
  kinv deg (cur :: q) sorted ->
  kinv (release r N cur (deg, q)).1 (release r N cur (deg, q)).2 (sorted ++ [cur]).
Proof.
  intros Hk. destruct (release_spec cur deg q) as (deg' & Hrel & Hlk).
  rewrite Hrel. cbn [fst snd].
  set (F := filter (fun x => x ∈ N /\ cur ∈ deps r x /\ (get deg x - 1)%Z = 0%Z) (order r)).
  pose proof (ki_nodup _ _ _ Hk) as Hnd.
  pose proof (ki_sub _ _ _ Hk) as Hsub.
  assert (HcurN : cur ∈ N) by (apply Hsub; apply elem_of_app; right; left).
  assert (HF : forall x, x ∈ F <-> x ∈ N /\ cur ∈ deps r x /\
                                   popped sorted x + 1 = cnt x).
  { intros x. unfold F. rewrite list_elem_of_filter. split.
    - intros [(HxN & Hc & H0) _]. rewrite (kinv_get _ _ _ _ Hk HxN) in H0.
      repeat split; try done. lia.
    - intros (HxN & Hc & H1). split; [|by apply N_in_order].
      repeat split; try done. rewrite (kinv_get _ _ _ _ Hk HxN). lia. }
  assert (Happ : (sorted ++ [cur]) ++ q ++ F = (sorted ++ cur :: q) ++ F)
    by (by rewrite <- !app_assoc).
  split.
  - rewrite Happ. apply NoDup_app. split_and!; [done| |].
    + intros x Hx HxF. apply HF in HxF as (HxN & Hc & _).
      by apply (kinv_no_back_edge deg cur q sorted x Hk HxN Hx).
    + apply NoDup_filter. apply Hwf.
  - rewrite Happ. intros x Hx. apply elem_of_app in Hx as [Hx|Hx]; [by apply Hsub|].
    by apply HF in Hx as [? _].
  - intros x HxN. rewrite Hlk, popped_snoc.
    destruct (decide (x ∈ order r /\ x ∈ N /\ cur ∈ deps r x)) as [(_ & _ & Hc)|Hn].
    + rewrite (kinv_get _ _ _ _ Hk HxN). rewrite decide_True by done. f_equal. lia.
    + rewrite (ki_deg _ _ _ Hk x HxN). rewrite decide_False.
      * f_equal. lia.
      * intros Hc. apply Hn. split_and!; [by apply N_in_order|done|done].
  - intros x HxN. rewrite Happ, elem_of_app, HF, popped_snoc.
    pose proof (ki_ready _ _ _ Hk x HxN) as Hr. split.
    + intros [Hx|(_ & Hc & H1)].
      * rewrite decide_False by (by apply (kinv_no_back_edge deg cur q sorted x Hk HxN Hx)).
        apply Hr in Hx. lia.
      * rewrite decide_True by done. lia.
    + destruct (decide (cur ∈ deps r x)) as [Hc|Hc]; intros Heq.
      * right. split_and!; [done|done|lia].
      * left. apply Hr. lia.
  - intros i y Hi d Hd. apply lookup_snoc_Some in Hi as [[Hlt Hi]|[-> <-]].
    + destruct (ki_topo _ _ _ Hk i y Hi d Hd) as (j & Hj & Hjd).
      exists j. split; [done|]. apply lookup_app_l_Some. done.
    + assert (Hds : d ∈ sorted).
      { apply (popped_all sorted cur d); [|done| |done].
        - apply NoDup_app in Hnd as [? _]. done.
        - apply (ki_ready _ _ _ Hk cur HcurN). apply elem_of_app. right. left. }
      apply list_elem_of_lookup in Hds as [j Hj]. exists j. split.
      * by eapply lookup_lt_Some.
      * by apply lookup_app_l_Some.
Qed.

Lemma kinv_length deg q sorted :
  kinv deg q sorted -> length (sorted ++ q) <= length (order r).
Proof.
  intros Hk. apply nodup_sub_le; [apply (ki_nodup _ _ _ Hk)|].
  intros x Hx. by apply N_in_order, (ki_sub _ _ _ Hk).
Qed.

(** With enough fuel the loop runs until the queue is empty; the invariant
    holds at the end and [sorted] only grows. *)
Lemma kahn_spec fuel deg q sorted :
  kinv deg q sorted -> length (order r) < fuel + length sorted ->
  exists deg' sorted',
    kahn r N fuel deg q sorted = (deg', [], sorted ++ sorted') /\
    kinv deg' [] (sorted ++ sorted').
Proof.
  revert deg q sorted. induction fuel as [|fuel IH]; intros deg q sorted Hk Hf.
  - pose proof (kinv_length _ _ _ Hk). rewrite length_app in *. lia.
  - destruct q as [|cur q]; cbn.
    + exists deg, []. rewrite app_nil_r. by split.
    + pose proof (kinv_step _ _ _ _ Hk) as Hk'.
      destruct (IH _ _ _ Hk') as (deg' & sorted' & Heq & Hk'').
      { rewrite length_app. cbn. lia. }
      exists deg', (cur :: sorted'). rewrite <- app_assoc in Heq, Hk''. cbn in Heq, Hk''.
      by split.
Qed.

End KahnFacts.

(* ------------------------------------------------------------------ *)
(** ** Cycles from stuck modules (pigeonhole) *)

Fixpoint path (R : string -> string -> Prop) (l : list string) : Prop :=
  match l with
  | a :: ((b :: _) as l') => R a b /\ path R l'
  | _ => True
  end.

Lemma path_suffix R l1 l2 : path R (l1 ++ l2) -> path R l2.
Proof.
  induction l1 as [|a l1 IH]; [done|]. intros Hp. apply IH.
  destruct l1 as [|b l1]; cbn in Hp.
  - destruct l2; [done|]. by destruct Hp.
  - by destruct Hp.
Qed.

Lemma path_tc R a l b k : path R (a :: l ++ b :: k) -> tc R a b.
Proof.
  revert a. induction l as [|c l IH]; intros a Hp; cbn in Hp.
  - destruct Hp as [Hab _]. by apply tc_once.
  - destruct Hp as [Hac Hp]. eapply tc_l; [exact Hac|]. by apply IH.
Qed.

Lemma not_NoDup_split {A} `{EqDecision A} (l : list A) :
  ~ NoDup l -> exists l1 x l2 l3, l = l1 ++ x :: l2 ++ x :: l3.
Proof.
  induction l as [|a l IH]; intros Hnd; [by destruct Hnd; constructor|].
  destruct (decide (a ∈ l)) as [Ha|Ha].
  - apply list_elem_of_split in Ha as (l2 & l3 & ->). by exists [], a, l2, l3.
  - destruct IH as (l1 & x & l2 & l3 & ->).
    + intros Hl. apply Hnd. by constructor.
    + by exists (a :: l1), x, l2, l3.
Qed.

Lemma walk (R : string -> string -> Prop) (P : string -> Prop) :
  (forall x, P x -> exists y, P y /\ R x y) ->
  forall n x, P x -> exists w, length w = n /\ path R (x :: w) /\ forall y, y ∈ w -> P y.
Proof.
  intros Hstep n. induction n as [|n IH]; intros x Hx.
  - exists []. split_and!; [done|done|]. intros y Hy. by apply not_elem_of_nil in Hy.
  - destruct (Hstep x Hx) as (y & Hy & Hxy). destruct (IH y Hy) as (w & Hlen & Hp & Hw).
    exists (y :: w). split_and!; [cbn; lia|by split|].
    intros z Hz. apply elem_of_cons in Hz as [->|]; [done|by apply Hw].
Qed.

(** In a finite set where every element has a successor, some element lies
    on a cycle. *)
Lemma stuck_cycle (R : string -> string -> Prop) (P : string -> Prop) (N : gset string) :
  (forall x, P x -> x ∈ N) -> (forall x, P x -> exists y, P y /\ R x y) ->
  forall x, P x -> exists z, P z /\ tc R z z.
Proof.
  intros HN Hstep x Hx. destruct (walk R P Hstep (size N) x Hx) as (w & Hlen & Hp & Hw).
  assert (HPw : forall y, y ∈ x :: w -> P y)
    by (intros y Hy; apply elem_of_cons in Hy as [->|]; [done|by apply Hw]).
  destruct (not_NoDup_split (x :: w)) as (l1 & z & l2 & l3 & Heq).
  - intros Hnd. pose proof (nodup_sub_le (x :: w) (elements N) Hnd) as Hle.
    cbn in Hle. unfold size, set_size in Hlen. cbn in Hlen.
    assert (S (length w) <= length (elements N)); [|lia].
    apply Hle. intros y Hy. apply elem_of_elements, HN, HPw, Hy.
  - exists z. split.
    + apply HPw. rewrite Heq. apply elem_of_app. right. left.
    + rewrite Heq in Hp. apply path_suffix in Hp. by apply path_tc in Hp.
Qed.

(* ------------------------------------------------------------------ *)
(** ** What [ResolveDeps] returns *)

Section ResolveFacts.
Variable r : Registry.
Hypothesis Hwf : reg_wf r.

Lemma edge_deps x y : edge r x y <-> is_Some (modules r !! x) /\ y ∈ deps r x.
Proof.
  unfold edge, deps. split.
  - intros (m & Hm & Hy). rewrite Hm. split; [by eexists|done].
  - intros [[m Hm] Hy]. rewrite Hm in Hy. by exists m.
Qed.

Lemma sorted_complete (N : gset string) (l : list string) :
  NoDup l -> (forall x, x ∈ l -> x ∈ N) ->
  (length l = size N <-> forall x, x ∈ N -> x ∈ l).
Proof.
  intros Hnd Hsub. unfold size, set_size. cbn. split.
  - intros Hlen x Hx. destruct (decide (x ∈ l)) as [|Hxl]; [done|].
    pose proof (nodup_sub_lt l (elements N) x Hnd) as Hlt.
    assert (length l < length (elements N)); [|lia].
    apply Hlt; [|by apply elem_of_elements|done].
    intros y Hy. by apply elem_of_elements, Hsub.
  - intros Hall. apply Permutation_length, NoDup_Permutation;
      [done|apply NoDup_elements|].
    intros x. rewrite elem_of_elements. split; [apply Hsub|apply Hall].
Qed.

(** Once the needed set is collected, the run of the loop. *)
Lemma resolve_run (k1 k2 : gset string -> list string) ids N :
  (forall N, k1 N ≡ₚ elements N) -> (forall N, k2 N ≡ₚ elements N) ->
  collect_each (collect r (S (length (order r)))) ids ∅ = Ok N ->
  exists deg' sorted,
    kahn r N (S (length (order r))) (build_indegree r N (k1 N) (k2 N))
      (seed r N (build_indegree r N (k1 N) (k2 N))) [] = (deg', [], sorted) /\
    kinv r N deg' [] sorted /\
    ResolveDeps_with r k1 k2 ids =
      if bool_decide (length sorted = size N) then Ok sorted else Error ErrCycle.
Proof.
  intros Hk1 Hk2 Hrun.
  destruct (collect_ids_ok r Hwf ids N Hrun) as (_ & Hreg & Hcl).
  assert (Hinit : kinv r N (build_indegree r N (k1 N) (k2 N))
                    (seed r N (build_indegree r N (k1 N) (k2 N))) []).
  { apply kinv_init; [done|done|]. intros x Hx.
    rewrite (build_indegree_lookup r Hwf N Hreg Hcl); [|done|done].
    by rewrite decide_True. }
  destruct (kahn_spec r Hwf N Hreg Hcl (S (length (order r))) _ _ _ Hinit) as
    (deg' & sorted & Heq & Hk); [cbn; lia|].
  exists deg', sorted. split_and!; [done|done|].
  unfold ResolveDeps_with. rewrite Hrun. by rewrite Heq.
Qed.

Lemma topo_index l i x y :
  topo r l -> l !! i = Some x -> tc (edge r) x y -> exists j, j < i /\ l !! j = Some y.
Proof.
  intros Htopo Hi Hxy. revert i Hi. induction Hxy as [x y Hxy|x z y Hxz Hzy IH]; intros i Hi.
  - apply edge_deps in Hxy as [_ Hy]. by apply (Htopo i x).
  - apply edge_deps in Hxz as [_ Hz]. destruct (Htopo i x Hi z Hz) as (j & Hj & Hjz).
    destruct (IH j Hjz) as (k & Hk & Hky). exists k. split; [lia|done].
Qed.

(** No module of a topologically sorted list lies on a cycle. *)
Lemma topo_no_cycle l x : NoDup l -> topo r l -> x ∈ l -> ~ tc (edge r) x x.
Proof.
  intros Hnd Htopo Hx Hc. apply list_elem_of_lookup in Hx as [i Hi].
  destruct (topo_index l i x x Htopo Hi Hc) as (j & Hj & Hjx).
  pose proof (NoDup_lookup l i j x Hnd Hi Hjx). lia.
Qed.

(** A module listing a dependency twice never reaches in-degree zero. *)
Lemma dup_never_ready N deg q sorted x :
  (forall x, x ∈ N -> is_Some (modules r !! x)) ->
  (forall x d, x ∈ N -> d ∈ deps r x -> d ∈ N) ->
  kinv r N deg q sorted -> x ∈ N -> ~ NoDup (deps r x) -> x ∉ sorted ++ q.
Proof.
  intros Hreg Hcl Hk Hx Hdup Hin. apply (ki_ready r N _ _ _ Hk x Hx) in Hin.
  pose proof (ki_nodup r N _ _ _ Hk) as Hnd. apply NoDup_app in Hnd as [Hs _].
  pose proof (popped_le_dedup r sorted x Hs).
  pose proof (remove_dups_lt (deps r x) Hdup).
  rewrite (cnt_full r N Hcl x Hx) in Hin. lia.
Qed.

Lemma popped_full N l x :
  (forall x d, x ∈ N -> d ∈ deps r x -> d ∈ N) ->
  x ∈ N -> NoDup l -> NoDup (deps r x) -> (forall d, d ∈ deps r x -> d ∈ l) ->
  popped r l x = cnt r N x.
Proof.
  intros Hcl Hx Hl Hds Hall. rewrite (cnt_full r N Hcl x Hx). unfold popped.
  apply Permutation_length, NoDup_Permutation; [by apply NoDup_filter|done|].
  intros y. rewrite list_elem_of_filter. naive_solver.
Qed.

(** A module left out of the final order has a dependency left out too,
    unless it lists a dependency twice. *)
Lemma stuck_successor N deg sorted x :
  (forall x d, x ∈ N -> d ∈ deps r x -> d ∈ N) ->
  (forall x, x ∈ N -> is_Some (modules r !! x)) ->
  kinv r N deg [] sorted -> x ∈ N -> x ∉ sorted -> NoDup (deps r x) ->
  exists d, (d ∈ N /\ d ∉ sorted) /\ edge r x d.
Proof.
  intros Hcl Hreg Hk Hx Hxs Hds.
  destruct (filter (fun d => d ∉ sorted) (deps r x)) as [|d ds] eqn:Hf.
  - exfalso. apply Hxs. rewrite <- (app_nil_r sorted).
    apply (ki_ready r N _ _ _ Hk x Hx).
    pose proof (ki_nodup r N _ _ _ Hk) as Hnd. rewrite app_nil_r in Hnd.
    apply popped_full; [done|done|done|done|].
    intros d Hd. destruct (decide (d ∈ sorted)) as [|Hn]; [done|].
    assert (Hin : d ∈ filter (fun d => d ∉ sorted) (deps r x))
      by (apply list_elem_of_filter; by split).
    rewrite Hf in Hin. by apply not_elem_of_nil in Hin.
  - assert (Hin : d ∈ filter (fun d => d ∉ sorted) (deps r x)) by (rewrite Hf; left).
    apply list_elem_of_filter in Hin as [Hd Hdin]. exists d. split_and!.
    + by apply (Hcl x).
    + done.
    + apply edge_deps. split; [by apply Hreg|done].
Qed.

Section KeyOrders.
Variables k1 k2 : gset string -> list string.
Hypothesis Hk1 : forall N, k1 N ≡ₚ elements N.
Hypothesis Hk2 : forall N, k2 N ≡ₚ elements N.

Lemma resolve_collect_err ids e :
  collect_each (collect r (S (length (order r)))) ids ∅ = Error e ->
  ResolveDeps_with r k1 k2 ids = Error e.
Proof. intros Hrun. unfold ResolveDeps_with. by rewrite Hrun. Qed.

Lemma ResolveDeps_with_ok ids l :
  ResolveDeps_with r k1 k2 ids = Ok l ->
  NoDup l /\ (forall x, x ∈ l <-> reach r ids x) /\ topo r l.
Proof.
  destruct (collect_each (collect r (S (length (order r)))) ids ∅) as [N|e] eqn:Hrun.
  - destruct (collect_ids_ok r Hwf ids N Hrun) as (HN & _ & _).
    destruct (resolve_run k1 k2 ids N Hk1 Hk2 Hrun) as (deg' & sorted & _ & Hk & ->).
    case_bool_decide as Hlen; [|done]. intros [= <-].
    pose proof (ki_nodup r N _ _ _ Hk) as Hnd. rewrite app_nil_r in Hnd.
    assert (Hsub : forall x, x ∈ sorted -> x ∈ N)
      by (intros x Hx; apply (ki_sub r N _ _ _ Hk); by rewrite app_nil_r).
    pose proof (proj1 (sorted_complete N sorted Hnd Hsub) Hlen) as Hall.
    split_and!; [done| |apply (ki_topo r N _ _ _ Hk)].
    intros x. rewrite <- HN. split; [apply Hsub|apply Hall].
  - by rewrite (resolve_collect_err ids e Hrun).
Qed.

(** Every ID of a successful resolution is registered. *)
Lemma ResolveDeps_with_ok_registered ids l :
  ResolveDeps_with r k1 k2 ids = Ok l -> forall x, x ∈ l -> is_Some (modules r !! x).
Proof.
  destruct (collect_each (collect r (S (length (order r)))) ids ∅) as [N|e] eqn:Hrun.
  - destruct (collect_ids_ok r Hwf ids N Hrun) as (_ & HNreg & _).
    destruct (resolve_run k1 k2 ids N Hk1 Hk2 Hrun) as (deg' & sorted & _ & Hk & ->).
    case_bool_decide as Hlen; [|done]. intros [= <-] x Hx.
    apply HNreg, (ki_sub r N _ _ _ Hk). by rewrite app_nil_r.
  - by rewrite (resolve_collect_err ids e Hrun).
Qed.

Lemma ResolveDeps_with_err ids e :
  ResolveDeps_with r k1 k2 ids = Error e ->
  (exists z, e = ErrNotFound z /\ modules r !! z = None /\ reach r ids z) \/
  (e = ErrCycle /\ (forall x, reach r ids x -> is_Some (modules r !! x)) /\
   exists x, reach r ids x /\ (tc (edge r) x x \/ ~ NoDup (deps r x))).
Proof.
  destruct (collect_each (collect r (S (length (order r)))) ids ∅) as [N|e'] eqn:Hrun.
  - destruct (collect_ids_ok r Hwf ids N Hrun) as (HN & Hreg & Hcl).
    destruct (resolve_run k1 k2 ids N Hk1 Hk2 Hrun) as (deg' & sorted & _ & Hk & ->).
    case_bool_decide as Hlen; [done|]. intros [= <-]. right.
    split_and!; [done|intros x Hx; by apply Hreg, HN|].
    pose proof (ki_nodup r N _ _ _ Hk) as Hnd. rewrite app_nil_r in Hnd.
    assert (Hsub : forall x, x ∈ sorted -> x ∈ N)
      by (intros x Hx; apply (ki_sub r N _ _ _ Hk); by rewrite app_nil_r).
    assert (Hmiss : exists x, x ∈ N /\ x ∉ sorted).
    { destruct (filter (fun x => x ∉ sorted) (elements N)) as [|x xs] eqn:Hf.
      - exfalso. apply Hlen, (sorted_complete N sorted Hnd Hsub). intros x Hx.
        destruct (decide (x ∈ sorted)) as [|Hn]; [done|].
        assert (Hin : x ∈ filter (fun x => x ∉ sorted) (elements N))
          by (apply list_elem_of_filter; split; [done|by apply elem_of_elements]).
        rewrite Hf in Hin. by apply not_elem_of_nil in Hin.
      - assert (Hin : x ∈ filter (fun x => x ∉ sorted) (elements N)) by (rewrite Hf; left).
        apply list_elem_of_filter in Hin as [Hx HxN]. exists x.
        split; [by apply elem_of_elements|done]. }
    destruct (list_exist_dec (fun y => (y ∉ sorted) /\ (~ NoDup (deps r y))) (elements N) _)
      as [(y & Hy & _ & Hdup)|Hnone].
    + exists y. split; [by apply HN, elem_of_elements|by right].
    + destruct Hmiss as (x & HxN & Hxs).
      destruct (stuck_cycle (edge r) (fun y => y ∈ N /\ y ∉ sorted) N) with x
        as (z & [HzN _] & Hz).
      * by intros y [? _].
      * intros y [HyN Hys]. apply (stuck_successor N deg' sorted y); try done.
        destruct (decide (NoDup (deps r y))) as [|Hd]; [done|].
        exfalso. apply Hnone. exists y. split; [by apply elem_of_elements|done].
      * done.
      * exists z. split; [by apply HN|by left].
  - intros Heq. rewrite (resolve_collect_err ids e' Hrun) in Heq. injection Heq as <-.
    left. by apply (collect_ids_err r Hwf ids e').
Qed.

Lemma ResolveDeps_with_stuck ids :
  (forall x, reach r ids x -> is_Some (modules r !! x)) ->
  (exists x, reach r ids x /\ (tc (edge r) x x \/ ~ NoDup (deps r x))) ->
  ResolveDeps_with r k1 k2 ids = Error ErrCycle.
Proof.
  intros Hall (x & Hx & Hbad).
  destruct (collect_ids_total r Hwf ids Hall) as [N Hrun].
  destruct (collect_ids_ok r Hwf ids N Hrun) as (HN & Hreg & Hcl).
  destruct (resolve_run k1 k2 ids N Hk1 Hk2 Hrun) as (deg' & sorted & _ & Hk & ->).
  pose proof (ki_nodup r N _ _ _ Hk) as Hnd. rewrite app_nil_r in Hnd.
  assert (Hsub : forall x, x ∈ sorted -> x ∈ N)
    by (intros y Hy; apply (ki_sub r N _ _ _ Hk); by rewrite app_nil_r).
  apply HN in Hx.
  assert (Hxs : x ∉ sorted).
  { destruct Hbad as [Hc|Hdup].
    - intros Hxs. by apply (topo_no_cycle sorted x Hnd (ki_topo r N _ _ _ Hk) Hxs).
    - rewrite <- (app_nil_r sorted). by apply (dup_never_ready N deg' [] sorted x). }
  case_bool_decide as Hlen; [|done].
  exfalso. apply Hxs. by apply (sorted_complete N sorted Hnd Hsub).
Qed.

Lemma ResolveDeps_with_missing ids :
  (exists z, reach r ids z /\ modules r !! z = None) ->
  exists z, ResolveDeps_with r k1 k2 ids = Error (ErrNotFound z) /\
            modules r !! z = None /\ reach r ids z.
Proof.
  intros (z & Hz & Hnone).
  destruct (collect_each (collect r (S (length (order r)))) ids ∅) as [N|e] eqn:Hrun.
  - destruct (collect_ids_ok r Hwf ids N Hrun) as (HN & Hreg & _).
    apply HN, Hreg in Hz. rewrite Hnone in Hz. by destruct Hz.
  - destruct (collect_ids_err r Hwf ids e Hrun) as (z' & -> & Hz' & Hr).
    exists z'. split_and!; [by apply resolve_collect_err|done|done].
Qed.

(** Go's map iteration order does not matter. *)
Lemma ResolveDeps_with_eq ids : ResolveDeps_with r k1 k2 ids = ResolveDeps r ids.
Proof.
  unfold ResolveDeps, ResolveDeps_with.
  destruct (collect_each (collect r (S (length (order r)))) ids ∅) as [N|e] eqn:Hrun;
    [|done].
  destruct (collect_ids_ok r Hwf ids N Hrun) as (_ & Hreg & Hcl).
  assert (Hdeg : build_indegree r N (k1 N) (k2 N) =
                 build_indegree r N (elements N) (elements N)).
  { apply map_eq. intros x.
    rewrite !(build_indegree_lookup r Hwf N Hreg Hcl); done. }
  by rewrite Hdeg.
Qed.

End KeyOrders.

End ResolveFacts.

(* ------------------------------------------------------------------ *)
(** ** The order of the ready queue *)

Lemma index_of_app x l1 l2 : x ∈ l1 -> index_of x (l1 ++ l2) = index_of x l1.
Proof.
  induction l1 as [|y l1 IH]; intros Hx; [by apply not_elem_of_nil in Hx|cbn].
  case_decide; [done|]. apply elem_of_cons in Hx as [->|Hx]; [done|]. by rewrite IH.
Qed.

Lemma index_of_lt x l : x ∈ l -> index_of x l < length l.
Proof.
  induction l as [|y l IH]; intros Hx; [by apply not_elem_of_nil in Hx|cbn].
  case_decide; [lia|]. apply elem_of_cons in Hx as [->|Hx]; [done|].
  specialize (IH Hx). lia.
Qed.

Lemma index_of_last x l : x ∉ l -> index_of x (l ++ [x]) = length l.
Proof.
  induction l as [|y l IH]; intros Hx; cbn; [by rewrite decide_True|].
  rewrite decide_False by (intros ->; apply Hx; left).
  rewrite IH; [done|]. intros Hx'. apply Hx. by right.
Qed.

Lemma index_of_cons_ne x a l : x <> a -> index_of x (a :: l) = S (index_of x l).
Proof. intros Hne. cbn. by rewrite decide_False. Qed.

Lemma ready_at_le r l x n :
  ready_at r l x <= n <-> forall d, d ∈ deps r x -> S (index_of d l) <= n.
Proof.
  unfold ready_at. induction (deps r x) as [|d ds IH]; cbn.
  - split; [intros _ d Hd; by apply not_elem_of_nil in Hd|lia].
  - rewrite Nat.max_lub_iff, IH. split.
    + intros [Hd Hds] d' Hd'. apply elem_of_cons in Hd' as [->|]; [done|by apply Hds].
    + intros Hall. split; [apply Hall; left|intros d' Hd'; apply Hall; by right].
Qed.

Lemma ready_at_ge r l x d : d ∈ deps r x -> S (index_of d l) <= ready_at r l x.
Proof. intros Hd. by apply (proj1 (ready_at_le r l x _) (le_n _)). Qed.

Lemma ready_at_app r l1 l2 x :
  (forall d, d ∈ deps r x -> d ∈ l1) -> ready_at r (l1 ++ l2) x = ready_at r l1 x.
Proof.
  unfold ready_at. induction (deps r x) as [|d ds IH]; intros Hall; cbn; [done|].
  rewrite index_of_app by (apply Hall; left). rewrite IH; [done|].
  intros d' Hd'. apply Hall. by right.
Qed.

Lemma StronglySorted_weaken {A} (R R' : A -> A -> Prop) (l : list A) :
  (forall x y, x ∈ l -> y ∈ l -> R x y -> R' x y) ->
  StronglySorted R l -> StronglySorted R' l.
Proof.
  induction l as [|a l IH]; intros Himp Hs; [constructor|].
  apply StronglySorted_cons in Hs as [Hf Hs]. apply StronglySorted_cons. split.
  - apply Forall_forall. intros y Hy. apply Himp; [left|by right|].
    by apply (proj1 (Forall_forall _ _) Hf).
  - apply IH; [|done]. intros x y Hx Hy. apply Himp; by right.
Qed.

Lemma StronglySorted_filter {A} (R : A -> A -> Prop) (P : A -> Prop)
    `{!forall x, Decision (P x)} (l : list A) :
  StronglySorted R l -> StronglySorted R (filter P l).
Proof.
  induction l as [|a l IH]; intros Hs; [constructor|].
  apply StronglySorted_cons in Hs as [Hf Hs]. rewrite filter_cons.
  case_decide; [|by apply IH]. apply StronglySorted_cons. split; [|by apply IH].
  apply Forall_forall. intros y Hy. apply list_elem_of_filter in Hy as [_ Hy].
  by apply (proj1 (Forall_forall _ _) Hf).
Qed.

(** A list without duplicates is sorted by position. *)
Lemma StronglySorted_index_of l :
  NoDup l -> StronglySorted (fun x y => index_of x l < index_of y l) l.
Proof.
  induction l as [|a l IH]; intros Hnd; [constructor|].
  apply NoDup_cons in Hnd as [Ha Hnd]. apply StronglySorted_cons. split.
  - apply Forall_forall. intros y Hy. cbn. rewrite decide_True by done.
    rewrite decide_False by (intros ->; done). lia.
  - apply (StronglySorted_weaken (fun x y => index_of x l < index_of y l)); [|by apply IH].
    intros x y Hx Hy Hlt. cbn.
    rewrite !decide_False by (intros ->; done). lia.
Qed.

Section FifoFacts.
Variable r : Registry.
Hypothesis Hwf : reg_wf r.
Variable N : gset string.
Hypothesis HNreg : forall x, x ∈ N -> is_Some (modules r !! x).
Hypothesis HNclosed : forall x d, x ∈ N -> d ∈ deps r x -> d ∈ N.

(** Modules sorted or queued have all their dependencies sorted. *)
Lemma kinv_deps_sorted deg q sorted x :
  kinv r N deg q sorted -> x ∈ sorted ++ q -> forall d, d ∈ deps r x -> d ∈ sorted.
Proof.
  intros Hk Hx d Hd. pose proof (ki_sub r N _ _ _ Hk x Hx) as HxN.
  pose proof (ki_nodup r N _ _ _ Hk) as Hnd. apply NoDup_app in Hnd as [Hs _].
  apply (popped_all r N HNclosed sorted x d Hs HxN); [|done].
  by apply (ki_ready r N _ _ _ Hk x HxN).
Qed.

Lemma kinv_ready_at deg q sorted x :
  kinv r N deg q sorted -> x ∈ sorted ++ q -> ready_at r sorted x <= length sorted.
Proof.
  intros Hk Hx. apply ready_at_le. intros d Hd.
  apply index_of_lt, (kinv_deps_sorted deg q sorted x Hk Hx d Hd).
Qed.

Lemma fifo_step deg cur q sorted :
  kinv r N deg (cur :: q) sorted ->
  StronglySorted (key_lt r sorted) (sorted ++ cur :: q) ->
  StronglySorted (key_lt r (sorted ++ [cur]))
    ((sorted ++ [cur]) ++ (release r N cur (deg, q)).2).
Proof.
  intros Hk Hs. pose proof (kinv_step r Hwf N HNreg HNclosed _ _ _ _ Hk) as Hk'.
  destruct (release_spec r Hwf N HNreg HNclosed cur deg q) as (deg' & Hrel & _).
  rewrite Hrel in Hk' |- *. cbn [snd] in Hk' |- *.
  set (F := filter (fun x => x ∈ N /\ cur ∈ deps r x /\ (get deg x - 1)%Z = 0%Z) (order r))
    in Hk' |- *.
  assert (Hcur : cur ∉ sorted).
  { pose proof (ki_nodup r N _ _ _ Hk) as Hnd. apply NoDup_app in Hnd as (_ & Hd & _).
    intros Hc. apply (Hd cur Hc). left. }
  assert (Hold : forall x, x ∈ sorted ++ cur :: q ->
            ready_at r (sorted ++ [cur]) x = ready_at r sorted x /\
            ready_at r sorted x <= length sorted).
  { intros x Hx. split.
    - apply ready_at_app, (kinv_deps_sorted deg (cur :: q) sorted x Hk Hx).
    - apply (kinv_ready_at deg (cur :: q) sorted x Hk Hx). }
  assert (HF : forall x, x ∈ F -> ready_at r (sorted ++ [cur]) x = S (length sorted)).
  { intros x Hx. apply Nat.le_antisymm.
    - pose proof (kinv_ready_at _ _ _ x Hk') as Hb. rewrite length_app in Hb. cbn in Hb.
      rewrite Nat.add_1_r in Hb. apply Hb. rewrite !elem_of_app. by right; right.
    - unfold F in Hx. apply list_elem_of_filter in Hx as [(_ & Hc & _) _].
      rewrite <- (index_of_last cur sorted Hcur). by apply ready_at_ge. }
  assert (Happ : (sorted ++ [cur]) ++ q ++ F = (sorted ++ cur :: q) ++ F)
    by (by rewrite <- !app_assoc).
  rewrite Happ. apply StronglySorted_app_2.
  - intros x1 x2 Hx1 Hx2. left. rewrite (HF x2 Hx2).
    destruct (Hold x1 Hx1) as [-> ?]. lia.
  - apply (StronglySorted_weaken (key_lt r sorted)); [|done].
    intros x y Hx Hy. unfold key_lt.
    destruct (Hold x Hx) as [-> _], (Hold y Hy) as [-> _]. done.
  - apply (StronglySorted_weaken (fun x y => index_of x (order r) < index_of y (order r))).
    + intros x y Hx Hy Hlt. right. by rewrite (HF x Hx), (HF y Hy).
    + apply StronglySorted_filter, StronglySorted_index_of, Hwf.
Qed.

Lemma fifo_kahn fuel deg q sorted :
  kinv r N deg q sorted -> StronglySorted (key_lt r sorted) (sorted ++ q) ->
  length (order r) < fuel + length sorted ->
  forall deg' q' sorted', kahn r N fuel deg q sorted = (deg', q', sorted') ->
  StronglySorted (key_lt r sorted') sorted'.
Proof.
  revert deg q sorted. induction fuel as [|fuel IH]; intros deg q sorted Hk Hs Hf.
  - pose proof (kinv_length r Hwf N HNreg _ _ _ Hk). rewrite length_app in *. lia.
  - intros deg' q' sorted'. destruct q as [|cur q]; cbn.
    + intros [= _ _ <-]. by rewrite app_nil_r in Hs.
    + apply IH.
      * by apply kinv_step.
      * by apply fifo_step.
      * rewrite length_app. cbn. lia.
Qed.

Lemma fifo_init (deg : gmap string Z) :
  (forall x, x ∈ N -> deg !! x = Some (Z.of_nat (cnt r N x))) ->
  StronglySorted (key_lt r []) (seed r N deg).
Proof.
  intros Hdeg. pose proof (kinv_init r Hwf N HNreg deg Hdeg) as Hk.
  apply (StronglySorted_weaken (fun x y => index_of x (order r) < index_of y (order r))).
  - intros x y Hx Hy Hlt. right. split; [|done].
    pose proof (kinv_ready_at _ _ _ x Hk Hx). pose proof (kinv_ready_at _ _ _ y Hk Hy).
    cbn in *. lia.
  - apply StronglySorted_filter, StronglySorted_index_of, Hwf.
Qed.

End FifoFacts.

Lemma ResolveDeps_with_fifo r (k1 k2 : gset string -> list string) ids l :
  reg_wf r -> (forall N, k1 N ≡ₚ elements N) -> (forall N, k2 N ≡ₚ elements N) ->
  ResolveDeps_with r k1 k2 ids = Ok l -> StronglySorted (key_lt r l) l.
Proof.
  intros Hwf Hk1 Hk2.
  destruct (collect_each (collect r (S (length (order r)))) ids ∅) as [N|e] eqn:Hrun.
  - destruct (collect_ids_ok r Hwf ids N Hrun) as (_ & Hreg & Hcl).
    destruct (resolve_run r Hwf k1 k2 ids N Hk1 Hk2 Hrun) as (deg' & sorted & Heq & _ & ->).
    case_bool_decide; [|done]. intros [= <-].
    refine (fifo_kahn r Hwf N Hreg Hcl _ _ _ [] _ _ _ _ _ _ Heq).
    + apply (kinv_init r Hwf N Hreg). intros x Hx.
      rewrite (build_indegree_lookup r Hwf N Hreg Hcl _ _ (Hk1 N) (Hk2 N) x).
      by rewrite decide_True.
    + apply (fifo_init r Hwf N Hreg Hcl). intros x Hx.
      rewrite (build_indegree_lookup r Hwf N Hreg Hcl _ _ (Hk1 N) (Hk2 N) x).
      by rewrite decide_True.
    + cbn. lia.
  - by rewrite (resolve_collect_err r k1 k2 ids e Hrun).
Qed.

(* ------------------------------------------------------------------ *)
(** ** Runner: external calls as a free monad *)

Record ModuleResult := {
  ModuleID : string;
  Completed : nat;    (** steps that ran successfully *)
  Skipped : nat;      (** steps whose Check returned true *)
  Total : nat;
  FailedStep : string;
  Err : option error
}.

(** Messages of the bridge ([tea.Msg] values). *)
Inductive Msg : Type :=
  | StepStartMsg (modid stepname explain : string) (index total : nat)
  | StepDoneMsg (modid stepname : string) (index total : nat) (skipped : bool)
  | StepErrorMsg (modid stepname : string) (index total : nat) (err : error)
  | ModuleStartMsg (modid name : string) (steps : list Step)
  | AllDoneMsg (results : list ModuleResult)
  | RunErrorMsg (err : error).

(** External calls: the closures of step [i] of module [modid], two opaque
    hooks (used to observe [preCallback] and [callback] when they are
    arbitrary code), and a bridge [send]. *)
Inductive Ev : Type :=
  | ECheck (modid : string) (i : nat)
  | ERun (modid : string) (i : nat)
  | EDryRun (modid : string) (i : nat)
  | EPre (modid : string) (i total : nat)
  | EPost (modid : string) (i total : nat) (skipped : bool) (err : option error)
  | ESend (msg : Msg).

(** What each call returns: [Check] a bool, [Run] an error or nil, [DryRun] a
    description, [send] whether the message went into the channel. *)
Definition Ans (e : Ev) : Type :=
  match e with
  | ECheck _ _ => bool
  | ERun _ _ => option error
  | EDryRun _ _ => string
  | EPre _ _ _ | EPost _ _ _ _ _ => unit
  | ESend _ => bool
  end.

Inductive Prog (A : Type) : Type :=
  | Ret (a : A)
  | Vis (e : Ev) (k : Ans e -> Prog A).
Arguments Ret {A} a.
Arguments Vis {A} e k.

Fixpoint bind {A B} (p : Prog A) (f : A -> Prog B) : Prog B :=
  match p with
  | Ret a => f a
  | Vis e k => Vis e (fun x => bind (k x) f)
  end.

Notation "x <-- p ;; q" := (bind p (fun x => q))
  (at level 100, p at next level, right associativity).

Definition call (e : Ev) : Prog (Ans e) := Vis e Ret.

(** A call together with its answer, as recorded in a trace. *)
Inductive Obs : Type :=
  | OCheck (modid : string) (i : nat) (b : bool)
  | ORun (modid : string) (i : nat) (r : option error)
  | ODryRun (modid : string) (i : nat) (desc : string)
  | OPre (modid : string) (i total : nat)
  | OPost (modid : string) (i total : nat) (skipped : bool) (err : option error)
  | OSend (msg : Msg) (ok : bool).

Definition obs (e : Ev) : Ans e -> Obs :=
  match e return Ans e -> Obs with
  | ECheck m i => fun b => OCheck m i b
  | ERun m i => fun r => ORun m i r
  | EDryRun m i => fun d => ODryRun m i d
  | EPre m i t => fun _ => OPre m i t
  | EPost m i t s er => fun _ => OPost m i t s er
  | ESend msg => fun ok => OSend msg ok
  end.

(** An environment answering each call, possibly depending on everything
    observed before. *)
Definition Oracle : Type := list Obs -> forall e : Ev, Ans e.

Fixpoint interp {A} (h : Oracle) (p : Prog A) (tr : list Obs) : A * list Obs :=
  match p with
  | Ret a => (a, tr)
  | Vis e k => let a := h tr e in interp h (k a) (tr ++ [obs e a])
  end.

(** [Runner]; the logger is not modelled. *)
Record Runner := {
  dryRun : bool;
  callback : option (Mod -> Step -> nat -> nat -> bool -> option error -> Prog unit);
  preCallback : option (Mod -> Step -> nat -> nat -> Prog unit)
}.

Definition run_pre (rn : Runner) (m : Mod) (st : Step) (i total : nat) : Prog unit :=
  match preCallback rn with Some f => f m st i total | None => Ret tt end.

Definition run_post (rn : Runner) (m : Mod) (st : Step) (i total : nat)
    (skipped : bool) (err : option error) : Prog unit :=
  match callback rn with Some f => f m st i total skipped err | None => Ret tt end.

Definition skip_one (res : ModuleResult) : ModuleResult :=
  {| ModuleID := ModuleID res; Completed := Completed res; Skipped := S (Skipped res);
     Total := Total res; FailedStep := FailedStep res; Err := Err res |}.

Definition complete_one (res : ModuleResult) : ModuleResult :=
  {| ModuleID := ModuleID res; Completed := S (Completed res); Skipped := Skipped res;
     Total := Total res; FailedStep := FailedStep res; Err := Err res |}.

Definition fail_at (res : ModuleResult) (st : Step) (modid : string) (e : error)
    : ModuleResult :=
  {| ModuleID := ModuleID res; Completed := Completed res; Skipped := Skipped res;
     Total := Total res; FailedStep := Name st;
     Err := Some (ErrStepFailed (Name st) modid e) |}.

(** The [for i := range mod.Steps] loop of [RunModule], from step [i]. *)
Fixpoint run_steps (rn : Runner) (m : Mod) (i : nat) (steps : list Step)
    (res : ModuleResult) : Prog ModuleResult :=
  match steps with
  | [] => Ret res
  | st :: rest =>
      _ <-- run_pre rn m st i (Total res);;
      chk <-- (if HasCheck st then call (ECheck (ID m) i) else Ret false);;
      if chk then
        _ <-- run_post rn m st i (Total res) true None;;
        run_steps rn m (S i) rest (skip_one res)
      else if dryRun rn then
        _ <-- (if HasDryRun st then _ <-- call (EDryRun (ID m) i);; Ret tt else Ret tt);;
        _ <-- run_post rn m st i (Total res) true None;;
        run_steps rn m (S i) rest res
      else
        err <-- call (ERun (ID m) i);;
        match err with
        | Some e =>
            _ <-- run_post rn m st i (Total res) false (Some e);;
            Ret (fail_at res st (ID m) e)
        | None =>
            _ <-- run_post rn m st i (Total res) false None;;
            run_steps rn m (S i) rest (complete_one res)
        end
  end.

Definition RunModule (rn : Runner) (m : Mod) : Prog ModuleResult :=
  run_steps rn m 0 (Steps m)
    {| ModuleID := ID m; Completed := 0; Skipped := 0; Total := length (Steps m);
       FailedStep := ""; Err := None |}.

(** The [for _, id := range sorted] loop of [RunModules]. *)
Fixpoint run_modules (rn : Runner) (r : Registry) (ids : list string)
    (results : list ModuleResult) : Prog (list ModuleResult * option error) :=
  match ids with
  | [] => Ret (results, None)
  | id :: rest =>
      match Get r id with
      | None => Ret (results, Some (ErrNotFound id))
      | Some m =>
          res <-- RunModule rn m;;
          match Err res with
          | Some e => Ret (results ++ [res], Some e)
          | None => run_modules rn r rest (results ++ [res])
          end
      end
  end.

Definition RunModules (rn : Runner) (r : Registry) (ids : list string)
    : Prog (list ModuleResult * option error) :=
  match ResolveDeps r ids with
  | Error e => Ret ([], Some (ErrResolving e))
  | Ok sorted => run_modules rn r sorted []
  end.

(** A runner whose hooks are arbitrary code, observed as the [EPre] and
    [EPost] calls. *)
Definition traced (dry : bool) : Runner :=
  {| dryRun := dry;
     callback := Some (fun m st i total sk err => call (EPost (ID m) i total sk err));
     preCallback := Some (fun m st i total => call (EPre (ID m) i total)) |}.

(* ------------------------------------------------------------------ *)
(** ** Traces of [RunModule] *)

Lemma interp_bind {A B} (h : Oracle) (p : Prog A) (f : A -> Prog B) tr :
  interp h (bind p f) tr = let '(a, tr') := interp h p tr in interp h (f a) tr'.
Proof.
  revert tr. induction p as [a|e k IH]; intros tr; cbn; [done|]. apply IH.
Qed.

(** [Check] observed false, when the step has one. *)
Definition chk_false (st : Step) (modid : string) (i : nat) : list Obs :=
  if HasCheck st then [OCheck modid i false] else [].

(** The traces of the step loop of the [traced] runner, step by step. *)
Inductive exec_steps (dry : bool) (m : Mod) (total : nat)
    : nat -> list Step -> ModuleResult -> list Obs -> ModuleResult -> Prop :=
  | ES_nil i res : exec_steps dry m total i [] res [] res
  | ES_skip i st rest res tr res' :
      HasCheck st = true ->
      exec_steps dry m total (S i) rest (skip_one res) tr res' ->
      exec_steps dry m total i (st :: rest) res
        (OPre (ID m) i total :: OCheck (ID m) i true ::
         OPost (ID m) i total true None :: tr) res'
  | ES_dry i st rest res tr res' d :
      dry = true ->
      exec_steps dry m total (S i) rest res tr res' ->
      exec_steps dry m total i (st :: rest) res
        (OPre (ID m) i total :: chk_false st (ID m) i ++
         (if HasDryRun st then [ODryRun (ID m) i d] else []) ++
         OPost (ID m) i total true None :: tr) res'
  | ES_ok i st rest res tr res' :
      dry = false ->
      exec_steps dry m total (S i) rest (complete_one res) tr res' ->
      exec_steps dry m total i (st :: rest) res
        (OPre (ID m) i total :: chk_false st (ID m) i ++
         ORun (ID m) i None :: OPost (ID m) i total false None :: tr) res'
  | ES_fail i st rest res e :
      dry = false ->
      exec_steps dry m total i (st :: rest) res
        (OPre (ID m) i total :: chk_false st (ID m) i ++
         [ORun (ID m) i (Some e); OPost (ID m) i total false (Some e)])
        (fail_at res st (ID m) e).

Ltac app_norm := unfold chk_false; repeat rewrite <- ?app_assoc; cbn; try reflexivity.

Lemma run_steps_exec (h : Oracle) dry m steps : forall i res tr0,
  exists tr res',
    interp h (run_steps (traced dry) m i steps res) tr0 = (res', tr0 ++ tr) /\
    exec_steps dry m (Total res) i steps res tr res'.
Proof.
  induction steps as [|st rest IH]; intros i res tr0.
  - exists [], res. rewrite app_nil_r. split; [done|constructor].
  - cbn [run_steps].
    destruct (HasCheck st) eqn:Hc; cbn.
    1: destruct (h _ (ECheck (ID m) i)) eqn:Hb; cbn.
    1: { edestruct IH as (tr & res' & Hrun & Hex). rewrite Hrun.
         eexists _, res'. split; [by rewrite <- !app_assoc|].
         by apply ES_skip. }
    all: destruct dry eqn:Hd; cbn;
      [destruct (HasDryRun st) eqn:Hdr; cbn|destruct (h _ (ERun (ID m) i)) as [e|] eqn:Hr; cbn].
    all: try (match goal with |- context [?hh ?t (EDryRun ?a ?b)] =>
                set (d := hh t (EDryRun a b)) end).
    all: try (edestruct IH as (tr & res' & Hrun & Hex); rewrite Hrun).
    all: first
      [ exists (OPre (ID m) i (Total res) :: chk_false st (ID m) i ++
                [ODryRun (ID m) i d] ++ OPost (ID m) i (Total res) true None :: tr), res';
        split; [app_norm; rewrite Hc; app_norm|
                replace [ODryRun (ID m) i d]
                  with (if HasDryRun st then [ODryRun (ID m) i d] else [])
                  by (by rewrite Hdr); by apply ES_dry]
      | exists (OPre (ID m) i (Total res) :: chk_false st (ID m) i ++
                [] ++ OPost (ID m) i (Total res) true None :: tr), res';
        split; [app_norm; rewrite Hc; app_norm|
                replace ([] : list Obs)
                  with (if HasDryRun st then [ODryRun (ID m) i EmptyString] else [])
                  by (by rewrite Hdr); by apply ES_dry]
      | exists (OPre (ID m) i (Total res) :: chk_false st (ID m) i ++
                ORun (ID m) i None :: OPost (ID m) i (Total res) false None :: tr), res';
        split; [app_norm; rewrite Hc; app_norm|by apply ES_ok]
      | exists (OPre (ID m) i (Total res) :: chk_false st (ID m) i ++
                [ORun (ID m) i (Some e); OPost (ID m) i (Total res) false (Some e)]),
               (fail_at res st (ID m) e);
        split; [app_norm; rewrite Hc; app_norm|by apply ES_fail] ].
Qed.

(** The module and step index a call is about ([None] for a send). *)
Definition obs_step (o : Obs) : option (string * nat) :=
  match o with
  | OCheck x i _ | ORun x i _ | ODryRun x i _ | OPre x i _ | OPost x i _ _ _ => Some (x, i)
  | OSend _ _ => None
  end.

Definition check_true (o : Obs) : bool :=
  match o with OCheck _ _ true => true | _ => false end.

Definition run_ok (o : Obs) : bool :=
  match o with ORun _ _ None => true | _ => false end.

Definition is_run (o : Obs) : bool :=
  match o with ORun _ _ _ => true | _ => false end.

Ltac split_mem :=
  repeat match goal with
  | H : _ ∈ _ :: _ |- _ => apply elem_of_cons in H as [H|H]
  | H : _ ∈ _ ++ _ |- _ => apply elem_of_app in H as [H|H]
  | H : _ ∈ [] |- _ => by apply not_elem_of_nil in H
  end.

Lemma filter_none {A} (P : A -> Prop) `{!forall x, Decision (P x)} (l : list A) :
  Forall (fun x => ~ P x) l -> filter P l = [].
Proof.
  induction l as [|a l IH]; intros Hl; [done|].
  apply Forall_cons in Hl as [Ha Hl]. rewrite filter_cons_False by done. by apply IH.
Qed.

(** Number of calls of a kind in a trace. *)
Definition count (f : Obs -> bool) (l : list Obs) : nat :=
  length (filter (fun o => f o = true) l).

Lemma count_nil f : count f [] = 0.
Proof. done. Qed.

Lemma count_cons f o l : count f (o :: l) = (if f o then 1 else 0) + count f l.
Proof. unfold count. rewrite filter_cons. by destruct (f o); case_decide. Qed.

Lemma count_app f l1 l2 : count f (l1 ++ l2) = count f l1 + count f l2.
Proof. unfold count. by rewrite filter_app, length_app. Qed.

Section ExecFacts.
Variables (dry : bool) (m : Mod) (total : nat).

Lemma exec_index i steps res tr res' :
  exec_steps dry m total i steps res tr res' ->
  Forall (fun o => exists j, obs_step o = Some (ID m, j) /\ i <= j < i + length steps) tr.
Proof.
  induction 1 as [i res|i st rest res tr res' Hc Hex IH|i st rest res tr res' d Hd Hex IH
                 |i st rest res tr res' Hd Hex IH|i st rest res e Hd]; cbn;
    apply Forall_forall; intros o Ho; unfold chk_false in Ho;
    try destruct (HasCheck st); try destruct (HasDryRun st); split_mem; subst;
    try (by exists i; split; [done|lia]);
    (rewrite Forall_forall in IH; destruct (IH o Ho) as (j & Hj & Hr);
     exists j; split; [done|lia]).
Qed.

Lemma exec_counts i steps res tr res' :
  exec_steps dry m total i steps res tr res' ->
  Skipped res' = Skipped res + count check_true tr /\
  Completed res' = Completed res + count run_ok tr /\
  Total res' = Total res /\ ModuleID res' = ModuleID res.
Proof.
  induction 1 as [i res|i st rest res tr res' Hc Hex IH|i st rest res tr res' d Hd Hex IH
                 |i st rest res tr res' Hd Hex IH|i st rest res e Hd];
    unfold chk_false; try destruct (HasCheck st); try destruct (HasDryRun st);
    rewrite ?count_cons, ?count_app, ?count_cons, ?count_nil; cbn;
    rewrite ?count_cons, ?count_nil; cbn;
    try (destruct IH as (-> & -> & -> & ->)); cbn; split_and!; first [reflexivity | lia].
Qed.
Lemma exec_in i steps res tr res' o :
  exec_steps dry m total i steps res tr res' -> o ∈ tr ->
  exists j, obs_step o = Some (ID m, j) /\ i <= j < i + length steps.
Proof. intros Hex Ho. pose proof (exec_index _ _ _ _ _ Hex) as H.
  rewrite Forall_forall in H. by apply H. Qed.

Lemma exec_head i st rest res tr res' :
  exec_steps dry m total i (st :: rest) res tr res' ->
  exists tr', tr = OPre (ID m) i total :: tr'.
Proof. inversion 1; subst; eauto. Qed.

Ltac fcons :=
  repeat first
    [ rewrite filter_nil
    | rewrite filter_app
    | rewrite filter_cons_True by (cbn; congruence)
    | rewrite filter_cons_False by (cbn; let H := fresh in intros H; inversion H; lia) ].

Lemma exec_skip_block i steps res tr res' j :
  exec_steps dry m total i steps res tr res' ->
  OCheck (ID m) j true ∈ tr ->
  filter (fun o => obs_step o = Some (ID m, j)) tr =
    [OPre (ID m) j total; OCheck (ID m) j true; OPost (ID m) j total true None] /\
  (S j < i + length steps -> OPre (ID m) (S j) total ∈ tr).
Proof.
  induction 1 as [i res|i st rest res tr res' Hc Hex IH|i st rest res tr res' d Hd Hex IH
                 |i st rest res tr res' Hd Hex IH|i st rest res e Hd]; intros Hin.
  - by apply not_elem_of_nil in Hin.
  - destruct (decide (j = i)) as [->|Hne].
    + assert (Htl : filter (fun o => obs_step o = Some (ID m, i)) tr = []).
      { apply filter_none, Forall_forall. intros o Ho Heq.
        destruct (exec_in _ _ _ _ _ o Hex Ho) as (k & Hk & ?). rewrite Hk in Heq.
        inversion Heq; lia. }
      split.
      * fcons. by rewrite Htl.
      * intros Hlt. destruct rest as [|st' rest']; [cbn in Hlt; lia|].
        destruct (exec_head _ _ _ _ _ _ Hex) as [tr' ->]. set_solver.
    + assert (Hin' : OCheck (ID m) j true ∈ tr).
      { split_mem; try congruence; done. }
      destruct (IH Hin') as [IH1 IH2]. split.
      * fcons. done.
      * intros Hlt. cbn in Hlt. apply elem_of_cons; right; apply elem_of_cons; right.
        apply elem_of_cons; right. apply IH2. lia.
  - assert (Hin' : OCheck (ID m) j true ∈ tr).
    { unfold chk_false in Hin. destruct (HasCheck st), (HasDryRun st); split_mem; congruence. }
    destruct (exec_in _ _ _ _ _ _ Hex Hin') as (k & [= <-] & Hk).
    destruct (IH Hin') as [IH1 IH2]. split.
    + unfold chk_false. destruct (HasCheck st), (HasDryRun st); cbn [app]; fcons; done.
    + intros Hlt. cbn in Hlt. pose proof (IH2 ltac:(lia)). set_solver.
  - assert (Hin' : OCheck (ID m) j true ∈ tr).
    { unfold chk_false in Hin. destruct (HasCheck st); split_mem; congruence. }
    destruct (exec_in _ _ _ _ _ _ Hex Hin') as (k & [= <-] & Hk).
    destruct (IH Hin') as [IH1 IH2]. split.
    + unfold chk_false. destruct (HasCheck st); cbn [app]; fcons; done.
    + intros Hlt. cbn in Hlt. pose proof (IH2 ltac:(lia)). set_solver.
  - unfold chk_false in Hin. destruct (HasCheck st); split_mem; congruence.
Qed.

Lemma exec_fail i steps res tr res' j e :
  dry = false ->
  exec_steps dry m total i steps res tr res' ->
  ORun (ID m) j (Some e) ∈ tr ->
  exists st pre, steps !! (j - i) = Some st /\ i <= j /\
    tr = pre ++ [ORun (ID m) j (Some e); OPost (ID m) j total false (Some e)] /\
    Forall (fun o => exists k, obs_step o = Some (ID m, k) /\ k <= j) tr /\
    FailedStep res' = Name st /\ Err res' = Some (ErrStepFailed (Name st) (ID m) e) /\
    Completed res' + Skipped res' = Completed res + Skipped res + (j - i).
Proof.
  intros Hdry.
  induction 1 as [i res|i st rest res tr res' Hc Hex IH|i st rest res tr res' d Hd Hex IH
                 |i st rest res tr res' Hd Hex IH|i st rest res e0 Hd]; intros Hin.
  - by apply not_elem_of_nil in Hin.
  - assert (Hin' : ORun (ID m) j (Some e) ∈ tr) by (split_mem; congruence).
    destruct (exec_in _ _ _ _ _ _ Hex Hin') as (k & [= <-] & Hk).
    destruct (IH Hin') as (st' & pre & Hst & Hij & Htr & Hall & Hf & He & Hcnt).
    exists st', (OPre (ID m) i total :: OCheck (ID m) i true ::
                OPost (ID m) i total true None :: pre).
    split_and!; [|lia|by rewrite Htr| |done|done|].
    + replace (j - i) with (S (j - S i)) by lia. done.
    + apply Forall_forall; intros o Ho; split_mem; subst; try (exists i; split; [done|lia]).
      rewrite Forall_forall in Hall; by apply Hall.
    + rewrite Hcnt. cbn. lia.
  - congruence.
  - assert (Hin' : ORun (ID m) j (Some e) ∈ tr).
    { unfold chk_false in Hin. destruct (HasCheck st); split_mem; congruence. }
    destruct (exec_in _ _ _ _ _ _ Hex Hin') as (k & [= <-] & Hk).
    destruct (IH Hin') as (st' & pre & Hst & Hij & Htr & Hall & Hf & He & Hcnt).
    exists st', (OPre (ID m) i total :: chk_false st (ID m) i ++
                ORun (ID m) i None :: OPost (ID m) i total false None :: pre).
    split_and!; [|lia| | |done|done|].
    + replace (j - i) with (S (j - S i)) by lia. done.
    + rewrite Htr. unfold chk_false. destruct (HasCheck st); cbn; by rewrite <- ?app_assoc.
    + apply Forall_forall; intros o Ho; unfold chk_false in Ho; destruct (HasCheck st);
        split_mem; subst; try (exists i; split; [done|lia]);
        rewrite Forall_forall in Hall; by apply Hall.
    + rewrite Hcnt. cbn. lia.
  - assert (j = i /\ e0 = e) as [-> ->].
    { unfold chk_false in Hin. destruct (HasCheck st); split_mem; try congruence;
      injection Hin as -> ->; auto. }
    exists st, (OPre (ID m) i total :: chk_false st (ID m) i).
    split_and!; [by rewrite Nat.sub_diag|lia|done| |done|done|cbn; lia].
    apply Forall_forall; intros o Ho; unfold chk_false in Ho; destruct (HasCheck st);
      split_mem; subst; (exists i; split; [done|lia]).
Qed.

Lemma exec_dry i steps res tr res' :
  dry = true ->
  exec_steps dry m total i steps res tr res' ->
  Forall (fun o => is_run o = false) tr /\
  Completed res' = Completed res /\ FailedStep res' = FailedStep res /\ Err res' = Err res /\
  (forall k st, steps !! k = Some st -> OCheck (ID m) (i + k) true ∉ tr ->
     ((exists d, ODryRun (ID m) (i + k) d ∈ tr) <-> HasDryRun st = true) /\
     OPost (ID m) (i + k) total true None ∈ tr).
Proof.
  intros Hdry.
  induction 1 as [i res|i st rest res tr res' Hc Hex IH|i st rest res tr res' d Hd Hex IH
                 |i st rest res tr res' Hd Hex IH|i st rest res e0 Hd];
    try congruence.
  - split_and!; try done; intros k st Hk; by rewrite lookup_nil in Hk.
  - destruct IH as (Hr & Hc' & Hf & He & Hstep). split_and!; try done.
    + by repeat constructor.
    + intros [|k] st' Hk Hnot.
      * rewrite Nat.add_0_r in Hnot. set_solver.
      * cbn in Hk. replace (i + S k) with (S i + k) in * by lia.
        destruct (Hstep k st' Hk ltac:(set_solver)) as [Hd Hp].
        split; [|set_solver].
        rewrite <- Hd. split; intros [d0 Hin]; exists d0; [split_mem; try congruence; done|set_solver].
  - destruct IH as (Hr & Hc' & Hf & He & Hstep). split_and!; try done.
    + constructor; [done|]. unfold chk_false.
      destruct (HasCheck st), (HasDryRun st); cbn; by repeat constructor.
    + intros [|k] st' Hk Hnot.
      * rewrite Nat.add_0_r in *. cbn in Hk. injection Hk as <-. split; [|set_solver].
        split.
        -- intros [d0 Hin]. unfold chk_false in Hin.
           destruct (HasDryRun st); [done|]. destruct (HasCheck st); split_mem; try congruence;
           destruct (exec_in _ _ _ _ _ _ Hex Hin) as (k & [= <-] & ?); lia.
        -- intros ->. exists d. set_solver.
      * cbn in Hk. replace (i + S k) with (S i + k) in * by lia.
        destruct (Hstep k st' Hk ltac:(set_solver)) as [Hd' Hp].
        split; [|set_solver].
        rewrite <- Hd'. split; intros [d0 Hin]; exists d0; [|set_solver].
        unfold chk_false in Hin.
        destruct (HasCheck st), (HasDryRun st); split_mem; try congruence;
          try (inversion Hin; lia); done.
Qed.
End ExecFacts.

Lemma RunModule_exec (h : Oracle) dry m tr0 :
  exists tr res,
    interp h (RunModule (traced dry) m) tr0 = (res, tr0 ++ tr) /\
    exec_steps dry m (length (Steps m)) 0 (Steps m)
      {| ModuleID := ID m; Completed := 0; Skipped := 0; Total := length (Steps m);
         FailedStep := ""; Err := None |} tr res.
Proof. unfold RunModule. apply run_steps_exec. Qed.

Lemma run_modules_exec (h : Oracle) dry r ids :
  reg_wf r -> (forall id, id ∈ ids -> is_Some (Get r id)) ->
  forall results0 tr0, exists results err tr,
    interp h (run_modules (traced dry) r ids results0) tr0 =
      ((results0 ++ results, err), tr0 ++ tr) /\
    map ModuleID results `prefix_of` ids /\
    (err = None -> map ModuleID results = ids /\ Forall (fun res => Err res = None) results) /\
    (forall e, err = Some e -> exists pre last, results = pre ++ [last] /\
       Forall (fun res => Err res = None) pre /\ Err last = Some e) /\
    Forall (fun o => exists x j, obs_step o = Some (x, j) /\ x ∈ map ModuleID results) tr.
Proof.
  intros Hwf. induction ids as [|id ids IH]; intros Hreg results0 tr0.
  - exists [], None, []. rewrite !app_nil_r. split_and!; try done; intros e [=].
  - cbn [run_modules]. destruct (Hreg id ltac:(set_solver)) as [m Hm]. rewrite Hm.
    assert (Hid : ID m = id) by (destruct Hwf as (_ & _ & Hkey); by apply Hkey).
    rewrite interp_bind.
    destruct (RunModule_exec h dry m tr0) as (trm & res & Hrun & Hex). rewrite Hrun.
    destruct (exec_counts _ _ _ _ _ _ _ _ Hex) as (_ & _ & _ & Hmid). cbn in Hmid.
    pose proof (exec_index _ _ _ _ _ _ _ _ Hex) as Hidx.
    assert (Htrm : Forall (fun o => exists x j, obs_step o = Some (x, j) /\ x = id) trm).
    { eapply Forall_impl; [exact Hidx|]. intros o (j & Hj & _). by exists (ID m), j. }
    destruct (Err res) as [e|] eqn:He; cbn.
    + exists [res], (Some e), trm. split_and!.
      * by rewrite <- ?app_assoc.
      * cbn. rewrite Hmid, Hid. apply prefix_cons, prefix_nil.
      * done.
      * intros e' [= <-]. exists [], res. by split_and!.
      * eapply Forall_impl; [exact Htrm|]. intros o (x & j & Hj & ->).
        exists id, j. split; [done|]. cbn. rewrite Hmid, Hid. set_solver.
    + destruct (IH ltac:(set_solver) (results0 ++ [res]) (tr0 ++ trm))
        as (results & err & tr & Hrun' & Hpre & Hnone & Hsome & Htr).
      exists (res :: results), err, (trm ++ tr). split_and!.
      * rewrite Hrun'. by rewrite <- !app_assoc.
      * cbn. rewrite Hmid, Hid. by apply prefix_cons.
      * intros ->. destruct (Hnone eq_refl) as [Hm' Hall]. cbn. rewrite Hmid, Hid, Hm'.
        split; [done|]. by constructor.
      * intros e' He'. destruct (Hsome e' He') as (pre & last & -> & Hall & Hl).
        exists (res :: pre), last. split_and!; [done| by constructor|done].
      * apply Forall_app. split.
        -- eapply Forall_impl; [exact Htrm|]. intros o (x & j & Hj & ->).
           exists id, j. split; [done|]. cbn. rewrite Hmid, Hid. set_solver.
        -- eapply Forall_impl; [exact Htr|]. intros o (x & j & Hj & Hx).
           exists x, j. split; [done|]. cbn. set_solver.
Qed.

Definition send (msg : Msg) : Prog bool := call (ESend msg).

Definition bridge_runner (dry : bool) : Runner :=
  {| dryRun := dry;
     callback := Some (fun m st i total sk err =>
       match err with
       | Some e => _ <-- send (StepErrorMsg (ID m) (Name st) i total e);; Ret tt
       | None => _ <-- send (StepDoneMsg (ID m) (Name st) i total sk);; Ret tt
       end);
     preCallback := Some (fun m st i total =>
       _ <-- send (StepStartMsg (ID m) (Name st) (Explain st) i total);; Ret tt) |}.

Fixpoint bridge_loop (rn : Runner) (r : Registry) (ids : list string)
    (results : list ModuleResult) : Prog unit :=
  match ids with
  | [] => _ <-- send (AllDoneMsg results);; Ret tt
  | id :: rest =>
      match Get r id with
      | None => _ <-- send (RunErrorMsg (ErrBridgeNotFound id));; Ret tt
      | Some m =>
          ok <-- send (ModuleStartMsg (ID m) (MName m) (Steps m));;
          if ok then
            res <-- RunModule rn m;;
            match Err res with
            | Some _ => _ <-- send (AllDoneMsg (results ++ [res]));; Ret tt
            | None => bridge_loop rn r rest (results ++ [res])
            end
          else Ret tt
      end
  end.

Definition bridge_run (rn : Runner) (r : Registry) (ids : list string) : Prog unit :=
  match ResolveDeps r ids with
  | Error e => _ <-- send (RunErrorMsg e);; Ret tt
  | Ok sorted => bridge_loop rn r sorted []
  end.

Fixpoint sent (tr : list Obs) : list Msg :=
  match tr with
  | [] => []
  | OSend msg true :: tr' => msg :: sent tr'
  | _ :: tr' => sent tr'
  end.

Inductive steps_ok (m : Mod) (total : nat) : nat -> list Step -> list Msg -> bool -> Prop :=
  | SO_nil i : steps_ok m total i [] [] false
  | SO_done i st rest sk msgs f :
      steps_ok m total (S i) rest msgs f ->
      steps_ok m total i (st :: rest)
        (StepStartMsg (ID m) (Name st) (Explain st) i total ::
         StepDoneMsg (ID m) (Name st) i total sk :: msgs) f
  | SO_err i st rest e :
      steps_ok m total i (st :: rest)
        [StepStartMsg (ID m) (Name st) (Explain st) i total;
         StepErrorMsg (ID m) (Name st) i total e] true.

Inductive mods_ok (r : Registry) : list string -> list Msg -> list ModuleResult -> Prop :=
  | MO_nil : mods_ok r [] [] []
  | MO_ok id rest m msgs body res results :
      Get r id = Some m ->
      steps_ok m (length (Steps m)) 0 (Steps m) msgs false ->
      ModuleID res = id -> Err res = None ->
      mods_ok r rest body results ->
      mods_ok r (id :: rest) (ModuleStartMsg (ID m) (MName m) (Steps m) :: msgs ++ body)
        (res :: results)
  | MO_fail id rest m msgs res e :
      Get r id = Some m ->
      steps_ok m (length (Steps m)) 0 (Steps m) msgs true ->
      ModuleID res = id -> Err res = Some e ->
      mods_ok r (id :: rest) (ModuleStartMsg (ID m) (MName m) (Steps m) :: msgs) [res].

Definition stream_ok (r : Registry) (ids : list string) (msgs : list Msg) : Prop :=
  match ResolveDeps r ids with
  | Error e => msgs = [RunErrorMsg e]
  | Ok sorted => exists body results,
      msgs = body ++ [AllDoneMsg results] /\ mods_ok r sorted body results
  end.

Lemma sent_app l1 l2 : sent (l1 ++ l2) = sent l1 ++ sent l2.
Proof.
  induction l1 as [|o l1 IH]; [done|]. destruct o as [| | | | |msg []]; cbn; by rewrite IH.
Qed.

Section BridgeFacts.
Variable h : Oracle.
Hypothesis Hsend : forall tr msg, h tr (ESend msg) = true.

Lemma bridge_steps dry m steps : forall i res tr0, Err res = None ->
  exists tr res',
    interp h (run_steps (bridge_runner dry) m i steps res) tr0 = (res', tr0 ++ tr) /\
    ModuleID res' = ModuleID res /\
    ((Err res' = None /\ steps_ok m (Total res) i steps (sent tr) false) \/
     (exists e, Err res' = Some e /\ steps_ok m (Total res) i steps (sent tr) true)).
Proof.
  induction steps as [|st rest IH]; intros i res tr0 Herr.
  - exists [], res. rewrite app_nil_r. split_and!; [done|done|]. left. split; [done|constructor].
  - cbn [run_steps]. cbn. rewrite !Hsend.
    destruct (HasCheck st) eqn:Hc; cbn.
    1: destruct (h _ (ECheck (ID m) i)) eqn:Hb; cbn; rewrite ?Hsend.
    1: { edestruct (IH (S i) (skip_one res)) as (tr & res' & Hrun & Hid & Hcase); [done|].
         rewrite Hrun. eexists _, res'. split; [by rewrite <- !app_assoc|]. split; [done|].
         destruct Hcase as [[He Hso]|(e & He & Hso)]; [left|right; exists e]; split; try done;
           cbn; by constructor. }
    all: destruct dry eqn:Hd; cbn;
      [destruct (HasDryRun st) eqn:Hdr; cbn|destruct (h _ (ERun (ID m) i)) as [e|] eqn:Hr; cbn];
      rewrite ?Hsend.
    all: first
      [ match goal with |- context [interp h (run_steps _ _ _ _ ?rs) ?t] =>
          destruct (IH (S i) rs t ltac:(cbn; done)) as (tr & res' & Hrun & Hid & Hcase) end;
        rewrite Hrun; eexists _, res'; split; [by rewrite <- !app_assoc|];
        split; [done|];
        destruct Hcase as [[He Hso]|(e' & He & Hso)]; [left|right; exists e'];
        split; try done; cbn; by constructor
      | eexists _, _; split; [by rewrite <- !app_assoc|]; split; [done|];
        right; eexists; split; [done|]; cbn; by constructor ].
Qed.

Lemma bridge_module dry m tr0 :
  exists tr res,
    interp h (RunModule (bridge_runner dry) m) tr0 = (res, tr0 ++ tr) /\
    ModuleID res = ID m /\
    ((Err res = None /\ steps_ok m (length (Steps m)) 0 (Steps m) (sent tr) false) \/
     (exists e, Err res = Some e /\ steps_ok m (length (Steps m)) 0 (Steps m) (sent tr) true)).
Proof. unfold RunModule. by apply bridge_steps. Qed.

Lemma bridge_loop_ok dry r ids :
  reg_wf r -> (forall id, id ∈ ids -> is_Some (Get r id)) ->
  forall results0 tr0, exists tr body results,
    interp h (bridge_loop (bridge_runner dry) r ids results0) tr0 = (tt, tr0 ++ tr) /\
    sent tr = body ++ [AllDoneMsg (results0 ++ results)] /\
    mods_ok r ids body results.
Proof.
  intros Hwf. induction ids as [|id ids IH]; intros Hreg results0 tr0.
  - exists [OSend (AllDoneMsg results0) true], [], []. cbn. rewrite Hsend, app_nil_r.
    split_and!; [done|done|constructor].
  - cbn [bridge_loop]. destruct (Hreg id ltac:(set_solver)) as [m Hm]. rewrite Hm.
    assert (Hid : ID m = id) by (destruct Hwf as (_ & _ & Hkey); by apply Hkey).
    cbn. rewrite Hsend. cbn. rewrite interp_bind.
    destruct (bridge_module dry m (tr0 ++ [OSend (ModuleStartMsg (ID m) (MName m) (Steps m)) true]))
      as (trm & res & Hrun & Hmid & Hcase).
    rewrite Hrun.
    destruct Hcase as [[He Hso]|(e & He & Hso)]; rewrite He; cbn.
    + destruct (IH ltac:(set_solver) (results0 ++ [res])
                  ((tr0 ++ [OSend (ModuleStartMsg (ID m) (MName m) (Steps m)) true]) ++ trm))
        as (tr & body & results & Hrun' & Hsent & Hmods).
      rewrite Hrun'.
      exists (OSend (ModuleStartMsg (ID m) (MName m) (Steps m)) true :: trm ++ tr),
             (ModuleStartMsg (ID m) (MName m) (Steps m) :: sent trm ++ body), (res :: results).
      split_and!.
      * by rewrite <- !app_assoc.
      * cbn. rewrite sent_app, Hsent, <- !app_assoc. done.
      * econstructor; [done|done|congruence|done|done].
    + rewrite Hsend. cbn.
      exists (OSend (ModuleStartMsg (ID m) (MName m) (Steps m)) true :: trm ++
              [OSend (AllDoneMsg (results0 ++ [res])) true]),
             (ModuleStartMsg (ID m) (MName m) (Steps m) :: sent trm), [res].
      split_and!.
      * by rewrite <- !app_assoc.
      * cbn. by rewrite sent_app.
      * econstructor; [done|done|congruence|done].
Qed.

Lemma bridge_run_ok dry ms ids :
  stream_ok (build ms) ids
    (sent (interp h (bridge_run (bridge_runner dry) (build ms) ids) []).2).
Proof.
  unfold stream_ok, bridge_run.
  destruct (ResolveDeps (build ms) ids) as [sorted|e] eqn:Hres.
  - destruct (bridge_loop_ok dry (build ms) sorted (build_wf ms)
      (ResolveDeps_with_ok_registered (build ms) (build_wf ms) elements elements
         (fun N => reflexivity _) (fun N => reflexivity _) ids sorted Hres) [] [])
      as (tr & body & results & -> & Hsent & Hmods).
    exists body, results. by split.
  - cbn. by rewrite Hsend.
Qed.
End BridgeFacts.

(** The bridge as a concurrent system: the worker goroutine running
    [Bridge.run], the buffered channel [msgs] (capacity 64), the context, and
    the consumer calling [NextMsg]. *)
Record Cfg := {
  wk : option (Prog unit);       (** rest of the worker; [None] once it returned *)
  wtr : list Obs;                (** calls made by the worker so far *)
  buf : list Msg;                (** messages in the channel *)
  closed : bool;                 (** [close(b.msgs)] done (deferred in [run]) *)
  cancelled : bool;              (** [b.ctx] is done *)
  recvd : list (option Msg)      (** what [NextMsg] returned so far; [None] is nil *)
}.

Definition channel_cap : nat := 64.

(** Worker steps: an external call other than [send], answered by the
    environment; a [send] whose [select] takes the channel case (room in the
    buffer); a [send] whose [select] takes [ctx.Done()] (only once
    cancelled; when both cases are ready Go picks either); the deferred
    [close] on return. *)
Inductive wstep : Cfg -> Cfg -> Prop :=
  | W_call c e k (a : Ans e) :
      wk c = Some (Vis e k) -> (forall msg, e <> ESend msg) ->
      wstep c {| wk := Some (k a); wtr := wtr c ++ [obs e a]; buf := buf c;
                 closed := closed c; cancelled := cancelled c; recvd := recvd c |}
  | W_deliver c msg k :
      wk c = Some (Vis (ESend msg) k) -> length (buf c) < channel_cap ->
      wstep c {| wk := Some (k true); wtr := wtr c ++ [OSend msg true];
                 buf := buf c ++ [msg]; closed := closed c;
                 cancelled := cancelled c; recvd := recvd c |}
  | W_drop c msg k :
      wk c = Some (Vis (ESend msg) k) -> cancelled c = true ->
      wstep c {| wk := Some (k false); wtr := wtr c ++ [OSend msg false];
                 buf := buf c; closed := closed c;
                 cancelled := cancelled c; recvd := recvd c |}
  | W_exit c :
      wk c = Some (Ret tt) ->
      wstep c {| wk := None; wtr := wtr c; buf := buf c; closed := true;
                 cancelled := cancelled c; recvd := recvd c |}.

(** Steps other than [NextMsg] returning nil: worker steps, [Cancel] (the
    context is cancelled once; a second [cancel] changes nothing), and
    [NextMsg] receiving a buffered message. *)
Inductive pstep : Cfg -> Cfg -> Prop :=
  | P_worker c c' : wstep c c' -> pstep c c'
  | P_cancel c :
      cancelled c = false ->
      pstep c {| wk := wk c; wtr := wtr c; buf := buf c; closed := closed c;
                 cancelled := true; recvd := recvd c |}
  | P_recv c msg rest :
      buf c = msg :: rest ->
      pstep c {| wk := wk c; wtr := wtr c; buf := rest; closed := closed c;
                 cancelled := cancelled c; recvd := recvd c ++ [Some msg] |}.

(** [NextMsg] on a closed, drained channel returns nil. *)
Definition recv_end (c : Cfg) : Cfg :=
  {| wk := wk c; wtr := wtr c; buf := buf c; closed := closed c;
     cancelled := cancelled c; recvd := recvd c ++ [None] |}.

Inductive bstep : Cfg -> Cfg -> Prop :=
  | B_step c c' : pstep c c' -> bstep c c'
  | B_end c : buf c = [] -> closed c = true -> bstep c (recv_end c).

(** [NewBridge] then [Start]. *)
Definition bridge_init (rn : Runner) (r : Registry) (ids : list string) : Cfg :=
  {| wk := Some (bridge_run rn r ids); wtr := []; buf := []; closed := false;
     cancelled := false; recvd := [] |}.

(** An answer of each type, used to show a call is never stuck. *)
Definition any_ans (e : Ev) : Ans e :=
  match e return Ans e with
  | ECheck _ _ => false
  | ERun _ _ => None
  | EDryRun _ _ => EmptyString
  | EPre _ _ _ | EPost _ _ _ _ _ => tt
  | ESend _ => true
  end.

Lemma wstep_cancelled c c' : wstep c c' -> cancelled c' = cancelled c.
Proof. by destruct 1. Qed.

Lemma bstep_cancelled c c' : bstep c c' -> cancelled c = true -> cancelled c' = true.
Proof.
  destruct 1 as [c c' Hp|c]; [destruct Hp as [c c' Hw| |]|]; cbn; try done.
  by rewrite (wstep_cancelled _ _ Hw).
Qed.

(** [close] happens exactly when the worker returns. *)
Definition cfg_inv (c : Cfg) : Prop := closed c = true <-> wk c = None.

Lemma bstep_inv c c' : cfg_inv c -> bstep c c' -> cfg_inv c'.
Proof.
  unfold cfg_inv. intros Hi Hs.
  destruct Hs as [c c' Hp|c]; [destruct Hp as [c c' Hw| |]; [destruct Hw| |]|]; cbn;
    try done; rewrite Hi; split; intros; congruence.
Qed.

Lemma reach_inv rn r ids c : rtc bstep (bridge_init rn r ids) c -> cfg_inv c.
Proof.
  intros Hr. remember (bridge_init rn r ids) as c0 eqn:Hc0.
  assert (cfg_inv c0) by (subst; unfold cfg_inv; cbn; done).
  clear Hc0. induction Hr; [done|]. apply IHHr. by eapply bstep_inv.
Qed.

(** A well-founded order on the worker's remaining program. *)
Definition prog_sub {A} (p' p : Prog A) : Prop :=
  match p with Ret _ => False | Vis e k => exists a, p' = k a end.

Lemma prog_sub_wf {A} (p : Prog A) : Acc prog_sub p.
Proof.
  induction p as [a|e k IH]; constructor; intros p' Hs; cbn in Hs; [done|].
  destruct Hs as [a ->]. apply IH.
Qed.

Lemma acc_none n : forall c, length (buf c) = n -> wk c = None -> cancelled c = true ->
  Acc (fun c' c => pstep c c') c.
Proof.
  induction n as [|n IH]; intros c Hn Hw Hc; constructor; intros c' Hs;
    inversion Hs as [c0 c1 Hws|c0 Hc0|c0 msg rest Hb]; subst.
  all: try (inversion Hws; congruence).
  all: try congruence.
  all: rewrite Hb in Hn; cbn in Hn; try lia.
  apply IH; cbn; [lia|done|done].
Qed.

Lemma acc_some (p : Prog unit) : forall c, wk c = Some p -> cancelled c = true ->
  Acc (fun c' c => pstep c c') c.
Proof.
  induction (prog_sub_wf p) as [p _ IHp]. intros c.
  remember (length (buf c)) as n eqn:Hn. revert c Hn.
  induction n as [n IHn] using lt_wf_ind. intros c Hn Hw Hc. constructor. intros c' Hs.
  inversion Hs as [c0 c1 Hws|c0 Hc0|c0 msg rest Hb]; subst.
  - inversion Hws as [c0 e k a Hw' Hne|c0 msg k Hw' Hlen|c0 msg k Hw' Hcan|c0 Hw']; subst;
      rewrite Hw in Hw'; injection Hw' as ->.
    + eapply IHp; [by exists a|done|done].
    + eapply IHp; [by exists true|done|done].
    + eapply IHp; [by exists false|done|done].
    + eapply acc_none; [done|done|done].
  - congruence.
  - eapply IHn; [|done|done|done]. rewrite Hb; cbn; lia.
Qed.

Lemma cancelled_acc c : cancelled c = true -> Acc (fun c' c => pstep c c') c.
Proof.
  intros Hc. destruct (wk c) as [p|] eqn:Hw.
  - by eapply acc_some.
  - by eapply acc_none.
Qed.

Lemma cancelled_stuck c :
  cfg_inv c -> cancelled c = true -> (forall c', ~ pstep c c') ->
  wk c = None /\ buf c = [] /\ closed c = true.
Proof.
  intros Hi Hc Hstuck.
  assert (Hw : wk c = None).
  { destruct (wk c) as [[[]|e k]|] eqn:Hw; [| |done].
    - exfalso. eapply Hstuck, P_worker, W_exit, Hw.
    - exfalso. destruct e as [| | | | |msg].
      all: try (eapply Hstuck, P_worker, (W_call c _ k (any_ans _)); [exact Hw|by intros ?]).
      eapply Hstuck, P_worker, W_drop; [exact Hw|exact Hc]. }
  split_and!; [done| |by apply Hi].
  destruct (buf c) as [|msg rest] eqn:Hb; [done|].
  exfalso. eapply Hstuck, P_recv, Hb.
Qed.

Lemma cancelled_wstep c : cancelled c = true -> wk c <> None -> exists c', wstep c c'.
Proof.
  intros Hc Hw. destruct (wk c) as [[[]|e k]|] eqn:Hwk; [| |done].
  - eexists. by apply W_exit.
  - destruct e as [| | | | |msg].
    all: try (eexists; apply (W_call c _ k (any_ans _)); [exact Hwk|by intros ?]).
    eexists. by apply W_drop.
Qed.

Lemma wsteps_psteps c c' : rtc wstep c c' -> rtc pstep c c'.
Proof. induction 1; [done|]. eapply rtc_l; [by apply P_worker|done]. Qed.

Lemma cancelled_worker_returns c :
  cfg_inv c -> cancelled c = true ->
  exists c', rtc wstep c c' /\ wk c' = None /\ closed c' = true /\ buf c' = buf c.
Proof.
  intros Hi Hc. destruct (wk c) as [p|] eqn:Hw.
  2: { exists c. split_and!; [done|done|by apply Hi|done]. }
  revert c Hi Hc Hw. induction (prog_sub_wf p) as [p _ IHp]. intros c Hi Hc Hw.
  destruct p as [[]|e k].
  - eexists. split_and!; [by eapply rtc_once, W_exit|done|done|done].
  - destruct e as [| | | | |msg].
    6: { set (c1 := {| wk := Some (k false); wtr := wtr c ++ [OSend msg false];
                       buf := buf c; closed := closed c; cancelled := cancelled c;
                       recvd := recvd c |}).
         assert (Hs : wstep c c1) by (by apply W_drop).
         destruct (IHp (k false) ltac:(by exists false) c1) as (c' & Hr & H1 & H2 & H3).
         - apply (bstep_inv c); [done|by apply B_step, P_worker].
         - done.
         - done.
         - exists c'. split_and!; [by eapply rtc_l|done|done|done]. }
    all: match goal with
         | Hw : wk ?c = Some (Vis ?e ?k) |- _ =>
           set (c1 := {| wk := Some (k (any_ans e)); wtr := wtr c ++ [obs e (any_ans e)];
                         buf := buf c; closed := closed c; cancelled := cancelled c;
                         recvd := recvd c |});
           assert (Hs : wstep c c1) by (apply W_call; [done|by intros ?]);
           destruct (IHp (k (any_ans e)) ltac:(by eexists) c1) as (c' & Hr & H1 & H2 & H3);
           [apply (bstep_inv c); [done|by apply B_step, P_worker]|done|done|];
           exists c'; split_and!; [by eapply rtc_l|done|done|done]
         end.
Qed.

Lemma drain_channel n : forall c, length (buf c) = n -> wk c = None -> closed c = true ->
  exists c', rtc pstep c c' /\ wk c' = None /\ buf c' = [] /\ closed c' = true.
Proof.
  induction n as [|n IH]; intros c Hn Hw Hcl.
  - exists c. destruct (buf c); [done|done].
  - destruct (buf c) as [|msg rest] eqn:Hb; [done|].
    set (c1 := {| wk := wk c; wtr := wtr c; buf := rest; closed := closed c;
                  cancelled := cancelled c; recvd := recvd c ++ [Some msg] |}).
    destruct (IH c1) as (c' & Hr & H1 & H2 & H3); cbn; [cbn in Hn; lia|done|done|].
    exists c'. split_and!; [|done|done|done]. eapply rtc_l; [by apply P_recv|done].
Qed.


(** An executable scheduler: which transition to take next. [CCall b r]
    answers a non-send call ([Check] gets [b], [Run] gets [r]). *)
Inductive Choice : Type :=
  | CCall (b : bool) (r : option error)
  | CDeliver | CDrop | CExit | CCancel | CRecv | CRecvEnd.

Definition ans_of (b : bool) (r : option error) (e : Ev) : Ans e :=
  match e return Ans e with
  | ECheck _ _ => b
  | ERun _ _ => r
  | EDryRun _ _ => EmptyString
  | EPre _ _ _ | EPost _ _ _ _ _ => tt
  | ESend _ => true
  end.

Definition is_send (e : Ev) : bool := match e with ESend _ => true | _ => false end.

Definition sched (c : Cfg) (ch : Choice) : option Cfg :=
  match ch with
  | CCall b r =>
      match wk c with
      | Some (Vis e k) =>
          if is_send e then None
          else Some {| wk := Some (k (ans_of b r e)); wtr := wtr c ++ [obs e (ans_of b r e)];
                       buf := buf c; closed := closed c; cancelled := cancelled c;
                       recvd := recvd c |}
      | _ => None
      end
  | CDeliver =>
      match wk c with
      | Some (Vis e k) =>
          match e as e' return (Ans e' -> Prog unit) -> option Cfg with
          | ESend msg => fun k =>
              if decide (length (buf c) < channel_cap) then
                Some {| wk := Some (k true); wtr := wtr c ++ [OSend msg true];
                        buf := buf c ++ [msg]; closed := closed c;
                        cancelled := cancelled c; recvd := recvd c |}
              else None
          | _ => fun _ => None
          end k
      | _ => None
      end
  | CDrop =>
      match wk c with
      | Some (Vis e k) =>
          match e as e' return (Ans e' -> Prog unit) -> option Cfg with
          | ESend msg => fun k =>
              if cancelled c then
                Some {| wk := Some (k false); wtr := wtr c ++ [OSend msg false];
                        buf := buf c; closed := closed c;
                        cancelled := cancelled c; recvd := recvd c |}
              else None
          | _ => fun _ => None
          end k
      | _ => None
      end
  | CExit =>
      match wk c with
      | Some (Ret _) =>
          Some {| wk := None; wtr := wtr c; buf := buf c; closed := true;
                  cancelled := cancelled c; recvd := recvd c |}
      | _ => None
      end
  | CCancel =>
      if cancelled c then None
      else Some {| wk := wk c; wtr := wtr c; buf := buf c; closed := closed c;
                   cancelled := true; recvd := recvd c |}
  | CRecv =>
      match buf c with
      | msg :: rest =>
          Some {| wk := wk c; wtr := wtr c; buf := rest; closed := closed c;
                  cancelled := cancelled c; recvd := recvd c ++ [Some msg] |}
      | [] => None
      end
  | CRecvEnd =>
      match buf c with
      | [] => if closed c then Some (recv_end c) else None
      | _ => None
      end
  end.

Fixpoint run_sched (c : Cfg) (chs : list Choice) : option Cfg :=
  match chs with
  | [] => Some c
  | ch :: chs' => match sched c ch with Some c' => run_sched c' chs' | None => None end
  end.

Lemma sched_sound c ch c' : sched c ch = Some c' -> bstep c c'.
Proof.
  destruct ch as [b r| | | | | |]; cbn.
  - destruct (wk c) as [[a|e k]|] eqn:Hw; try done.
    destruct (is_send e) eqn:Hs; [done|]. intros [= <-].
    apply B_step, P_worker, W_call; [done|]. intros msg ->. done.
  - destruct (wk c) as [[a|[]]|] eqn:Hw; try done.
    case_decide; [|done]. intros [= <-]. by apply B_step, P_worker, W_deliver.
  - destruct (wk c) as [[a|[]]|] eqn:Hw; try done.
    destruct (cancelled c) eqn:Hc; [|done]. intros [= <-]. rewrite <- Hc.
    by apply B_step, P_worker, W_drop.
  - destruct (wk c) as [[[]|]|] eqn:Hw; try done. intros [= <-].
    by apply B_step, P_worker, W_exit.
  - destruct (cancelled c) eqn:Hc; [done|]. intros [= <-]. by apply B_step, P_cancel.
  - destruct (buf c) as [|msg rest] eqn:Hb; [done|]. intros [= <-].
    by apply B_step, P_recv.
  - destruct (buf c) eqn:Hb; [|done]. destruct (closed c) eqn:Hc; [|done].
    intros [= <-]. by apply B_end.
Qed.

Lemma run_sched_sound c chs c' : run_sched c chs = Some c' -> rtc bstep c c'.
Proof.
  revert c. induction chs as [|ch chs IH]; intros c; cbn; [intros [= <-]; done|].
  destruct (sched c ch) as [c1|] eqn:Hs; [|done]. intros H.
  eapply rtc_l; [by apply (sched_sound c ch)|]. by apply IH.
Qed.

Lemma run_sched_app c chs1 chs2 :
  run_sched c (chs1 ++ chs2) = match run_sched c chs1 with
                               | Some c1 => run_sched c1 chs2 | None => None end.
Proof.
  revert c. induction chs1 as [|ch chs1 IH]; intros c; cbn; [done|].
  destruct (sched c ch); [apply IH|done].
Qed.

Definition plain_step (name : string) : Step :=
  {| Name := name; Description := EmptyString; Explain := EmptyString;
     HasCheck := false; HasDryRun := false |}.

Definition cx_reg : Registry := build [mk "A" [] [plain_step "s0"; plain_step "s1"]].

Lemma cx_resolve : ResolveDeps cx_reg ["A"] = Ok ["A"].
Proof. vm_compute. reflexivity. Qed.

Definition cx_msgs : list Msg :=
  [ModuleStartMsg "A" "A" [plain_step "s0"; plain_step "s1"];
   StepStartMsg "A" "s0" EmptyString 0 2;
   StepStartMsg "A" "s1" EmptyString 1 2;
   StepDoneMsg "A" "s1" 1 2 false;
   AllDoneMsg [{| ModuleID := "A"; Completed := 2; Skipped := 0; Total := 2;
                  FailedStep := EmptyString; Err := None |}]].

Lemma cx_msgs_not_ok : ~ stream_ok cx_reg ["A"] cx_msgs.
Proof.
  unfold stream_ok. rewrite cx_resolve. intros (body & results & Heq & Hm).
  inversion Hm as [|id rest m msgs body' res results' Hget Hso Hid Herr Hrest
                   |id rest m msgs res e Hget Hso Hid Herr]; subst;
    vm_compute in Hget; injection Hget as <-; cbn in Hso;
    inversion Hso; subst; cbn in Heq; simplify_eq.
Qed.

(** [p] makes the calls [tr] and becomes [q]. *)
Inductive prog_run {A} : Prog A -> list Obs -> Prog A -> Prop :=
  | PR_refl p : prog_run p [] p
  | PR_step e k a tr q : prog_run (k a) tr q -> prog_run (Vis e k) (obs e a :: tr) q.

Lemma prog_run_snoc {A} (p : Prog A) tr e k a :
  prog_run p tr (Vis e k) -> prog_run p (tr ++ [obs e a]) (k a).
Proof.
  remember (Vis e k) as q eqn:Hq. induction 1 as [p|e' k' a' tr q Hr IH]; subst; cbn.
  - repeat constructor.
  - constructor. by apply IH.
Qed.

(** The answer a recorded call gives. *)
Definition answer_from (o : option Obs) (e : Ev) : Ans e :=
  match e return Ans e with
  | ECheck _ _ => match o with Some (OCheck _ _ b) => b | _ => false end
  | ERun _ _ => match o with Some (ORun _ _ r) => r | _ => None end
  | EDryRun _ _ => match o with Some (ODryRun _ _ d) => d | _ => EmptyString end
  | EPre _ _ _ | EPost _ _ _ _ _ => tt
  | ESend _ => match o with Some (OSend _ b) => b | _ => true end
  end.

(** The environment that answers as in the trace [full]. *)
Definition replay (full : list Obs) : Oracle :=
  fun tr0 e => answer_from (full !! length tr0) e.

Lemma answer_obs e a : answer_from (Some (obs e a)) e = a.
Proof. destruct e; cbn; try done; by destruct a. Qed.

Lemma replay_run {A} (p : Prog A) tr (a : A) :
  prog_run p tr (Ret a) -> forall pre full, full = pre ++ tr ->
  interp (replay full) p pre = (a, full).
Proof.
  remember (Ret a) as q eqn:Hq. induction 1 as [p|e k a0 tr q Hr IH]; intros pre full ->; subst.
  - by rewrite app_nil_r.
  - cbn. assert (Hans : replay (pre ++ obs e a0 :: tr) pre e = a0).
    { unfold replay. rewrite lookup_app_r, Nat.sub_diag by lia. apply answer_obs. }
    rewrite Hans. apply IH; [done|]. by rewrite <- app_assoc.
Qed.

Lemma sent_nosend e a : (forall msg, e <> ESend msg) -> sent [obs e a] = [].
Proof. intros Hne. destruct e as [| | | | |msg]; try done. by destruct (Hne msg). Qed.

Lemma omap_some (l : list Msg) : omap id (map Some l) = l.
Proof. induction l as [|x l IH]; cbn; [done|by rewrite IH]. Qed.

(** What every reachable configuration satisfies: the worker is [p0] after
    its calls so far; the channel is FIFO (what was received, then what is
    buffered, is what was delivered); no send was refused before [Cancel];
    nil is returned only once the worker returned and the channel is closed
    and drained. *)
Definition binv (p0 : Prog unit) (c : Cfg) : Prop :=
  prog_run p0 (wtr c) (match wk c with Some q => q | None => Ret tt end) /\
  omap id (recvd c) ++ buf c = sent (wtr c) /\
  (cancelled c = false -> forall msg, OSend msg false ∉ wtr c) /\
  (None ∈ recvd c -> wk c = None /\ buf c = [] /\ closed c = true) /\
  (closed c = true <-> wk c = None).

Lemma binv_init rn r ids : binv (bridge_run rn r ids) (bridge_init rn r ids).
Proof.
  unfold binv; cbn. split_and!; try done.
  - constructor.
  - intros _ msg Hin. by apply not_elem_of_nil in Hin.
  - intros Hin. by apply not_elem_of_nil in Hin.
Qed.

Lemma binv_step p0 c c' : binv p0 c -> bstep c c' -> binv p0 c'.
Proof.
  intros (H1 & H2 & H3 & H4 & H5) Hs.
  destruct Hs as [c c' Hp|c Hb Hc]; [destruct Hp as [c c' Hw|c Hc|c msg rest Hb]; [destruct Hw as [c e k a Hw Hne|c msg k Hw Hlen|c msg k Hw Hcan|c Hw]| |]|];
    unfold binv; cbn; rewrite ?Hw in H1.
  - split_and!.
    + by apply prog_run_snoc.
    + by rewrite sent_app, sent_nosend, app_nil_r.
    + intros Hc msg Hin. apply elem_of_app in Hin as [Hin|Hin]; [by eapply H3|].
      apply list_elem_of_singleton in Hin. destruct e; try done. by destruct (Hne msg0).
    + intros HN. destruct (H4 HN) as [Hn _]. congruence.
    + rewrite H5, Hw. split; intros; congruence.
  - split_and!.
    + by apply (prog_run_snoc _ _ (ESend msg) k true).
    + rewrite sent_app, <- H2, app_assoc. done.
    + intros Hc msg' Hin. apply elem_of_app in Hin as [Hin|Hin]; [by eapply H3|].
      apply list_elem_of_singleton in Hin. done.
    + intros HN. destruct (H4 HN) as [Hn _]. congruence.
    + rewrite H5, Hw. split; intros; congruence.
  - split_and!.
    + by apply (prog_run_snoc _ _ (ESend msg) k false).
    + by rewrite sent_app, <- H2, app_nil_r.
    + congruence.
    + intros HN. destruct (H4 HN) as [Hn _]. congruence.
    + rewrite H5, Hw. split; intros; congruence.
  - split_and!; try done.
    + intros HN. destruct (H4 HN) as [Hn _]. congruence.
  - split_and!; try done.
  - split_and!; try done.
    + rewrite omap_app, <- app_assoc. cbn. by rewrite <- Hb.
    + intros HN. apply elem_of_app in HN as [HN|HN].
      * destruct (H4 HN) as (_ & Hb' & _). congruence.
      * by apply list_elem_of_singleton in HN.
  - unfold recv_end. cbn. split_and!; try done.
    + by rewrite omap_app, app_nil_r.
    + intros _. split_and!; try done. by apply H5.
Qed.

Lemma reach_binv rn r ids c :
  rtc bstep (bridge_init rn r ids) c -> binv (bridge_run rn r ids) c.
Proof.
  intros Hr. remember (bridge_init rn r ids) as c0 eqn:Hc0.
  assert (Hi : binv (bridge_run rn r ids) c0) by (subst; apply binv_init).
  clear Hc0. induction Hr; [done|]. apply IHHr. by eapply binv_step.
Qed.

Lemma bridge_stream_uncancelled dry ms ids c msgs :
  rtc bstep (bridge_init (bridge_runner dry) (build ms) ids) c ->
  cancelled c = false -> recvd c = map Some msgs ++ [None] ->
  stream_ok (build ms) ids msgs.
Proof.
  intros Hr Hc Hrecv.
  destruct (reach_binv _ _ _ _ Hr) as (H1 & H2 & H3 & H4 & H5).
  destruct (H4 ltac:(rewrite Hrecv; set_solver)) as (Hw & Hb & _).
  rewrite Hw in H1. rewrite Hb, Hrecv, app_nil_r, omap_app, omap_some in H2. cbn in H2.
  rewrite app_nil_r in H2.
  assert (Hsend : forall tr0 msg, replay (wtr c) tr0 (ESend msg) = true).
  { intros tr0 msg. unfold replay; cbn.
    destruct (wtr c !! length tr0) as [[| | | | |m' []]|] eqn:Hl; try done.
    exfalso. eapply (H3 Hc m'). by eapply list_elem_of_lookup_2. }
  pose proof (bridge_run_ok (replay (wtr c)) Hsend dry ms ids) as Hok.
  rewrite (replay_run _ _ _ H1 [] (wtr c) eq_refl) in Hok. cbn in Hok. by rewrite H2.
Qed.

(* ================================================================== *)
(** * Concrete inputs *)

(** A registry where ["python"] lists ["base"] twice. *)
Definition dup_reg : Registry :=
  build [mk "base" [] []; mk "python" ["base"; "base"] []].

(** Registration order ["c"; "a"; "b"], with ["c"] depending on ["a"]. *)
Definition fifo_reg : Registry :=
  build [mk "c" ["a"] []; mk "a" [] []; mk "b" [] []].

Definition check_step (name : string) : Step :=
  {| Name := name; Description := EmptyString; Explain := EmptyString;
     HasCheck := true; HasDryRun := false |}.

(** An environment where every [Check] is false, every [Run] succeeds and
    every [send] goes through. *)
Definition h_default : Oracle := fun _ e => any_ans e.

(** Every [Check] is true. *)
Definition h_check_true : Oracle := fun _ e => ans_of true None e.

(** [Run] of step 1 fails; the other steps succeed. *)
Definition h_fail1 : Oracle := fun _ e =>
  match e return Ans e with
  | ECheck _ _ => false
  | ERun _ i => if decide (i = 1) then Some (ErrNotFound "pip") else None
  | EDryRun _ _ => EmptyString
  | EPre _ _ _ | EPost _ _ _ _ _ => tt
  | ESend _ => true
  end.

(** Steps [ok], [fail], [ok2]. *)
Definition fail_mod : Mod := mk "M" [] [plain_step "ok"; plain_step "fail"; plain_step "ok2"].

Definition fail_run : ModuleResult * list Obs :=
  interp h_fail1 (RunModule (traced false) fail_mod) [].

Definition skip_mod : Mod := mk "M" [] [check_step "s1"; plain_step "s2"].

Definition skip_run : ModuleResult * list Obs :=
  interp h_check_true (RunModule (traced false) skip_mod) [].

(** Module ["A"] with a step already satisfied and one that is not. *)
Definition ex_mods : list Mod := [mk "A" [] [check_step "s1"; plain_step "s2"]].

Definition ex_cfg : Cfg :=
  let c0 := bridge_init (bridge_runner false) (build ex_mods) ["A"] in
  match run_sched c0
          [CDeliver; CDeliver; CCall true None; CDeliver; CDeliver; CCall false None;
           CDeliver; CDeliver; CExit; CRecv; CRecv; CRecv; CRecv; CRecv; CRecv; CRecvEnd]
  with Some c => c | None => c0 end.

Definition ex_msgs : list Msg :=
  [ModuleStartMsg "A" "A" [check_step "s1"; plain_step "s2"];
   StepStartMsg "A" "s1" EmptyString 0 2;
   StepDoneMsg "A" "s1" 0 2 true;
   StepStartMsg "A" "s2" EmptyString 1 2;
   StepDoneMsg "A" "s2" 1 2 false;
   AllDoneMsg [{| ModuleID := "A"; Completed := 1; Skipped := 1; Total := 2;
                  FailedStep := EmptyString; Err := None |}]].

(** [Cancel] called before anything else. *)
Definition cancel_cfg : Cfg :=
  let c0 := bridge_init (bridge_runner false) cx_reg ["A"] in
  match run_sched c0 [CCancel] with Some c => c | None => c0 end.

(* ------------------------------------------------------------------ *)
(** ** Facts about the concrete inputs and [ResolveDeps] on [build] *)

Lemma elements_perm (N : gset string) : elements N ≡ₚ elements N.
Proof. done. Qed.

Lemma dup_reg_wf : reg_wf dup_reg.
Proof. apply build_wf. Qed.

Lemma dup_reg_order : order dup_reg = ["base"; "python"].
Proof. reflexivity. Qed.

Lemma dup_reg_edge x y : edge dup_reg x y -> x = "python" /\ y = "base".
Proof.
  intros (m & Hm & Hy).
  destruct dup_reg_wf as (_ & Hord & _).
  assert (Hx : x ∈ order dup_reg) by (apply Hord; by rewrite Hm).
  rewrite dup_reg_order in Hx.
  apply elem_of_cons in Hx as [->|Hx]; [|apply list_elem_of_singleton in Hx as ->];
    vm_compute in Hm; injection Hm as <-; cbn in Hy.
  - by apply not_elem_of_nil in Hy.
  - split; [done|set_solver].
Qed.

Lemma dup_reg_acyclic x : ~ tc (edge dup_reg) x x.
Proof.
  intros H. inversion H as [a b Hab|a b c Hab Hbc]; subst.
  - apply dup_reg_edge in Hab as [-> Hb]. discriminate.
  - apply dup_reg_edge in Hab as [-> ->].
    inversion Hbc as [a b Hab|a b c' Hab _]; subst;
      apply dup_reg_edge in Hab as [Hb _]; discriminate.
Qed.

Lemma dup_reg_reach x : reach dup_reg ["python"] x -> x = "python" \/ x = "base".
Proof.
  intros (i & Hi & Hr). apply list_elem_of_singleton in Hi as ->.
  inversion Hr as [|a b c Hab Hbc]; subst; [by left|].
  apply dup_reg_edge in Hab as [_ ->].
  inversion Hbc as [|a b c' Hab _]; subst; [by right|].
  apply dup_reg_edge in Hab as [Hb _]. discriminate.
Qed.

Lemma dup_reg_registered x :
  reach dup_reg ["python"] x -> is_Some (modules dup_reg !! x).
Proof. intros Hx. destruct (dup_reg_reach x Hx) as [->| ->]; vm_compute; eauto. Qed.

Lemma dup_reg_python : reach dup_reg ["python"] "python".
Proof. exists "python". split; [set_solver|apply rtc_refl]. Qed.

Lemma dup_reg_python_dup : ~ NoDup (deps dup_reg "python").
Proof. vm_compute. intros Hnd. inversion Hnd as [|? ? Hn _]. set_solver. Qed.

(* ================================================================== *)
(** * Further code: registry queries, module results, state, wizard,
      mock runner and Scoop steps *)

(* ------------------------------------------------------------------ *)
(** ** The rest of the registry: [All] and [ByCategory] *)

(** [All]: [r.modules[id]] for each ID of the insertion order ([None] is a
    nil [*Module]). *)
Definition All (r : Registry) : list (option Mod) :=
  map (fun id => modules r !! id) (order r).

(** [ByCategory]; [r.modules[id].Category] on a nil module panics, which
    is [None]. *)
Fixpoint ByCategory_loop (r : Registry) (cat : Category) (ids : list string)
    : option (list Mod) :=
  match ids with
  | [] => Some []
  | id :: rest =>
      match modules r !! id with
      | None => None
      | Some m =>
          if bool_decide (MCategory m = cat) then
            match ByCategory_loop r cat rest with
            | Some ms => Some (m :: ms)
            | None => None
            end
          else ByCategory_loop r cat rest
      end
  end.

Definition ByCategory (r : Registry) (cat : Category) : option (list Mod) :=
  ByCategory_loop r cat (order r).

(** The IDs of [l] in order of first occurrence, leaving out those in
    [seen]. *)
Fixpoint dedup_from (seen l : list string) : list string :=
  match l with
  | [] => []
  | x :: l' => if decide (x ∈ seen) then dedup_from seen l' else x :: dedup_from (seen ++ [x]) l'
  end.

(** The module registered last under [x] in [ms]. *)
Definition last_with (ms : list Mod) (x : string) : option Mod :=
  foldl (fun acc m => if decide (ID m = x) then Some m else acc) None ms.

Lemma Get_foldl_Register r ms x :
  Get (foldl Register r ms) x =
  foldl (fun acc m => if decide (ID m = x) then Some m else acc) (Get r x) ms.
Proof.
  revert r. induction ms as [|m ms IH]; intros r; cbn; [done|].
  rewrite IH. f_equal. unfold Get, Register; cbn.
  destruct (decide (ID m = x)) as [<-|Hne].
  - by rewrite lookup_insert_eq.
  - by rewrite lookup_insert_ne.
Qed.

Lemma order_foldl_Register r ms :
  reg_wf r ->
  order (foldl Register r ms) = order r ++ dedup_from (order r) (map ID ms).
Proof.
  revert r. induction ms as [|m ms IH]; intros r Hwf; cbn; [by rewrite app_nil_r|].
  rewrite (IH _ (Register_wf r m Hwf)).
  destruct Hwf as (_ & Hord & _).
  unfold Register at 1 2; cbn.
  destruct (modules r !! ID m) as [m0|] eqn:Hm.
  - rewrite decide_True; [done|]. apply Hord. by eexists.
  - rewrite decide_False; [by rewrite <- app_assoc|].
    intros Hin. apply Hord in Hin. rewrite Hm in Hin. by destruct Hin.
Qed.

Lemma map_Some_omap {A B} (f : A -> option B) (l : list A) :
  (forall x, x ∈ l -> is_Some (f x)) -> map f l = map Some (omap f l).
Proof.
  induction l as [|x l IH]; intros Hall; cbn; [done|].
  destruct (Hall x ltac:(set_solver)) as [y Hy]. rewrite Hy; cbn.
  f_equal. apply IH. set_solver.
Qed.

Lemma omap_lookup_ids (r : Registry) (l : list string) :
  reg_wf r -> (forall x, x ∈ l -> is_Some (modules r !! x)) ->
  map ID (omap (fun id => modules r !! id) l) = l.
Proof.
  intros (_ & _ & Hkey). induction l as [|x l IH]; intros Hall; cbn; [done|].
  destruct (Hall x ltac:(set_solver)) as [m Hm]. rewrite Hm; cbn.
  rewrite (Hkey _ _ Hm). f_equal. apply IH. set_solver.
Qed.

Lemma ByCategory_loop_filter r cat l :
  (forall x, x ∈ l -> is_Some (modules r !! x)) ->
  ByCategory_loop r cat l =
  Some (filter (fun m => MCategory m = cat) (omap (fun id => modules r !! id) l)).
Proof.
  induction l as [|x l IH]; intros Hall; cbn; [done|].
  destruct (Hall x ltac:(set_solver)) as [m Hm]. cbn -[filter]. rewrite Hm.
  rewrite IH by set_solver.
  case_bool_decide as Hc.
  - by rewrite filter_cons_True.
  - by rewrite filter_cons_False.
Qed.

Lemma Get_build ms x : Get (build ms) x = last_with ms x.
Proof. unfold build, last_with. rewrite Get_foldl_Register. done. Qed.

Lemma order_build ms : order (build ms) = dedup_from [] (map ID ms).
Proof.
  unfold build. rewrite order_foldl_Register; [done|].
  split_and!; [constructor| |].
  - intros x. cbn. rewrite lookup_empty. split; [set_solver|by intros []].
  - intros x m. cbn. by rewrite lookup_empty.
Qed.

(** X1: looking up an ID in a registry built by [Register] calls gives the
    module registered last under that ID (a later [Register] replaces an
    earlier one), and nil for an ID never registered. *)
Theorem build_Get ms x : Get (build ms) x = last_with ms x.
Proof. apply Get_build. Qed.

(** X2: the insertion order of a built registry lists each registered ID
    once, in the order of its first registration; registering an ID again
    does not move it. *)
Theorem build_order ms : order (build ms) = dedup_from [] (map ID ms).
Proof. apply order_build. Qed.

(** X3: [All] on a built registry never yields a nil module: it returns one
    module per registered ID, in first-registration order, each being the
    one registered last under its ID. *)
Theorem build_All ms :
  exists l, All (build ms) = map Some l /\
    map ID l = dedup_from [] (map ID ms) /\
    Forall (fun m => last_with ms (ID m) = Some m) l.
Proof.
  pose proof (build_wf ms) as Hwf.
  assert (Hall : forall x, x ∈ order (build ms) -> is_Some (modules (build ms) !! x))
    by (intros x; apply Hwf).
  exists (omap (fun id => modules (build ms) !! id) (order (build ms))).
  split_and!.
  - unfold All. by apply map_Some_omap.
  - rewrite omap_lookup_ids by done. apply order_build.
  - apply Forall_forall. intros m Hm.
    apply list_elem_of_omap in Hm as (x & _ & Hx).
    rewrite <- Get_build. unfold Get. destruct Hwf as (_ & _ & Hkey).
    by rewrite (Hkey _ _ Hx).
Qed.

Lemma omap_id_map_Some {A} (l : list A) : omap id (map Some l) = l.
Proof. induction l as [|x l IH]; cbn; [done|]. by rewrite IH. Qed.

(** X4: [ByCategory] on a built registry never dereferences a nil module,
    and returns exactly the modules of [All] with the given category, in
    insertion order. *)
Theorem ByCategory_All ms cat :
  ByCategory (build ms) cat =
    Some (filter (fun m => MCategory m = cat) (omap id (All (build ms)))).
Proof.
  pose proof (build_wf ms) as Hwf. unfold ByCategory, All.
  rewrite ByCategory_loop_filter by (intros x; apply Hwf).
  rewrite map_Some_omap by (intros x; apply Hwf).
  by rewrite omap_id_map_Some.
Qed.

Lemma exec_result dry m total i steps res tr res' :
  exec_steps dry m total i steps res tr res' ->
  Total res' = Total res /\ ModuleID res' = ModuleID res /\
  ((Err res' = Err res /\ FailedStep res' = FailedStep res /\
    Completed res' + Skipped res' <= Completed res + Skipped res + length steps /\
    (dry = false -> Completed res' + Skipped res' = Completed res + Skipped res + length steps)) \/
   (dry = false /\ exists j st e, steps !! j = Some st /\ FailedStep res' = Name st /\
      Err res' = Some (ErrStepFailed (Name st) (ID m) e) /\
      Completed res' + Skipped res' = Completed res + Skipped res + j)).
Proof.
  induction 1 as [i res|i st rest res tr res' Hc Hex IH|i st rest res tr res' d Hd Hex IH
                 |i st rest res tr res' Hd Hex IH|i st rest res e Hd]; unfold skip_one, complete_one, fail_at in *; cbn.
  - split_and!; try done. left. split_and!; try done; lia.
  - destruct IH as (Ht & Hm & [(He & Hf & Hle & Heq)|(Hdf & j & st' & e & Hj & Hf & He & Hcs)]);
      cbn in *; split_and!; try done.
    + left. split_and!; try done; [lia|intros Hd; specialize (Heq Hd); lia].
    + right. split; [done|]. exists (S j), st', e. split_and!; try done. lia.
  - destruct IH as (Ht & Hm & [(He & Hf & Hle & Heq)|(Hdf & j & st' & e & Hj & Hf & He & Hcs)]);
      cbn in *; split_and!; try done.
    + left. split_and!; try done; [lia|intros Hd'; congruence].
    + congruence.
  - destruct IH as (Ht & Hm & [(He & Hf & Hle & Heq)|(Hdf & j & st' & e & Hj & Hf & He & Hcs)]);
      cbn in *; split_and!; try done.
    + left. split_and!; try done; [lia|intros Hd'; specialize (Heq Hd'); lia].
    + right. split; [done|]. exists (S j), st', e. split_and!; try done. lia.
  - split_and!; try done. right. split; [done|]. exists 0, st, e. split_and!; try done; lia.
Qed.

Lemma RunModule_result_gen (h : Oracle) dry m tr0 :
  exists res tr, interp h (RunModule (traced dry) m) tr0 = (res, tr0 ++ tr) /\
  ModuleID res = ID m /\ Total res = length (Steps m) /\
  Completed res + Skipped res <= Total res /\
  ((Err res = None /\ FailedStep res = EmptyString /\
    (dry = false -> Completed res + Skipped res = Total res)) \/
   (dry = false /\ exists j st e, Steps m !! j = Some st /\ FailedStep res = Name st /\
      Err res = Some (ErrStepFailed (Name st) (ID m) e) /\
      Completed res + Skipped res = j)).
Proof.
  destruct (RunModule_exec h dry m tr0) as (tr & res & Hi & Hex).
  exists res, tr. split; [done|].
  destruct (exec_result _ _ _ _ _ _ _ _ Hex)
    as (Ht & Hm & [(He & Hf & Hle & Heq)|(Hdf & j & st & e & Hj & Hf & He & Hcs)]); cbn in *.
  - split_and!; try done; try lia. left. split_and!; try done. intros Hd. specialize (Heq Hd). lia.
  - pose proof (lookup_lt_Some _ _ _ Hj).
    split_and!; try done; try lia. right. split; [done|]. exists j, st, e. split_and!; try done; lia.
Qed.

(** X5: the result of [RunModule] names the module and counts all its
    steps in [Total]; at most [Total] steps are counted as completed or
    skipped. Either no step failed, [FailedStep] is empty, and (outside dry
    run) every step was counted as completed or skipped; or some step [j]
    failed, which only happens outside dry run: [FailedStep] is its name,
    the error wraps the step's error with the step and module, and exactly
    the [j] steps before it were counted. *)
Theorem RunModule_result (h : Oracle) dry m :
  let '(res, tr) := interp h (RunModule (traced dry) m) [] in
  ModuleID res = ID m /\ Total res = length (Steps m) /\
  Completed res + Skipped res <= Total res /\
  ((Err res = None /\ FailedStep res = EmptyString /\
    (dry = false -> Completed res + Skipped res = Total res)) \/
   (dry = false /\ exists j st e, Steps m !! j = Some st /\ FailedStep res = Name st /\
      Err res = Some (ErrStepFailed (Name st) (ID m) e) /\
      Completed res + Skipped res = j)).
Proof.
  destruct (RunModule_result_gen h dry m []) as (res & tr & Hi & H). by rewrite Hi.
Qed.

Lemma run_modules_err (h : Oracle) dry r ids : forall results0 tr0 results err tr,
  interp h (run_modules (traced dry) r ids results0) tr0 = ((results, err), tr) ->
  forall e, err = Some e ->
  (exists x, e = ErrNotFound x /\ x ∈ ids /\ Get r x = None) \/
  (dry = false /\ exists s id e', e = ErrStepFailed s id e').
Proof.
  induction ids as [|id ids IH]; intros results0 tr0 results err tr Hi e He; cbn in Hi.
  - injection Hi as _ <- _. discriminate.
  - destruct (Get r id) as [m|] eqn:Hg.
    + rewrite interp_bind in Hi.
      destruct (RunModule_result_gen h dry m tr0) as (res & tr1 & Hr & _ & _ & _ & Hcase).
      rewrite Hr in Hi.
      destruct (Err res) as [e0|] eqn:Hre.
      * injection Hi as _ <- _. injection He as <-.
        destruct Hcase as [(He' & _)|(Hdf & j & st & e1 & _ & _ & He' & _)]; [congruence|].
        right. split; [done|]. exists (Name st), (ID m), e1. congruence.
      * destruct (IH _ _ _ _ _ Hi e He) as [(x & -> & Hx & Hn)|Hs]; [|by right].
        left. exists x. split_and!; [done|set_solver|done].
    + injection Hi as _ <- _. injection He as <-. left. exists id. split_and!; [done|set_solver|done].
Qed.

(** X6: [RunModules] on a built registry never reports its "module not
    found in registry" error: a returned error is either the wrapped
    resolution error, with no results, or the error of a failed step, which
    only a run outside dry-run mode reports. *)
Theorem RunModules_errors (h : Oracle) dry ms ids :
  let '((results, err), tr) := interp h (RunModules (traced dry) (build ms) ids) [] in
  forall e, err = Some e ->
  (exists e', ResolveDeps (build ms) ids = Error e' /\ e = ErrResolving e' /\ results = []) \/
  (dry = false /\ exists s id e', e = ErrStepFailed s id e').
Proof.
  unfold RunModules. destruct (ResolveDeps (build ms) ids) as [sorted|e0] eqn:Hres.
  - destruct (interp h (run_modules (traced dry) (build ms) sorted []) [])
      as [[results err] tr] eqn:Hi.
    intros e He.
    destruct (run_modules_err h dry (build ms) sorted [] [] results err tr Hi e He)
      as [(x & -> & Hx & Hn)|Hs]; [|by right].
    exfalso.
    destruct (ResolveDeps_with_ok_registered (build ms) (build_wf ms) elements elements
                elements_perm elements_perm ids sorted Hres x Hx) as [m Hm].
    unfold Get in Hn. congruence.
  - cbn. intros e [= <-]. left. by exists e0.
Qed.

(* ------------------------------------------------------------------ *)
(** ** Persistent state ([internal/state]) and [saveState] *)

(** [state.State]; [LastRun] ([time.Time]) as a timestamp. *)
Record State := {
  InstalledModules : list string;
  LastRun : Z;
  ManagedEnvVars : list string;
  ManagedPathEntries : list string;
  ScoopPackages : list string;
  CABundleHash : string;
  ShhhVersion : string
}.

Fixpoint contains (slice : list string) (item : string) : bool :=
  match slice with
  | [] => false
  | s :: rest => if bool_decide (s = item) then true else contains rest item
  end.

Definition AddModule (s : State) (id : string) : State :=
  if contains (InstalledModules s) id then s else
  {| InstalledModules := InstalledModules s ++ [id]; LastRun := LastRun s;
     ManagedEnvVars := ManagedEnvVars s; ManagedPathEntries := ManagedPathEntries s;
     ScoopPackages := ScoopPackages s; CABundleHash := CABundleHash s;
     ShhhVersion := ShhhVersion s |}.

Definition AddEnvVar (s : State) (key : string) : State :=
  if contains (ManagedEnvVars s) key then s else
  {| InstalledModules := InstalledModules s; LastRun := LastRun s;
     ManagedEnvVars := ManagedEnvVars s ++ [key]; ManagedPathEntries := ManagedPathEntries s;
     ScoopPackages := ScoopPackages s; CABundleHash := CABundleHash s;
     ShhhVersion := ShhhVersion s |}.

Definition AddPathEntry (s : State) (dir : string) : State :=
  if contains (ManagedPathEntries s) dir then s else
  {| InstalledModules := InstalledModules s; LastRun := LastRun s;
     ManagedEnvVars := ManagedEnvVars s; ManagedPathEntries := ManagedPathEntries s ++ [dir];
     ScoopPackages := ScoopPackages s; CABundleHash := CABundleHash s;
     ShhhVersion := ShhhVersion s |}.

Definition AddScoopPackage (s : State) (pkg : string) : State :=
  if contains (ScoopPackages s) pkg then s else
  {| InstalledModules := InstalledModules s; LastRun := LastRun s;
     ManagedEnvVars := ManagedEnvVars s; ManagedPathEntries := ManagedPathEntries s;
     ScoopPackages := ScoopPackages s ++ [pkg]; CABundleHash := CABundleHash s;
     ShhhVersion := ShhhVersion s |}.

(** [saveState] of the setup command, with [now] for [time.Now()]; the
    following [state.Save] writes the file and is not modelled. *)
Definition saveState (st : State) (results : list ModuleResult) (now : Z) : State :=
  foldl (fun s r => match Err r with None => AddModule s (ModuleID r) | Some _ => s end)
    {| InstalledModules := InstalledModules st; LastRun := now;
       ManagedEnvVars := ManagedEnvVars st; ManagedPathEntries := ManagedPathEntries st;
       ScoopPackages := ScoopPackages st; CABundleHash := CABundleHash st;
       ShhhVersion := ShhhVersion st |}
    results.

Lemma contains_spec l x : contains l x = true <-> x ∈ l.
Proof.
  induction l as [|y l IH]; cbn.
  - split; [done|set_solver].
  - case_bool_decide as Hy; [subst; split; [set_solver|done]|].
    rewrite IH, elem_of_cons. naive_solver.
Qed.

(** Appending unless present, as the four [Add] functions do. *)
Lemma append_new_spec (l : list string) x :
  let l' := if contains l x then l else l ++ [x] in
  l `prefix_of` l' /\ (forall y, y ∈ l' <-> y ∈ l \/ y = x) /\ (NoDup l -> NoDup l').
Proof.
  cbn. destruct (contains l x) eqn:Hc.
  - apply contains_spec in Hc. split_and!; [done| |done]. intros y. naive_solver.
  - assert (Hx : x ∉ l) by (intros Hx; apply contains_spec in Hx; congruence).
    split_and!.
    + by apply prefix_app_r.
    + intros y. rewrite elem_of_app, list_elem_of_singleton. done.
    + intros Hnd. apply NoDup_app. split_and!; [done| |apply NoDup_singleton].
      intros y Hy Hy'. apply list_elem_of_singleton in Hy'. by subst.
Qed.

Definition ok_ids (results : list ModuleResult) : list string :=
  map ModuleID (filter (fun r => Err r = None) results).

Lemma saveState_spec st results now :
  let st' := saveState st results now in
  LastRun st' = now /\ ScoopPackages st' = ScoopPackages st /\
  ManagedEnvVars st' = ManagedEnvVars st /\ ManagedPathEntries st' = ManagedPathEntries st /\
  InstalledModules st `prefix_of` InstalledModules st' /\
  (forall x, x ∈ InstalledModules st' <-> x ∈ InstalledModules st \/ x ∈ ok_ids results) /\
  (NoDup (InstalledModules st) -> NoDup (InstalledModules st')).
Proof.
  unfold saveState, ok_ids. cbn.
  generalize (InstalledModules st) as l. intros l. revert l.
  induction results as [|r results IH]; intros l; cbn -[filter].
  - split_and!; try done. intros x. set_solver.
  - destruct (Err r) as [e|] eqn:He.
    + rewrite filter_cons_False by congruence. apply IH.
    + rewrite filter_cons_True by done. cbn -[filter].
      unfold AddModule. cbn -[filter].
      pose proof (append_new_spec l (ModuleID r)) as (Hp & Hm & Hn). cbn in Hp, Hm, Hn.
      destruct (contains l (ModuleID r)) eqn:Hc.
      * destruct (IH l) as (H1 & H2 & H3 & H4 & H5 & H6 & H7); cbn in *.
        split_and!; try done; try (intros x; rewrite H6; set_solver).
      * destruct (IH (l ++ [ModuleID r])) as (H1 & H2 & H3 & H4 & H5 & H6 & H7); cbn in *.
        split_and!; try done; try (intros x; rewrite H6, Hm; set_solver);
          try (intros Hnd; by apply H7, Hn); try (by trans (l ++ [ModuleID r])).
Qed.

(** The four [Add] functions treat their slice as a set. *)
Definition adds_as_set (get : State -> list string) (add : State -> string -> State) : Prop :=
  forall s x,
    get s `prefix_of` get (add s x) /\
    (forall y, y ∈ get (add s x) <-> y ∈ get s \/ y = x) /\
    (NoDup (get s) -> NoDup (get (add s x))) /\
    add (add s x) x = add s x.

Lemma contains_app_last l x : contains (l ++ [x]) x = true.
Proof. apply contains_spec. set_solver. Qed.

(** X7: each of [AddModule], [AddEnvVar], [AddPathEntry] and
    [AddScoopPackage] keeps its slice a set: it only appends, the slice
    afterwards holds the old entries and the new one, no duplicate is
    created, and adding the same entry again changes nothing. *)
Theorem Add_as_set :
  adds_as_set InstalledModules AddModule /\ adds_as_set ManagedEnvVars AddEnvVar /\
  adds_as_set ManagedPathEntries AddPathEntry /\ adds_as_set ScoopPackages AddScoopPackage.
Proof.
  split_and!; intros s x;
    [pose proof (append_new_spec (InstalledModules s) x) as Hs; unfold AddModule
    |pose proof (append_new_spec (ManagedEnvVars s) x) as Hs; unfold AddEnvVar
    |pose proof (append_new_spec (ManagedPathEntries s) x) as Hs; unfold AddPathEntry
    |pose proof (append_new_spec (ScoopPackages s) x) as Hs; unfold AddScoopPackage];
    cbn in Hs; destruct (contains _ x) eqn:Hc; cbn;
    (split; [apply Hs|split; [apply Hs|split; [apply Hs|]]]);
    rewrite ?Hc, ?contains_app_last; done.
Qed.

Lemma prefix_topo_closed r l p x d :
  topo r l -> p `prefix_of` l -> x ∈ p -> d ∈ deps r x -> d ∈ p.
Proof.
  intros Htopo Hp Hx Hd.
  apply list_elem_of_lookup in Hx as [i Hi].
  destruct (Htopo i x (prefix_lookup_Some _ _ _ _ Hi Hp) d Hd) as (j & Hj & Hl).
  pose proof (lookup_lt_Some _ _ _ Hi).
  rewrite <- (prefix_lookup_lt p l j) in Hl by (done || lia).
  by eapply list_elem_of_lookup_2.
Qed.

Lemma ok_ids_all results :
  Forall (fun res => Err res = None) results -> ok_ids results = map ModuleID results.
Proof.
  unfold ok_ids. induction 1 as [|res results Hr _ IH]; [done|].
  rewrite filter_cons_True by done. cbn. by rewrite IH.
Qed.

Lemma ok_ids_last pre last e :
  Forall (fun res => Err res = None) pre -> Err last = Some e ->
  ok_ids (pre ++ [last]) = map ModuleID pre.
Proof.
  intros Hall He. rewrite <- (ok_ids_all pre Hall). unfold ok_ids.
  rewrite filter_app, (filter_singleton_False _ last []) by congruence. by rewrite app_nil_r.
Qed.

(** The IDs [saveState] records after [RunModules] on a resolved order: a
    prefix of it, and all of it in dry run. *)
Lemma run_modules_ok_ids (h : Oracle) dry ms ids sorted :
  ResolveDeps (build ms) ids = Ok sorted ->
  let '((results, err), tr) := interp h (run_modules (traced dry) (build ms) sorted []) [] in
  ok_ids results `prefix_of` sorted /\ (dry = true -> ok_ids results = sorted).
Proof.
  intros Hres.
  assert (Hreg : forall id, id ∈ sorted -> is_Some (Get (build ms) id)).
  { intros id Hid.
    apply (ResolveDeps_with_ok_registered (build ms) (build_wf ms) elements elements
             elements_perm elements_perm ids sorted Hres id Hid). }
  destruct (run_modules_exec h dry (build ms) sorted (build_wf ms) Hreg [] [])
    as (results & err & tr & Hi & Hpre & Hnone & Hsome & _).
  cbn in Hi. rewrite Hi.
  destruct err as [e|].
  - destruct (Hsome e eq_refl) as (pre & last & -> & Hall & Hl).
    rewrite (ok_ids_last pre last e Hall Hl). split.
    + rewrite map_app in Hpre. by eapply prefix_app_l.
    + intros ->. exfalso.
      destruct (run_modules_err h true (build ms) sorted [] [] _ _ _ Hi e eq_refl)
        as [(x & _ & Hx & Hn)|[Hd _]]; [|done].
      destruct (Hreg x Hx) as [m Hm]. congruence.
  - destruct (Hnone eq_refl) as [Hm Hall]. rewrite (ok_ids_all _ Hall), Hm. done.
Qed.

(** X8: [saveState] sets [LastRun], leaves the other managed lists alone
    and appends to [InstalledModules] the IDs of the results without error
    that were not recorded yet: the old list is a prefix of the new one,
    which holds exactly the old IDs and those, and no duplicate is
    created. *)
Theorem saveState_records st results now :
  let st' := saveState st results now in
  LastRun st' = now /\ ScoopPackages st' = ScoopPackages st /\
  ManagedEnvVars st' = ManagedEnvVars st /\ ManagedPathEntries st' = ManagedPathEntries st /\
  InstalledModules st `prefix_of` InstalledModules st' /\
  (forall x, x ∈ InstalledModules st' <-> x ∈ InstalledModules st \/ x ∈ ok_ids results) /\
  (NoDup (InstalledModules st) -> NoDup (InstalledModules st')).
Proof. apply saveState_spec. Qed.

(** X9: the state [saveState] writes after [RunModules] on a built
    registry: a module it newly records as installed has every dependency
    recorded as installed; after a dry run (which runs no step) it records
    every module of the resolved order; and when resolution fails it
    records none. *)
Theorem saveState_RunModules (h : Oracle) dry ms ids st now :
  let '((results, err), tr) := interp h (RunModules (traced dry) (build ms) ids) [] in
  let st' := saveState st results now in
  (forall x, x ∈ InstalledModules st' -> x ∉ InstalledModules st ->
     forall d, d ∈ deps (build ms) x -> d ∈ InstalledModules st') /\
  (forall sorted, ResolveDeps (build ms) ids = Ok sorted -> dry = true ->
     forall x, x ∈ InstalledModules st' <-> x ∈ InstalledModules st \/ x ∈ sorted) /\
  (forall e, ResolveDeps (build ms) ids = Error e -> InstalledModules st' = InstalledModules st).
Proof.
  unfold RunModules. destruct (ResolveDeps (build ms) ids) as [sorted|e0] eqn:Hres.
  - pose proof (run_modules_ok_ids h dry ms ids sorted Hres) as Hok.
    destruct (interp h (run_modules (traced dry) (build ms) sorted []) [])
      as [[results err] tr] eqn:Hi.
    destruct Hok as [Hpre Hdry].
    destruct (saveState_spec st results now) as (_ & _ & _ & _ & _ & Hmem & _).
    cbn zeta. split_and!.
    + intros x Hx Hnew d Hd. apply Hmem. right.
      apply Hmem in Hx as [Hx|Hx]; [done|].
      destruct (ResolveDeps_with_ok (build ms) (build_wf ms) elements elements
                  elements_perm elements_perm ids sorted Hres) as (_ & _ & Htopo).
      by eapply prefix_topo_closed.
    + intros sorted' [= <-] Hd x. rewrite Hmem, (Hdry Hd). done.
    + done.
  - cbn zeta. split_and!.
    + intros x Hx Hnew. done.
    + done.
    + intros e _. done.
Qed.

(* ------------------------------------------------------------------ *)
(** ** The wizard's progress and summary screens *)

(** [ProgressModel] of [bridge.go]. Its styles, spinner, explain panel and
    window size only affect rendering and are not modelled. *)
Module Progress.

Inductive stepState := stepPending | stepRunning | stepDone | stepSkipped | stepFailed.

Record stepStatus := {
  name : string;
  explain : string;
  state : stepState;
  err : option error
}.

Record ProgressModel := {
  showExplain : bool;
  currentModule : string;
  steps : list stepStatus;
  currentStep : nat;
  overallDone : nat;
  overallTotal : nat
}.

Definition NewProgressModel (showExplain : bool) : ProgressModel :=
  {| showExplain := showExplain; currentModule := ""; steps := []; currentStep := 0;
     overallDone := 0; overallTotal := 0 |}.

Definition set_state (s : stepState) (st : stepStatus) : stepStatus :=
  {| name := name st; explain := explain st; state := s; err := err st |}.

Definition set_failed (e : error) (st : stepStatus) : stepStatus :=
  {| name := name st; explain := explain st; state := stepFailed; err := Some e |}.

(** [ProgressModel.Update] on the bridge's messages ([AllDoneMsg] and
    [RunErrorMsg] match none of its cases). *)
Definition Update (m : ProgressModel) (msg : Msg) : ProgressModel :=
  match msg with
  | ModuleStartMsg _ nm ss =>
      {| showExplain := showExplain m; currentModule := nm;
         steps := map (fun s => {| name := Name s; explain := Explain s;
                                   state := stepPending; err := None |}) ss;
         currentStep := 0; overallDone := overallDone m; overallTotal := overallTotal m |}
  | StepStartMsg _ _ _ i _ =>
      if decide (i < length (steps m)) then
        {| showExplain := showExplain m; currentModule := currentModule m;
           steps := alter (set_state stepRunning) i (steps m);
           currentStep := i; overallDone := overallDone m; overallTotal := overallTotal m |}
      else m
  | StepDoneMsg _ _ i _ sk =>
      if decide (i < length (steps m)) then
        {| showExplain := showExplain m; currentModule := currentModule m;
           steps := alter (set_state (if sk then stepSkipped else stepDone)) i (steps m);
           currentStep := currentStep m; overallDone := S (overallDone m);
           overallTotal := overallTotal m |}
      else m
  | StepErrorMsg _ _ i _ e =>
      if decide (i < length (steps m)) then
        {| showExplain := showExplain m; currentModule := currentModule m;
           steps := alter (set_failed e) i (steps m);
           currentStep := currentStep m; overallDone := S (overallDone m);
           overallTotal := overallTotal m |}
      else m
  | AllDoneMsg _ | RunErrorMsg _ => m
  end.

Definition SetOverallTotal (m : ProgressModel) (n : nat) : ProgressModel :=
  {| showExplain := showExplain m; currentModule := currentModule m; steps := steps m;
     currentStep := currentStep m; overallDone := overallDone m; overallTotal := n |}.

End Progress.

(** [SummaryModel] of [summary.go], without styles and window size. *)
Module Summary.

Record SummaryModel := {
  results : list ModuleResult;
  err : option error   (** runner-level error *)
}.

Definition NewSummaryModel : SummaryModel := {| results := []; err := None |}.

Definition SetResults (m : SummaryModel) (rs : list ModuleResult) : SummaryModel :=
  {| results := rs; err := err m |}.

Definition SetError (m : SummaryModel) (e : error) : SummaryModel :=
  {| results := results m; err := Some e |}.

Definition HasError (m : SummaryModel) : bool :=
  match err m with
  | Some _ => true
  | None => existsb (fun r => match Err r with Some _ => true | None => false end) (results m)
  end.

End Summary.

Inductive screen := screenPicker | screenProgress | screenSummary.

(** [WizardModel] of [wizard.go]: the picker, bridge, runner, styles and
    window size are not modelled. *)
Record WizardModel := {
  m_screen : screen;      (** [screen]; [m_dryRun] is [dryRun] *)
  progress : Progress.ProgressModel;
  summary : Summary.SummaryModel;
  registry : Registry;
  explain : bool;
  m_dryRun : bool
}.

Definition New (reg : Registry) (explain dryRun : bool) : WizardModel :=
  {| m_screen := screenPicker; progress := Progress.NewProgressModel explain;
     summary := Summary.NewSummaryModel; registry := reg; explain := explain;
     m_dryRun := dryRun |}.

(** One iteration of the [for _, id := range resolved] loop of [updatePicker]. *)
Definition add_steps (reg : Registry) (total : nat) (id : string) : nat :=
  match Get reg id with
  | Some md => total + length (Steps md)
  | None => total
  end.

(** [updatePicker] on [PickerConfirmMsg]: switch to the progress screen and
    set the overall total; starting the bridge is the returned command. *)
Definition updatePicker_confirm (m : WizardModel) (ids : list string) : WizardModel :=
  let resolved := match ResolveDeps (registry m) ids with
                  | Ok l => l
                  | Error _ => ids
                  end in
  let total := foldl (add_steps (registry m)) 0 resolved in
  {| m_screen := screenProgress;
     progress := Progress.SetOverallTotal (progress m) total;
     summary := summary m; registry := registry m; explain := explain m;
     m_dryRun := m_dryRun m |}.

(** [updateProgress] on the bridge's messages. *)
Definition updateProgress (m : WizardModel) (msg : Msg) : WizardModel :=
  match msg with
  | AllDoneMsg rs =>
      {| m_screen := screenSummary; progress := progress m;
         summary := Summary.SetResults (summary m) rs; registry := registry m;
         explain := explain m; m_dryRun := m_dryRun m |}
  | RunErrorMsg e =>
      {| m_screen := screenSummary; progress := progress m;
         summary := Summary.SetError (summary m) e; registry := registry m;
         explain := explain m; m_dryRun := m_dryRun m |}
  | _ =>
      {| m_screen := m_screen m; progress := Progress.Update (progress m) msg;
         summary := summary m; registry := registry m;
         explain := explain m; m_dryRun := m_dryRun m |}
  end.

(** [WizardModel.Update] on the bridge's messages once the picker has been
    confirmed: [updateProgress] on the progress screen; on the summary
    screen [SummaryModel.Update] only reacts to keys and window sizes. The
    picker screen is never entered again and is not modelled: feeding stops
    there. *)
Fixpoint feed (m : WizardModel) (msgs : list Msg) : WizardModel :=
  match msgs with
  | [] => m
  | msg :: rest =>
      match m_screen m with
      | screenProgress => feed (updateProgress m msg) rest
      | screenSummary => feed m rest
      | screenPicker => m
      end
  end.

(* ------------------------------------------------------------------ *)

Lemma foldl_add_steps reg l t : foldl (add_steps reg) t l = t + foldl (add_steps reg) 0 l.
Proof.
  revert t. induction l as [|id l IH]; intros t; cbn; [lia|].
  rewrite (IH (add_steps reg t id)), (IH (add_steps reg 0 id)).
  unfold add_steps. destruct (Get reg id); lia.
Qed.

Lemma Update_counts p msg :
  let p' := Progress.Update p msg in
  length (Progress.steps p') =
    match msg with ModuleStartMsg _ _ ss => length ss | _ => length (Progress.steps p) end /\
  Progress.overallTotal p' = Progress.overallTotal p /\
  Progress.overallDone p' = Progress.overallDone p +
    match msg with
    | StepDoneMsg _ _ i _ _ | StepErrorMsg _ _ i _ _ =>
        if decide (i < length (Progress.steps p)) then 1 else 0
    | _ => 0
    end.
Proof.
  destruct msg; cbn; rewrite ?length_map; try (split_and!; try done; lia);
    destruct (decide _); cbn; rewrite ?length_alter; split_and!; try done; lia.
Qed.

(** Messages of one module's steps, fed to the progress model whose step
    list has the module's length. *)
Lemma steps_ok_progress m total i ss msgs f (p : Progress.ProgressModel) :
  steps_ok m total i ss msgs f ->
  length (Progress.steps p) = i + length ss ->
  let p' := foldl Progress.Update p msgs in
  length (Progress.steps p') = length (Progress.steps p) /\
  Progress.overallTotal p' = Progress.overallTotal p /\
  Progress.overallDone p <= Progress.overallDone p' <= Progress.overallDone p + length ss /\
  (f = false -> Progress.overallDone p' = Progress.overallDone p + length ss).
Proof.
  intros Hok. revert p. induction Hok as [i|i st rest sk msgs f Hok IH|i st rest e];
    intros p Hlen; cbn [foldl length] in *.
  - split_and!; try done; try lia.
  - set (p1 := Progress.Update p _).
    destruct (Update_counts p (StepStartMsg (ID m) (Name st) (Explain st) i total))
      as (A1 & A2 & A3).
    set (p2 := Progress.Update p1 _).
    destruct (Update_counts p1 (StepDoneMsg (ID m) (Name st) i total sk))
      as (B1 & B2 & B3).
    fold p1 p2 in A1, A2, A3, B1, B2, B3.
    rewrite A1, decide_True in B3 by lia.
    destruct (IH p2) as (H1 & H2 & H3 & H4); [lia|].
    split_and!; try lia. intros Hf. specialize (H4 Hf). lia.
  - set (p1 := Progress.Update p _).
    destruct (Update_counts p (StepStartMsg (ID m) (Name st) (Explain st) i total))
      as (A1 & A2 & A3).
    set (p2 := Progress.Update p1 _).
    destruct (Update_counts p1 (StepErrorMsg (ID m) (Name st) i total e))
      as (B1 & B2 & B3).
    fold p1 p2 in A1, A2, A3, B1, B2, B3.
    rewrite A1, decide_True in B3 by lia.
    split_and!; try lia; intros [=].
Qed.

(** The [Step*] messages of a run of modules leave the wizard on the
    progress screen. *)
Definition step_msg (msg : Msg) : bool :=
  match msg with
  | AllDoneMsg _ | RunErrorMsg _ => false
  | _ => true
  end.

Lemma feed_progress w msgs :
  m_screen w = screenProgress -> forallb step_msg msgs = true ->
  feed w msgs =
    {| m_screen := screenProgress; progress := foldl Progress.Update (progress w) msgs;
       summary := summary w; registry := registry w; explain := explain w;
       m_dryRun := m_dryRun w |}.
Proof.
  revert w. induction msgs as [|msg msgs IH]; intros w Hs Hall; cbn.
  - destruct w; cbn in *; by subst.
  - rewrite Hs. cbn in Hall. apply andb_prop in Hall as [Hm Hall].
    rewrite IH; [|by destruct msg|done]. by destruct msg.
Qed.

Lemma steps_ok_step_msg m total i ss msgs f :
  steps_ok m total i ss msgs f -> forallb step_msg msgs = true.
Proof. induction 1; cbn; auto. Qed.

Lemma mods_ok_progress r l body results (p : Progress.ProgressModel) :
  mods_ok r l body results ->
  let p' := foldl Progress.Update p body in
  forallb step_msg body = true /\
  Progress.overallTotal p' = Progress.overallTotal p /\
  Progress.overallDone p <= Progress.overallDone p' <=
    Progress.overallDone p + foldl (add_steps r) 0 l /\
  (Forall (fun res => Err res = None) results ->
   Progress.overallDone p' = Progress.overallDone p + foldl (add_steps r) 0 l).
Proof.
  intros Hok. revert p.
  induction Hok as [|id rest m msgs body res results Hg Hs Hid He Hok IH
                   |id rest m msgs res e Hg Hs Hid He]; intros p; cbn zeta.
  - cbn. split_and!; try done; lia.
  - assert (Ha : add_steps r 0 id = length (Steps m)) by (unfold add_steps; by rewrite Hg).
    cbn [foldl forallb]. rewrite forallb_app, foldl_app.
    rewrite (foldl_add_steps r rest (add_steps r 0 id)), Ha.
    set (p1 := Progress.Update p (ModuleStartMsg (ID m) (MName m) (Steps m))).
    destruct (Update_counts p (ModuleStartMsg (ID m) (MName m) (Steps m)))
      as (A1 & A2 & A3). fold p1 in A1, A2, A3.
    destruct (steps_ok_progress _ _ _ _ _ _ p1 Hs) as (H1 & H2 & H3 & H4); [done|].
    destruct (IH (foldl Progress.Update p1 msgs)) as (G1 & G2 & G3 & G4).
    cbn zeta in H1, H2, H3, H4, G1, G2, G3, G4.
    rewrite (steps_ok_step_msg _ _ _ _ _ _ Hs), G1.
    split_and!; try done; try lia.
    intros Hall. inversion Hall; subst. rewrite G4 by done. rewrite H4 by done. lia.
  - assert (Ha : add_steps r 0 id = length (Steps m)) by (unfold add_steps; by rewrite Hg).
    cbn [foldl forallb].
    rewrite (foldl_add_steps r rest (add_steps r 0 id)), Ha.
    set (p1 := Progress.Update p (ModuleStartMsg (ID m) (MName m) (Steps m))).
    destruct (Update_counts p (ModuleStartMsg (ID m) (MName m) (Steps m)))
      as (A1 & A2 & A3). fold p1 in A1, A2, A3.
    destruct (steps_ok_progress _ _ _ _ _ _ p1 Hs) as (H1 & H2 & H3 & H4); [done|].
    cbn zeta in H1, H2, H3, H4. rewrite (steps_ok_step_msg _ _ _ _ _ _ Hs).
    split_and!; try done; try lia.
    intros Hall. inversion Hall; subst. congruence.
Qed.

Lemma feed_app w l1 l2 : feed w (l1 ++ l2) = feed (feed w l1) l2.
Proof.
  revert w. induction l1 as [|msg l1 IH]; intros w; [done|]. cbn.
  destruct (m_screen w) eqn:Hs; [|apply IH|apply IH].
  destruct l2; cbn; [done|]. by rewrite Hs.
Qed.

Lemma HasError_results rs :
  Summary.HasError {| Summary.results := rs; Summary.err := None |} = false ->
  Forall (fun res => Err res = None) rs.
Proof.
  unfold Summary.HasError; cbn. induction rs as [|r rs IH]; cbn; [done|].
  destruct (Err r) eqn:He; [done|]. intros H. constructor; [done|]. by apply IH.
Qed.

(** X10: the wizard fed the messages of a bridge run that was not cancelled,
    read until [NextMsg] returned nil, ends on the summary screen; the
    progress count never exceeds the total computed when the picker was
    confirmed, and it reaches that total unless the summary reports an
    error. *)
Theorem wizard_uncancelled_run dry ms ids c msgs explain dryRun :
  rtc bstep (bridge_init (bridge_runner dry) (build ms) ids) c ->
  cancelled c = false -> recvd c = map Some msgs ++ [None] ->
  let w := feed (updatePicker_confirm (New (build ms) explain dryRun) ids) msgs in
  m_screen w = screenSummary /\
  Progress.overallDone (progress w) <= Progress.overallTotal (progress w) /\
  (Summary.HasError (summary w) = false ->
   Progress.overallDone (progress w) = Progress.overallTotal (progress w)).
Proof.
  intros Hr Hc Hrecv. pose proof (bridge_stream_uncancelled dry ms ids c msgs Hr Hc Hrecv) as Hs.
  unfold stream_ok in Hs. unfold updatePicker_confirm. cbn [registry New].
  destruct (ResolveDeps (build ms) ids) as [sorted|e] eqn:Hres.
  - destruct Hs as (body & results & -> & Hmods).
    destruct (mods_ok_progress _ _ _ _ (Progress.SetOverallTotal (Progress.NewProgressModel explain)
                                  (foldl (add_steps (build ms)) 0 sorted)) Hmods)
      as (H1 & H2 & H3 & H4).
    cbn zeta. rewrite feed_app, (feed_progress _ body); [|done|done]. cbn.
    cbn in H1, H2, H3, H4. rewrite H2.
    split_and!; [done|lia|]. intros Hne. apply H4. by apply HasError_results.
  - subst msgs. cbn. split_and!; [done|lia|done].
Qed.

Lemma wizard_uncancelled_run_witness :
  rtc bstep (bridge_init (bridge_runner false) (build ex_mods) ["A"]) ex_cfg /\
  cancelled ex_cfg = false /\ recvd ex_cfg = map Some ex_msgs ++ [None] /\
  let w := feed (updatePicker_confirm (New (build ex_mods) false false) ["A"]) ex_msgs in
  m_screen w = screenSummary /\
  Progress.overallDone (progress w) <= Progress.overallTotal (progress w) /\
  (Summary.HasError (summary w) = false ->
   Progress.overallDone (progress w) = Progress.overallTotal (progress w)).
Proof.
  assert (H1 : rtc bstep (bridge_init (bridge_runner false) (build ex_mods) ["A"]) ex_cfg)
    by (apply run_sched_sound with
          (chs := [CDeliver; CDeliver; CCall true None; CDeliver; CDeliver; CCall false None;
                   CDeliver; CDeliver; CExit; CRecv; CRecv; CRecv; CRecv; CRecv; CRecv;
                   CRecvEnd]); vm_compute; reflexivity).
  assert (H2 : cancelled ex_cfg = false) by (vm_compute; reflexivity).
  assert (H3 : recvd ex_cfg = map Some ex_msgs ++ [None]) by (vm_compute; reflexivity).
  split_and!; [exact H1|exact H2|exact H3|].
  apply (wizard_uncancelled_run false ex_mods ["A"] ex_cfg ex_msgs false false H1 H2 H3).
Defined.

(* ------------------------------------------------------------------ *)
(** ** [exec.MockRunner] and [scoopInstallStep] *)

(** [exec.Result]. *)
Record Result := {
  Stdout : string;
  Stderr : string;
  ExitCode : Z
}.

(** The errors [MockRunner.Run] returns. *)
Inductive cmd_error :=
  | CmdExited (key : string) (code : Z)   (** "command %q exited with code %d" *)
  | CmdUnexpected (key : string).         (** "unexpected command: %q" *)

Record MockRunner := {
  Results : gmap string Result;
  Calls : list string
}.

(** Go's [strings.Join]. *)
Fixpoint Join (elems : list string) (sep : string) : string :=
  match elems with
  | [] => ""
  | [e] => e
  | e :: rest => e +:+ sep +:+ Join rest sep
  end.

(** [MockRunner.Run]: the updated mock is returned with the result. *)
Definition MockRun (m : MockRunner) (name : string) (args : list string)
    : (Result * option cmd_error) * MockRunner :=
  let key := match args with [] => name | _ :: _ => name +:+ " " +:+ Join args " " end in
  let m' := {| Results := Results m; Calls := Calls m ++ [key] |} in
  match Results m !! key with
  | Some result =>
      if decide (ExitCode result = 0%Z) then ((result, None), m')
      else ((result, Some (CmdExited key (ExitCode result))), m')
  | None => (({| Stdout := ""; Stderr := ""; ExitCode := 0 |}, Some (CmdUnexpected key)), m')
  end.

(** Go's [strings.Contains s substr]: [substr] occurs in [s]. *)
Fixpoint Contains (s substr : string) : bool :=
  String.prefix substr s ||
  match s with
  | EmptyString => false
  | String _ s' => Contains s' substr
  end.

(** The error of [scoopInstallStep]'s [Run]: "installing %s: %w". *)
Inductive install_error := Installing (tool : string) (e : cmd_error).

(** [Check] of [scoopInstallStep], with [deps.Exec] a [MockRunner]. *)
Definition scoop_Check (m : MockRunner) (tools : list string) : bool * MockRunner :=
  let '((result, err), m') := MockRun m "scoop" ["list"] in
  match err with
  | Some _ => (false, m')
  | None => (forallb (fun tool => Contains (Stdout result) tool) tools, m')
  end.

(** The [for _, tool := range tools] loop of [Run]. *)
Fixpoint scoop_install_loop (installed : string) (tools : list string)
    (m : MockRunner) (st : State) : option install_error * MockRunner * State :=
  match tools with
  | [] => (None, m, st)
  | tool :: rest =>
      if Contains installed tool then scoop_install_loop installed rest m st
      else
        let '((_, err), m') := MockRun m "scoop" ["install"; tool] in
        match err with
        | Some e => (Some (Installing tool e), m', st)
        | None => scoop_install_loop installed rest m' (AddScoopPackage st tool)
        end
  end.

(** [Run] of [scoopInstallStep], with [deps.Exec] a [MockRunner] and
    [deps.State] the state. *)
Definition scoop_Run (m : MockRunner) (st : State) (tools : list string)
    : option install_error * MockRunner * State :=
  let '((result, err), m1) := MockRun m "scoop" ["list"] in
  let installed := match err with None => Stdout result | Some _ => "" end in
  scoop_install_loop installed tools m1 st.

(* ------------------------------------------------------------------ *)

(** The listing [Run] reads from the mock. *)
Definition mock_listing (m : MockRunner) : string :=
  match Results m !! "scoop list" with
  | Some r => if decide (ExitCode r = 0%Z) then Stdout r else ""
  | None => ""
  end.

(** The mock answers [scoop install tool] successfully. *)
Definition install_ok (res : gmap string Result) (tool : string) : bool :=
  match res !! ("scoop install " +:+ tool) with
  | Some r => bool_decide (ExitCode r = 0%Z)
  | None => false
  end.

(** The error the mock returns for a failing [scoop install tool]. *)
Definition install_err (res : gmap string Result) (tool : string) : cmd_error :=
  let key := "scoop install " +:+ tool in
  match res !! key with
  | Some r => CmdExited key (ExitCode r)
  | None => CmdUnexpected key
  end.

Lemma AddScoopPackage_elem st tool : forall y,
  y ∈ ScoopPackages (AddScoopPackage st tool) <-> y ∈ ScoopPackages st \/ y = tool.
Proof.
  pose proof (append_new_spec (ScoopPackages st) tool) as (_ & Hm & _).
  unfold AddScoopPackage. cbn in Hm. destruct (contains _ tool); cbn; apply Hm.
Qed.

Lemma MockRun_install m tool :
  let '((_, err), m') := MockRun m "scoop" ["install"; tool] in
  Results m' = Results m /\ Calls m' = Calls m ++ ["scoop install " +:+ tool] /\
  (err = None <-> install_ok (Results m) tool = true) /\
  (forall e, err = Some e -> e = install_err (Results m) tool).
Proof.
  unfold MockRun, install_ok, install_err. cbn.
  destruct (Results m !! _) as [r|]; cbn; [|split_and!; try done; naive_solver].
  case_decide as Hc; cbn; rewrite ?bool_decide_true, ?bool_decide_false by done;
    split_and!; try done; naive_solver.
Qed.

Lemma scoop_install_loop_spec installed tools : forall m st,
  let '(err, m', st') := scoop_install_loop installed tools m st in
  let missing := filter (fun t => Contains installed t = false) tools in
  Results m' = Results m /\
  (err = None ->
     Forall (fun t => install_ok (Results m) t = true) missing /\
     Calls m' = Calls m ++ map (fun t => "scoop install " +:+ t) missing /\
     forall y, y ∈ ScoopPackages st' <-> y ∈ ScoopPackages st \/ y ∈ missing) /\
  (forall e, err = Some e -> exists pre t post,
     missing = pre ++ t :: post /\
     Forall (fun t => install_ok (Results m) t = true) pre /\ install_ok (Results m) t = false /\
     e = Installing t (install_err (Results m) t) /\
     Calls m' = Calls m ++ map (fun t => "scoop install " +:+ t) (pre ++ [t]) /\
     forall y, y ∈ ScoopPackages st' <-> y ∈ ScoopPackages st \/ y ∈ pre).
Proof.
  induction tools as [|tool rest IH]; intros m st; cbn -[filter].
  - split_and!; try done.
    + intros _. split_and!; [done|by rewrite app_nil_r|set_solver].
  - destruct (Contains installed tool) eqn:Hc.
    + rewrite filter_cons_False by congruence. apply IH.
    + rewrite filter_cons_True by done.
      pose proof (MockRun_install m tool) as Hm.
      destruct (MockRun m "scoop" ["install"; tool]) as [[res err0] m1].
      destruct Hm as (HR & HC & Hok & Herr).
      destruct err0 as [e0|].
      * split_and!; [done|done|]. intros e [= <-].
        exists [], tool, (filter (fun t => Contains installed t = false) rest).
        split_and!; try done.
        -- destruct (install_ok (Results m) tool) eqn:E; [|done]. try rewrite E in Hok. naive_solver.
        -- by rewrite (Herr e0 eq_refl).
        -- set_solver.
      * specialize (IH m1 (AddScoopPackage st tool)).
        destruct (scoop_install_loop installed rest m1 (AddScoopPackage st tool))
          as [[err m'] st'].
        destruct IH as (G1 & G2 & G3).
        pose proof (AddScoopPackage_elem st tool) as Hmem.
        assert (Hi : install_ok (Results m) tool = true) by (by apply Hok).
        split_and!.
        -- congruence.
        -- intros ->. destruct (G2 eq_refl) as (F1 & F2 & F3). split_and!.
           ++ constructor; [done|]. by rewrite <- HR.
           ++ rewrite F2, HC, <- app_assoc. f_equal.
           ++ intros y. rewrite F3, Hmem. set_solver.
        -- intros e He. destruct (G3 e He) as (pre & t & post & Hmiss & Hpre & Ht & -> & Hcalls & Hst).
           exists (tool :: pre), t, post. split_and!.
           ++ by rewrite Hmiss.
           ++ constructor; [done|]. by rewrite <- HR.
           ++ by rewrite <- HR.
           ++ by rewrite <- HR.
           ++ rewrite Hcalls, HC, <- app_assoc. done.
           ++ intros y. rewrite Hst, Hmem. set_solver.
Qed.

Lemma MockRun_eq m name args :
  MockRun m name args =
    let key := Join (name :: args) " " in
    let m' := {| Results := Results m; Calls := Calls m ++ [key] |} in
    match Results m !! key with
    | Some result =>
        if decide (ExitCode result = 0%Z) then ((result, None), m')
        else ((result, Some (CmdExited key (ExitCode result))), m')
    | None => (({| Stdout := ""; Stderr := ""; ExitCode := 0 |}, Some (CmdUnexpected key)), m')
    end.
Proof. by destruct args. Qed.

(** X12: [Run] of [scoopInstallStep] against a [MockRunner] lists the
    installed packages once, then calls [scoop install] for the tools the
    listing does not contain, in order, stopping at the first failing
    one. It succeeds exactly when every such tool installs; it then records
    exactly those tools as Scoop packages, and on a failure it returns the
    "installing" error of the failing tool and has recorded the tools
    installed before it. The mock's results are unchanged. *)
Theorem scoop_Run_spec m st tools :
  let missing := filter (fun t => Contains (mock_listing m) t = false) tools in
  let '(err, m', st') := scoop_Run m st tools in
  Results m' = Results m /\
  (err = None <-> Forall (fun t => install_ok (Results m) t = true) missing) /\
  (err = None ->
     Calls m' = Calls m ++ "scoop list" :: map (fun t => "scoop install " +:+ t) missing /\
     forall y, y ∈ ScoopPackages st' <-> y ∈ ScoopPackages st \/ y ∈ missing) /\
  (forall e, err = Some e -> exists pre t post,
     missing = pre ++ t :: post /\
     Forall (fun t => install_ok (Results m) t = true) pre /\ install_ok (Results m) t = false /\
     e = Installing t (install_err (Results m) t) /\
     Calls m' = Calls m ++ "scoop list" :: map (fun t => "scoop install " +:+ t) (pre ++ [t]) /\
     forall y, y ∈ ScoopPackages st' <-> y ∈ ScoopPackages st \/ y ∈ pre).
Proof.
  unfold scoop_Run. rewrite MockRun_eq. cbv zeta.
  change (Join ["scoop"; "list"] " ") with "scoop list".
  assert (Hgen : forall installed,
    installed = mock_listing m ->
    let missing := filter (fun t => Contains (mock_listing m) t = false) tools in
    let '(err, m', st') := scoop_install_loop installed tools
                             {| Results := Results m; Calls := Calls m ++ ["scoop list"] |} st in
    Results m' = Results m /\
    (err = None <-> Forall (fun t => install_ok (Results m) t = true) missing) /\
    (err = None ->
       Calls m' = Calls m ++ "scoop list" :: map (fun t => "scoop install " +:+ t) missing /\
       forall y, y ∈ ScoopPackages st' <-> y ∈ ScoopPackages st \/ y ∈ missing) /\
    (forall e, err = Some e -> exists pre t post,
       missing = pre ++ t :: post /\
       Forall (fun t => install_ok (Results m) t = true) pre /\ install_ok (Results m) t = false /\
       e = Installing t (install_err (Results m) t) /\
       Calls m' = Calls m ++ "scoop list" :: map (fun t => "scoop install " +:+ t) (pre ++ [t]) /\
       forall y, y ∈ ScoopPackages st' <-> y ∈ ScoopPackages st \/ y ∈ pre)).
  { intros installed -> missing.
    pose proof (scoop_install_loop_spec (mock_listing m) tools
                  {| Results := Results m; Calls := Calls m ++ ["scoop list"] |} st) as H.
    destruct (scoop_install_loop _ _ _ _) as [[err m'] st'].
    cbn in H. destruct H as (H1 & H2 & H3). split_and!.
    - done.
    - split; [intros ->; apply (H2 eq_refl)|].
      intros Hall. destruct err as [e|]; [|done]. exfalso.
      destruct (H3 e eq_refl) as (pre & t & post & Hmiss & _ & Ht & _).
      fold missing in Hmiss. rewrite Hmiss, Forall_app, Forall_cons in Hall.
      destruct Hall as (_ & Ht' & _). congruence.
    - intros ->. destruct (H2 eq_refl) as (_ & F2 & F3). split; [|done].
      by rewrite F2, <- app_assoc.
    - intros e He. destruct (H3 e He) as (pre & t & post & G1 & G2 & G3 & G4 & G5 & G6).
      exists pre, t, post. split_and!; try done. by rewrite G5, <- app_assoc. }
  destruct (Results m !! "scoop list") as [r|] eqn:Hr; [case_decide|]; cbv beta iota;
    apply Hgen; unfold mock_listing; rewrite Hr; try case_decide; done.
Qed.

Lemma scoop_install_loop_contained installed tools m st :
  forallb (fun t => Contains installed t) tools = true ->
  scoop_install_loop installed tools m st = (None, m, st).
Proof.
  induction tools as [|t tools IH]; cbn; [done|].
  intros Hall. apply andb_prop in Hall as [Ht Hall]. rewrite Ht. by apply IH.
Qed.

(** X13: when [Check] of [scoopInstallStep] returns true against a
    [MockRunner], [Run] on the same mock lists the packages once more and
    does nothing else: no [scoop install] call, no error, the state
    unchanged. *)
Theorem scoop_Check_Run m st tools :
  let '(ok, m1) := scoop_Check m tools in
  ok = true ->
  scoop_Run m1 st tools =
    (None, {| Results := Results m; Calls := Calls m ++ ["scoop list"; "scoop list"] |}, st).
Proof.
  unfold scoop_Check, scoop_Run. rewrite !MockRun_eq. cbv zeta.
  change (Join ["scoop"; "list"] " ") with "scoop list". cbn [Results Calls].
  destruct (Results m !! "scoop list") as [r|] eqn:Hr; [|discriminate].
  case_decide as Hc; [|discriminate]. cbv beta iota. intros Hall.
  rewrite MockRun_eq. cbv zeta.
  change (Join ["scoop"; "list"] " ") with "scoop list". cbn [Results Calls].
  rewrite Hr, decide_True by done. cbv beta iota.
  rewrite scoop_install_loop_contained by done. by rewrite <- app_assoc.
Qed.

Definition empty_state : State :=
  {| InstalledModules := []; LastRun := 0; ManagedEnvVars := []; ManagedPathEntries := [];
     ScoopPackages := []; CABundleHash := ""; ShhhVersion := "" |}.

(** A mock whose [scoop list] shows [git] and [7zip]. *)
Definition scoop_mock : MockRunner :=
  {| Results := {["scoop list" := {| Stdout := "git 2.44.0 main
7zip 23.01 main"; Stderr := ""; ExitCode := 0 |}]};
     Calls := [] |}.

Lemma scoop_Check_Run_witness :
  let '(ok, m1) := scoop_Check scoop_mock ["git"; "7zip"] in
  ok = true /\
  scoop_Run m1 empty_state ["git"; "7zip"] =
    (None, {| Results := Results scoop_mock;
              Calls := Calls scoop_mock ++ ["scoop list"; "scoop list"] |}, empty_state).
Proof.
  pose proof (scoop_Check_Run scoop_mock empty_state ["git"; "7zip"]) as H.
  destruct (scoop_Check scoop_mock ["git"; "7zip"]) as [ok m1] eqn:E.
  assert (Hok : ok = true) by (vm_compute in E; congruence).
  split; [exact Hok|exact (H Hok)].
Defined.

(** Go's [fmt.Sprintf("%d", n)] for an [int]: decimal digits, a leading
    ["-"] for a negative number, ["0"] for zero. *)
Definition itoa (n : Z) : string := DecimalString.NilZero.string_of_int (Z.to_int n).

(** [Category.String]. *)
Definition Category_String (c : Category) : string :=
  if decide (c = 0%Z) then "Base"
  else if decide (c = 1%Z) then "Language"
  else if decide (c = 2%Z) then "Tool"
  else "Category(" +:+ itoa c +:+ ")".

Lemma itoa_inj a b : itoa a = itoa b -> a = b.
Proof.
  unfold itoa. intros H.
  assert (Hn : forall z, Z.to_int z <> Decimal.Pos Decimal.Nil /\ Z.to_int z <> Decimal.Neg Decimal.Nil).
  { intros z. split; intros E; pose proof (DecimalZ.of_to z) as Hz; rewrite E in Hz;
      cbn in Hz; subst z; discriminate. }
  destruct (Hn a) as [Ha1 Ha2], (Hn b) as [Hb1 Hb2].
  pose proof (DecimalString.NilZero.isi _ Ha1 Ha2) as Ia.
  pose proof (DecimalString.NilZero.isi _ Hb1 Hb2) as Ib.
  rewrite H, Ib in Ia. injection Ia as Ia.
  rewrite <- (DecimalZ.of_to a), <- (DecimalZ.of_to b). by rewrite Ia.
Qed.

Lemma string_app_inj_l p s1 s2 : p +:+ s1 = p +:+ s2 -> s1 = s2.
Proof. induction p as [|a p IH]; cbn; [done|]. intros [= H]. by apply IH. Qed.

Lemma string_app_inj_last s1 s2 c : s1 +:+ String c "" = s2 +:+ String c "" -> s1 = s2.
Proof.
  revert s2. induction s1 as [|a s1 IH]; intros [|b s2]; cbn; try done.
  - intros [= _ H]. by destruct s2.
  - intros [= _ H]. by destruct s1.
  - intros [= -> H]. f_equal. by apply IH.
Qed.

(** X14: [Category.String] gives distinct categories distinct names. *)
Theorem Category_String_inj c1 c2 : Category_String c1 = Category_String c2 -> c1 = c2.
Proof.
  unfold Category_String.
  repeat case_decide; subst; try done; cbn; intros Heq;
    try discriminate; try (by injection Heq).
  apply string_app_inj_l in Heq. apply string_app_inj_last in Heq. by apply itoa_inj.
Qed.

Lemma Category_String_inj_witness :
  Category_String 7%Z = Category_String 7%Z /\ 7%Z = 7%Z.
Proof. split; [reflexivity|apply (Category_String_inj 7%Z 7%Z); reflexivity]. Defined.

(* ================================================================== *)
(** * The claims *)


(** What [ResolveDeps] does guarantee: on a fully registered, acyclic needed
    set where no module lists a dependency twice, it succeeds with each
    needed ID once, dependencies first. *)
Lemma ResolveDeps_correct_nodup ms ids :
  (forall x, reach (build ms) ids x -> is_Some (modules (build ms) !! x)) ->
  (forall x, reach (build ms) ids x -> ~ tc (edge (build ms)) x x) ->
  (forall x, reach (build ms) ids x -> NoDup (deps (build ms) x)) ->
  exists l, ResolveDeps (build ms) ids = Ok l /\ NoDup l /\
    (forall x, x ∈ l <-> reach (build ms) ids x) /\ topo (build ms) l.
Proof.
  intros Hreg Hacy Hnd.
  destruct (ResolveDeps (build ms) ids) as [l|e] eqn:Hres.
  - exists l. split; [done|].
    apply (ResolveDeps_with_ok (build ms) (build_wf ms) elements elements
             elements_perm elements_perm ids l Hres).
  - exfalso.
    destruct (ResolveDeps_with_err (build ms) (build_wf ms) elements elements
                elements_perm elements_perm ids e Hres)
      as [(z & _ & Hz & Hr)|(_ & _ & x & Hx & [Hc|Hd])].
    + destruct (Hreg z Hr) as [m Hm]. congruence.
    + by apply (Hacy x Hx).
    + by apply Hd, Hnd.
Qed.

(** C1 (code_bug): the needed set of ["python"] in [dup_reg] is fully
    registered and acyclic, yet [ResolveDeps] fails with a cycle error,
    because ["python"] lists ["base"] twice. *)
Theorem C1_resolve_dup_dependency :
  (forall x, reach dup_reg ["python"] x -> is_Some (modules dup_reg !! x)) /\
  (forall x, ~ tc (edge dup_reg) x x) /\
  ResolveDeps dup_reg ["python"] = Error ErrCycle.
Proof.
  split_and!.
  - apply dup_reg_registered.
  - apply dup_reg_acyclic.
  - vm_compute. reflexivity.
Qed.

(** C8 (code_bug): [ResolveDeps] fails exactly when the needed set has an
    unregistered ID, a cycle, or a module listing a dependency twice (the
    last case is not in the claim); a not-found error names an unregistered
    needed ID, and a failure carries no list. *)
Theorem C8_resolve_failure_cases ms ids :
  ((exists e, ResolveDeps (build ms) ids = Error e) <->
   (exists z, reach (build ms) ids z /\ modules (build ms) !! z = None) \/
   (exists x, reach (build ms) ids x /\
      (tc (edge (build ms)) x x \/ ~ NoDup (deps (build ms) x)))) /\
  (forall z, ResolveDeps (build ms) ids = Error (ErrNotFound z) ->
     reach (build ms) ids z /\ modules (build ms) !! z = None).
Proof.
  pose proof (build_wf ms) as Hwf.
  split; [split|].
  - intros [e He].
    destruct (ResolveDeps_with_err (build ms) Hwf elements elements
                elements_perm elements_perm ids e He)
      as [(z & _ & Hz & Hr)|(_ & _ & Hx)]; [left; eauto|by right].
  - intros H. destruct (ResolveDeps (build ms) ids) as [l|e] eqn:Hres; [|eauto].
    exfalso.
    destruct (ResolveDeps_with_ok (build ms) Hwf elements elements
                elements_perm elements_perm ids l Hres) as (_ & Hmem & _).
    pose proof (ResolveDeps_with_ok_registered (build ms) Hwf elements elements
                  elements_perm elements_perm ids l Hres) as Hreg.
    destruct H as [(z & Hz & Hnone)|(x & Hx & Hbad)].
    + apply Hmem, Hreg in Hz. rewrite Hnone in Hz. by destruct Hz.
    + assert (Hall : forall y, reach (build ms) ids y -> is_Some (modules (build ms) !! y))
        by (intros y Hy; by apply Hreg, Hmem).
      pose proof (ResolveDeps_with_stuck (build ms) Hwf elements elements
                    elements_perm elements_perm ids Hall (ex_intro _ x (conj Hx Hbad))) as Hs.
      change (ResolveDeps (build ms) ids = Error ErrCycle) in Hs. congruence.
  - intros z Hz.
    destruct (ResolveDeps_with_err (build ms) Hwf elements elements
                elements_perm elements_perm ids _ Hz)
      as [(z' & Heq & Hn & Hr)|(Heq & _)]; [|discriminate].
    injection Heq as ->. done.
Qed.

(** C9 (corrected): the order found in [fifo_reg] for ["c"; "b"]: ["c"] is
    registered before ["b"], and both are eligible once ["a"] is output,
    but ["b"] comes first, since it entered the ready queue earlier. *)
Lemma fifo_reg_order :
  order fifo_reg = ["c"; "a"; "b"] /\
  ResolveDeps fifo_reg ["c"; "b"] = Ok ["a"; "b"; "c"].
Proof. split; vm_compute; reflexivity. Qed.

(** C9 (corrected): the result does not depend on the iteration order of
    Go's maps (any two orders [k1], [k2] of the needed set give the same
    result), and the output follows the FIFO ready queue: a module made
    ready earlier (after an earlier output position) comes first, and
    modules made ready at the same time come in registration order. *)
Theorem C9_deterministic_fifo ms ids (k1 k2 : gset string -> list string) l :
  (forall N, k1 N ≡ₚ elements N) -> (forall N, k2 N ≡ₚ elements N) ->
  ResolveDeps_with (build ms) k1 k2 ids = ResolveDeps (build ms) ids /\
  (ResolveDeps (build ms) ids = Ok l -> StronglySorted (key_lt (build ms) l) l).
Proof.
  intros Hk1 Hk2. split.
  - apply (ResolveDeps_with_eq (build ms) (build_wf ms) k1 k2 Hk1 Hk2).
  - intros Hres.
    apply (ResolveDeps_with_fifo (build ms) elements elements ids l (build_wf ms)
             elements_perm elements_perm Hres).
Qed.

Lemma C9_witness :
  (forall N : gset string, elements N ≡ₚ elements N) /\
  (forall N : gset string, rev (elements N) ≡ₚ elements N) /\
  ResolveDeps_with fifo_reg elements (fun N => rev (elements N)) ["c"; "b"] =
    ResolveDeps fifo_reg ["c"; "b"] /\
  (ResolveDeps fifo_reg ["c"; "b"] = Ok ["a"; "b"; "c"] ->
   StronglySorted (key_lt fifo_reg ["a"; "b"; "c"]) ["a"; "b"; "c"]).
Proof.
  assert (H1 : forall N : gset string, elements N ≡ₚ elements N) by (intros N; reflexivity).
  assert (H2 : forall N : gset string, rev (elements N) ≡ₚ elements N)
    by (intros N; symmetry; apply Permutation_rev).
  split_and!; [exact H1|exact H2| |];
    apply (C9_deterministic_fifo [mk "c" ["a"] []; mk "a" [] []; mk "b" [] []]
             ["c"; "b"] elements (fun N => rev (elements N)) ["a"; "b"; "c"] H1 H2).
Defined.

(** C10: if the needed set is fully registered and some needed module lists
    a dependency more than once, [ResolveDeps] reports a cycle, whether or
    not the graph has one. *)
Theorem C10_dup_dependency_cycle ms ids x :
  (forall y, reach (build ms) ids y -> is_Some (modules (build ms) !! y)) ->
  reach (build ms) ids x -> ~ NoDup (deps (build ms) x) ->
  ResolveDeps (build ms) ids = Error ErrCycle.
Proof.
  intros Hall Hx Hd.
  apply (ResolveDeps_with_stuck (build ms) (build_wf ms) elements elements
           elements_perm elements_perm ids Hall).
  exists x. auto.
Qed.

Lemma C10_witness :
  (forall y, reach dup_reg ["python"] y -> is_Some (modules dup_reg !! y)) /\
  reach dup_reg ["python"] "python" /\ ~ NoDup (deps dup_reg "python") /\
  (forall x, ~ tc (edge dup_reg) x x) /\
  ResolveDeps dup_reg ["python"] = Error ErrCycle.
Proof.
  split_and!; [exact dup_reg_registered|exact dup_reg_python|exact dup_reg_python_dup
              |exact dup_reg_acyclic|].
  apply (C10_dup_dependency_cycle [mk "base" [] []; mk "python" ["base"; "base"] []]
           ["python"] "python" dup_reg_registered dup_reg_python dup_reg_python_dup).
Defined.


(** C4 (corrected): a one-step module in dry-run mode whose check is not
    satisfied: the post-step hook gets [skipped = true], but the result's
    [Skipped] counter stays 0. *)
Lemma dry_run_not_counted :
  let '(res, tr) := interp h_default (RunModule (traced true) (mk "A" [] [plain_step "s0"])) [] in
  OPost "A" 0 1 true None ∈ tr /\ Skipped res = 0.
Proof. cbn. split; [set_solver|reflexivity]. Qed.

(** C4 (corrected): in dry-run mode [Run] is never called; the result has
    no completed step, no failed step and no error, and its [Skipped]
    counts only the steps whose check returned true; every other step has
    its [DryRun] called exactly when it has one, and its post-step hook gets
    [skipped = true] and no error. *)
Theorem C4_dry_run_module (h : Oracle) m :
  let '(res, tr) := interp h (RunModule (traced true) m) [] in
  Forall (fun o => is_run o = false) tr /\
  Completed res = 0 /\ FailedStep res = EmptyString /\ Err res = None /\
  Skipped res = count check_true tr /\
  (forall k st, Steps m !! k = Some st -> OCheck (ID m) k true ∉ tr ->
     ((exists d, ODryRun (ID m) k d ∈ tr) <-> HasDryRun st = true) /\
     OPost (ID m) k (length (Steps m)) true None ∈ tr).
Proof.
  destruct (RunModule_exec h true m []) as (tr & res & Hi & Hex). rewrite Hi. cbn.
  destruct (exec_dry true m _ _ _ _ _ _ eq_refl Hex) as (Hrun & Hc & Hf & He & Hk).
  destruct (exec_counts true m _ _ _ _ _ _ Hex) as (Hs & _).
  cbn in *. split_and!; try done.
Qed.

(** C5: in non-dry-run mode, if the [Run] of step [j] fails with [e], that
    call and the post-step hook with the error are the last calls of the
    module, no call concerns a later step, the result names step [j] as
    failed with the error wrapped with the step and module, and [j] steps
    were counted as completed or skipped before it. *)
Theorem C5_fail_fast (h : Oracle) m j e res tr :
  interp h (RunModule (traced false) m) [] = (res, tr) ->
  ORun (ID m) j (Some e) ∈ tr ->
  exists st pre, Steps m !! j = Some st /\
    tr = pre ++ [ORun (ID m) j (Some e); OPost (ID m) j (length (Steps m)) false (Some e)] /\
    Forall (fun o => exists k, obs_step o = Some (ID m, k) /\ k <= j) tr /\
    FailedStep res = Name st /\ Err res = Some (ErrStepFailed (Name st) (ID m) e) /\
    Skipped res = count check_true tr /\ Completed res = count run_ok tr /\
    Completed res + Skipped res = j.
Proof.
  intros Hi Hin.
  destruct (RunModule_exec h false m []) as (tr' & res' & Hi' & Hex).
  rewrite Hi' in Hi. injection Hi as <- <-. cbn in Hin |- *.
  destruct (exec_fail false m _ _ _ _ _ _ _ _ eq_refl Hex Hin)
    as (st & pre & Hst & _ & Htr & Hall & Hf & He & Hcs).
  destruct (exec_counts false m _ _ _ _ _ _ Hex) as (Hs & Hc & _).
  exists st, pre. rewrite Nat.sub_0_r in Hst, Hcs. cbn in *. split_and!; try done; lia.
Qed.

Lemma C5_witness :
  ORun "M" 1 (Some (ErrNotFound "pip")) ∈ fail_run.2 /\
  Completed fail_run.1 = 1 /\ Skipped fail_run.1 = 0 /\ FailedStep fail_run.1 = "fail" /\
  (forall r, ORun "M" 2 r ∉ fail_run.2) /\
  exists st pre, Steps fail_mod !! 1 = Some st /\
    fail_run.2 = pre ++ [ORun "M" 1 (Some (ErrNotFound "pip"));
                         OPost "M" 1 3 false (Some (ErrNotFound "pip"))] /\
    Forall (fun o => exists k, obs_step o = Some ("M", k) /\ k <= 1) fail_run.2 /\
    FailedStep fail_run.1 = Name st /\
    Err fail_run.1 = Some (ErrStepFailed (Name st) "M" (ErrNotFound "pip")) /\
    Skipped fail_run.1 = count check_true fail_run.2 /\
    Completed fail_run.1 = count run_ok fail_run.2 /\
    Completed fail_run.1 + Skipped fail_run.1 = 1.
Proof.
  assert (Hin : ORun "M" 1 (Some (ErrNotFound "pip")) ∈ fail_run.2)
    by (vm_compute; set_solver).
  split_and!; [exact Hin|vm_compute; reflexivity|vm_compute; reflexivity
              |vm_compute; reflexivity| |].
  - intros r. vm_compute. set_solver.
  - apply (C5_fail_fast h_fail1 fail_mod 1 (ErrNotFound "pip") fail_run.1 fail_run.2);
      [vm_compute; reflexivity|exact Hin].
Defined.

(** C6: if the check of step [j] returns true, the only calls concerning
    step [j] are the pre-step hook, that check and the post-step hook with
    [skipped = true] and no error (no [Run], no [DryRun]); the next step
    starts; and [Skipped] counts the true checks. *)
Theorem C6_check_skips (h : Oracle) dry m j res tr :
  interp h (RunModule (traced dry) m) [] = (res, tr) ->
  OCheck (ID m) j true ∈ tr ->
  filter (fun o => obs_step o = Some (ID m, j)) tr =
    [OPre (ID m) j (length (Steps m)); OCheck (ID m) j true;
     OPost (ID m) j (length (Steps m)) true None] /\
  (S j < length (Steps m) -> OPre (ID m) (S j) (length (Steps m)) ∈ tr) /\
  Skipped res = count check_true tr.
Proof.
  intros Hi Hin.
  destruct (RunModule_exec h dry m []) as (tr' & res' & Hi' & Hex).
  rewrite Hi' in Hi. injection Hi as <- <-. cbn in Hin |- *.
  destruct (exec_skip_block dry m _ _ _ _ _ _ _ Hex Hin) as (Hf & Hn).
  destruct (exec_counts dry m _ _ _ _ _ _ Hex) as (Hs & _).
  split_and!; [exact Hf|exact Hn|]. cbn in Hs. lia.
Qed.

Lemma C6_witness :
  OCheck "M" 0 true ∈ skip_run.2 /\
  filter (fun o => obs_step o = Some ("M", 0)) skip_run.2 =
    [OPre "M" 0 2; OCheck "M" 0 true; OPost "M" 0 2 true None] /\
  (1 < 2 -> OPre "M" 1 2 ∈ skip_run.2) /\
  Skipped skip_run.1 = count check_true skip_run.2.
Proof.
  assert (Hin : OCheck "M" 0 true ∈ skip_run.2) by (vm_compute; set_solver).
  split; [exact Hin|].
  apply (C6_check_skips h_check_true false skip_mod 0 skip_run.1 skip_run.2);
    [vm_compute; reflexivity|exact Hin].
Defined.

(** C7: when resolution fails, [RunModules] makes no call and returns the
    wrapped resolution error; otherwise the modules it ran are a prefix of
    the resolved order, all of them if none failed, and up to and including
    the first failing module otherwise, whose error it returns; every call
    made concerns a module that ran. *)
Theorem C7_RunModules_stops (h : Oracle) dry ms ids :
  match ResolveDeps (build ms) ids with
  | Error e => interp h (RunModules (traced dry) (build ms) ids) [] =
                 (([], Some (ErrResolving e)), [])
  | Ok sorted => exists results err tr,
      interp h (RunModules (traced dry) (build ms) ids) [] = ((results, err), tr) /\
      map ModuleID results `prefix_of` sorted /\
      (err = None -> map ModuleID results = sorted /\
                     Forall (fun res => Err res = None) results) /\
      (forall e, err = Some e -> exists pre last, results = pre ++ [last] /\
         Forall (fun res => Err res = None) pre /\ Err last = Some e) /\
      Forall (fun o => exists x j, obs_step o = Some (x, j) /\ x ∈ map ModuleID results) tr
  end.
Proof.
  unfold RunModules. destruct (ResolveDeps (build ms) ids) as [sorted|e] eqn:Hres;
    [|reflexivity].
  assert (Hreg : forall id, id ∈ sorted -> is_Some (Get (build ms) id)).
  { intros id Hid.
    apply (ResolveDeps_with_ok_registered (build ms) (build_wf ms) elements elements
             elements_perm elements_perm ids sorted Hres id Hid). }
  destruct (run_modules_exec h dry (build ms) sorted (build_wf ms) Hreg [] [])
    as (results & err & tr & Hi & H1 & H2 & H3 & H4).
  exists results, err, tr. cbn in Hi. by rewrite Hi.
Qed.

(** C3 (corrected): [Cancel] after step 0 of ["A"] has run: the worker's
    [send] of the [StepStartMsg] of step 1 takes the [ctx.Done()] case, and
    the [Run] of step 1 is still called, after the cancellation. *)
Lemma cancel_then_run :
  exists c1 c2,
    rtc bstep (bridge_init (bridge_runner false) cx_reg ["A"]) c1 /\
    cancelled c1 = true /\ rtc bstep c1 c2 /\
    (ORun "A" 1 None ∉ wtr c1) /\ (ORun "A" 1 None ∈ wtr c2).
Proof.
  destruct (run_sched (bridge_init (bridge_runner false) cx_reg ["A"])
              [CDeliver; CDeliver; CCall false None; CDeliver; CCancel]) as [c1|] eqn:H1;
    [|by vm_compute in H1].
  destruct (run_sched c1 [CDrop; CCall false None]) as [c2|] eqn:H2.
  - exists c1, c2. split_and!.
    + by eapply run_sched_sound.
    + pose proof H1 as E1. vm_compute in E1. injection E1 as E1. by subst c1.
    + by eapply run_sched_sound.
    + pose proof H1 as E1. vm_compute in E1. injection E1 as E1. subst c1. cbn.
      intros Hin. repeat (apply elem_of_cons in Hin as [Hin|Hin]; [discriminate|]).
      by apply not_elem_of_nil in Hin.
    + pose proof H1 as E1. vm_compute in E1. injection E1 as E1. subst c1.
      vm_compute in H2. injection H2 as H2. subst c2. cbn. set_solver.
  - pose proof H1 as E1. vm_compute in E1. injection E1 as E1. subst c1.
    by vm_compute in H2.
Qed.

(** C2 (corrected): with [Cancel] called during a run, [NextMsg] returns
    the messages [cx_msgs] (the [StepStartMsg] of step 0 has no
    [StepDoneMsg]) and then nil: the received stream breaks the grammar. *)
Lemma cancel_breaks_stream :
  exists c msgs,
    rtc bstep (bridge_init (bridge_runner false) cx_reg ["A"]) c /\
    recvd c = map Some msgs ++ [None] /\ ~ stream_ok cx_reg ["A"] msgs.
Proof.
  destruct (run_sched (bridge_init (bridge_runner false) cx_reg ["A"])
              [CDeliver; CDeliver; CCall false None; CCancel; CDrop; CDeliver;
               CCall false None; CDeliver; CDeliver; CExit;
               CRecv; CRecv; CRecv; CRecv; CRecv; CRecvEnd]) as [c|] eqn:H;
    [|by vm_compute in H].
  exists c, cx_msgs. split_and!.
  - by eapply run_sched_sound.
  - vm_compute in H. injection H as H. subst c. reflexivity.
  - apply cx_msgs_not_ok.
Qed.

(** C2 (corrected): in every run where [Cancel] is not called, once
    [NextMsg] has returned nil, the messages received before it form the
    event grammar: a [RunErrorMsg] alone when resolution fails, otherwise
    for each module in resolved order a [ModuleStartMsg] then a
    [StepStartMsg] and one [StepDoneMsg] or [StepErrorMsg] per step run,
    stopping at the first failing step, then one [AllDoneMsg] with the
    results so far. *)
Theorem C2_stream_uncancelled dry ms ids c msgs :
  rtc bstep (bridge_init (bridge_runner dry) (build ms) ids) c ->
  cancelled c = false -> recvd c = map Some msgs ++ [None] ->
  stream_ok (build ms) ids msgs.
Proof. apply bridge_stream_uncancelled. Qed.

Lemma C2_witness :
  rtc bstep (bridge_init (bridge_runner false) (build ex_mods) ["A"]) ex_cfg /\
  cancelled ex_cfg = false /\ recvd ex_cfg = map Some ex_msgs ++ [None] /\
  stream_ok (build ex_mods) ["A"] ex_msgs.
Proof.
  assert (H1 : rtc bstep (bridge_init (bridge_runner false) (build ex_mods) ["A"]) ex_cfg)
    by (apply run_sched_sound with
          (chs := [CDeliver; CDeliver; CCall true None; CDeliver; CDeliver; CCall false None;
                   CDeliver; CDeliver; CExit; CRecv; CRecv; CRecv; CRecv; CRecv; CRecv;
                   CRecvEnd]); vm_compute; reflexivity).
  assert (H2 : cancelled ex_cfg = false) by (vm_compute; reflexivity).
  assert (H3 : recvd ex_cfg = map Some ex_msgs ++ [None]) by (vm_compute; reflexivity).
  split_and!; [exact H1|exact H2|exact H3|].
  apply (C2_stream_uncancelled false ex_mods ["A"] ex_cfg ex_msgs H1 H2 H3).
Defined.

(** C3 (corrected): in any state reached after [Cancel], the worker is
    never blocked: while it has not returned it can take a step of its own
    whatever the channel holds (a [send] can take the [ctx.Done()] case), and
    by its own steps alone, with no [NextMsg], it returns and closes the
    channel. Every sequence of worker steps and message deliveries is
    finite; some such sequence drains the channel, after which [NextMsg]
    returns nil; and when none is possible the worker has returned and the
    channel is closed and drained. *)
Theorem C3_cancel_terminates rn r ids c :
  rtc bstep (bridge_init rn r ids) c -> cancelled c = true ->
  Acc (fun c' c => pstep c c') c /\
  (wk c <> None -> exists c', wstep c c') /\
  (exists c', rtc wstep c c' /\ wk c' = None /\ closed c' = true /\ buf c' = buf c) /\
  (exists c', rtc pstep c c' /\ buf c' = [] /\ closed c' = true /\ bstep c' (recv_end c')) /\
  ((forall c', ~ pstep c c') -> wk c = None /\ buf c = [] /\ closed c = true).
Proof.
  intros Hr Hc. pose proof (reach_inv _ _ _ _ Hr) as Hi.
  destruct (cancelled_worker_returns c Hi Hc) as (c1 & Hw1 & Hn1 & Hcl1 & Hb1).
  destruct (drain_channel _ c1 eq_refl Hn1 Hcl1) as (c2 & Hp2 & _ & Hb2 & Hcl2).
  split_and!.
  - by apply cancelled_acc.
  - by apply cancelled_wstep.
  - exists c1. by split_and!.
  - exists c2. split_and!; [by eapply transitivity, Hp2; apply wsteps_psteps|done|done|].
    by apply B_end.
  - by apply cancelled_stuck.
Qed.

Lemma C3_witness :
  rtc bstep (bridge_init (bridge_runner false) cx_reg ["A"]) cancel_cfg /\
  cancelled cancel_cfg = true /\
  (wk cancel_cfg <> None -> exists c', wstep cancel_cfg c').
Proof.
  assert (H1 : rtc bstep (bridge_init (bridge_runner false) cx_reg ["A"]) cancel_cfg)
    by (apply run_sched_sound with (chs := [CCancel]); vm_compute; reflexivity).
  assert (H2 : cancelled cancel_cfg = true) by (vm_compute; reflexivity).
  split_and!; [exact H1|exact H2|].
  apply (C3_cancel_terminates (bridge_runner false) cx_reg ["A"] cancel_cfg H1 H2).
Defined.
